(** * Asset registry chaincode (lib/assetTransfer.js): model and properties

    The contract is a class of transaction handlers over the world state
    that the ledger runtime injects as [ctx.stub].  This development embeds
    the handlers as state-passing functions over that stub, together with
    the JSON machinery they call, and proves the properties the
    specification states about them.

    Conventions of the embedding.
    - Text (JavaScript strings and the bytes of a Buffer) is a [string]: the
      sequence of its UTF-8 bytes.  [Buffer.from(s)] followed by
      [toString()] is the identity on such text.  Strings are compared
      byte by byte.
    - A JSON number is a decimal, kept as it is: the integer [n] is
      [JNum n], and a number with decimals is [JDec m k], the number
      [m / 10^k].  JavaScript keeps the nearest double instead; the two
      agree on the values that [exact] accepts (integers up to 2^53 in
      magnitude, numbers of at most 15 significant digits), and the
      properties that depend on it are stated for those.
    - A JavaScript object is the list of its properties in enumeration
      order: array-index keys first, in ascending numeric order, then the
      other keys in creation order.
    - The world state is a finite map from keys to values.
    - An [async] handler is a function from the stub to its result, returned
      or thrown, and the stub it leaves; [await] sequences such functions,
      and what was written before an exception stays written. *)

From Stdlib Require Import ZArith Ascii String Decimal DecimalPos DecimalN.
From stdpp Require Import gmap strings list sorting.

Set Warnings "-clear-no-such-hyp".

Local Open Scope string_scope.
Local Open Scope Z_scope.

(** ** JSON values *)

Unset Elimination Schemes.
Inductive json : Type :=
| JNull
| JBool (b : bool)
| JNum (n : Z)
| JDec (m : Z) (k : nat)
| JStr (s : string)
| JArr (items : list json)
| JObj (props : list (string * json)).
Set Elimination Schemes.

(** Structural induction that also gives the hypothesis for the values
    nested in arrays and objects. *)
Definition json_induction (P : json -> Prop)
  (Hnull : P JNull) (Hbool : forall b, P (JBool b))
  (Hnum : forall n, P (JNum n)) (Hdec : forall m k, P (JDec m k))
  (Hstr : forall s, P (JStr s))
  (Harr : forall items, Forall P items -> P (JArr items))
  (Hobj : forall props, Forall (fun kv => P kv.2) props -> P (JObj props)) :
  forall v, P v :=
  fix go (v : json) : P v :=
    match v with
    | JNull => Hnull
    | JBool b => Hbool b
    | JNum n => Hnum n
    | JDec m k => Hdec m k
    | JStr s => Hstr s
    | JArr items =>
        Harr items
          ((fix all (l : list json) : Forall P l :=
              match l with
              | [] => @List.Forall_nil _ P
              | x :: l' => @List.Forall_cons _ P x l' (go x) (all l')
              end) items)
    | JObj props =>
        Hobj props
          ((fix all (l : list (string * json)) : Forall (fun kv => P kv.2) l :=
              match l with
              | [] => @List.Forall_nil _ _
              | kv :: l' => @List.Forall_cons _ (fun kv => P kv.2) kv l' (go kv.2) (all l')
              end) props)
    end.

(** ** Characters of the JSON grammar *)

Definition DQUOTE : ascii := "034"%char.
Definition BACKSLASH : ascii := "092"%char.

Definition is_ws (c : ascii) : bool :=
  match c with
  | " "%char | "009"%char | "010"%char | "013"%char => true
  | _ => false
  end.

Definition is_digit (c : ascii) : bool :=
  (48 <=? N_of_ascii c)%N && (N_of_ascii c <=? 57)%N.

Definition hex_digit (n : N) : ascii :=
  if (n <? 10)%N then ascii_of_N (48 + n) else ascii_of_N (87 + n).

Definition hex_value (c : ascii) : option N :=
  let n := N_of_ascii c in
  if (48 <=? n)%N && (n <=? 57)%N then Some (n - 48)%N
  else if (97 <=? n)%N && (n <=? 102)%N then Some (n - 87)%N
  else if (65 <=? n)%N && (n <=? 70)%N then Some (n - 55)%N
  else None.

(** ** JSON.stringify

    The compact serialisation: no space between tokens, object properties
    in enumeration order.  The writers take the text that follows as an
    argument and put their output in front of it. *)

Definition write_char (c : ascii) (k : string) : string :=
  if Ascii.eqb c DQUOTE then String BACKSLASH (String DQUOTE k)
  else if Ascii.eqb c BACKSLASH then String BACKSLASH (String BACKSLASH k)
  else if Ascii.eqb c "008" then String BACKSLASH (String "b" k)
  else if Ascii.eqb c "012" then String BACKSLASH (String "f" k)
  else if Ascii.eqb c "010" then String BACKSLASH (String "n" k)
  else if Ascii.eqb c "013" then String BACKSLASH (String "r" k)
  else if Ascii.eqb c "009" then String BACKSLASH (String "t" k)
  else if (N_of_ascii c <? 32)%N then
    String BACKSLASH (String "u" (String "0" (String "0"
      (String (hex_digit (N_of_ascii c / 16)) (String (hex_digit (N_of_ascii c mod 16)) k)))))
  else String c k.

Fixpoint write_chars (s : string) (k : string) : string :=
  match s with
  | EmptyString => k
  | String c s' => write_char c (write_chars s' k)
  end.

Definition write_string (s : string) (k : string) : string :=
  String DQUOTE (write_chars s (String DQUOTE k)).

Fixpoint write_uint (d : uint) (k : string) : string :=
  match d with
  | Nil => k
  | D0 d => String "0" (write_uint d k)
  | D1 d => String "1" (write_uint d k)
  | D2 d => String "2" (write_uint d k)
  | D3 d => String "3" (write_uint d k)
  | D4 d => String "4" (write_uint d k)
  | D5 d => String "5" (write_uint d k)
  | D6 d => String "6" (write_uint d k)
  | D7 d => String "7" (write_uint d k)
  | D8 d => String "8" (write_uint d k)
  | D9 d => String "9" (write_uint d k)
  end.

(** ** Numbers

    [JNum n] is the integer [n] and [JDec m k] is the number [m / 10^k].
    A JavaScript number has one representation: the one with no final zero
    among its decimals, and [JNum] when no decimal is left.  Numbers are
    written as Number::toString writes them. *)

(** [m / 10^k] without the final zeros of its decimals. *)
Fixpoint reduce (k : nat) (m : Z) : Z * nat :=
  match k with
  | O => (m, O)
  | S k' => if m mod 10 =? 0 then reduce k' (m / 10) else (m, k)
  end.

(** The number [m / 10^k]. *)
Definition number (m : Z) (k : nat) : json :=
  match reduce k m with
  | (n, O) => JNum n
  | (m', S k') => JDec m' (S k')
  end.

(** At least one decimal, and the last one is not zero. *)
Definition canonical_dec (m : Z) (k : nat) : bool :=
  negb (Nat.eqb k 0) && negb (m mod 10 =? 0).

Fixpoint digits_app (d d' : uint) : uint :=
  match d with
  | Nil => d'
  | D0 d => D0 (digits_app d d')
  | D1 d => D1 (digits_app d d')
  | D2 d => D2 (digits_app d d')
  | D3 d => D3 (digits_app d d')
  | D4 d => D4 (digits_app d d')
  | D5 d => D5 (digits_app d d')
  | D6 d => D6 (digits_app d d')
  | D7 d => D7 (digits_app d d')
  | D8 d => D8 (digits_app d d')
  | D9 d => D9 (digits_app d d')
  end.

(** The first [n] digits. *)
Fixpoint take_digits (n : nat) (d : uint) : uint :=
  match n with
  | O => Nil
  | S n' =>
      match d with
      | Nil => Nil
      | D0 d => D0 (take_digits n' d)
      | D1 d => D1 (take_digits n' d)
      | D2 d => D2 (take_digits n' d)
      | D3 d => D3 (take_digits n' d)
      | D4 d => D4 (take_digits n' d)
      | D5 d => D5 (take_digits n' d)
      | D6 d => D6 (take_digits n' d)
      | D7 d => D7 (take_digits n' d)
      | D8 d => D8 (take_digits n' d)
      | D9 d => D9 (take_digits n' d)
      end
  end.

(** The digits after the first [n]. *)
Fixpoint drop_digits (n : nat) (d : uint) : uint :=
  match n with
  | O => d
  | S n' =>
      match d with
      | Nil => Nil
      | D0 d | D1 d | D2 d | D3 d | D4 d | D5 d | D6 d | D7 d | D8 d | D9 d =>
          drop_digits n' d
      end
  end.

Fixpoint zeros (n : nat) : uint :=
  match n with
  | O => Nil
  | S n' => D0 (zeros n')
  end.

(** A numeral: the digits before the point, the digits after it, if any,
    and the exponent, if any, with its sign. *)
Definition Numeral : Type := uint * uint * option (bool * N).

Definition write_numeral (l : Numeral) (k : string) : string :=
  let '(i, f, e) := l in
  write_uint i
    (let k' := match e with
               | Some (negative, x) =>
                   String "e" (String (if negative : bool then "-" else "+")
                                 (write_uint (N.to_uint x) k))
               | None => k
               end in
     match f with
     | Nil => k'
     | _ => String "." (write_uint f k')
     end).

(** Number::toString for the decimal with the significant digits [d], of
    which the last [k] are decimals: positional notation when the point
    falls within 21 digits after the first digit or 6 zeros before it,
    exponent notation otherwise. *)
Definition notation (d : uint) (k : nat) : Numeral :=
  let j := nb_digits d in
  if (k <? j)%nat then
    if (j - k <=? 21)%nat then (take_digits (j - k) d, drop_digits (j - k) d, None)
    else (take_digits 1 d, drop_digits 1 d, Some (false, N.of_nat (j - k - 1)))
  else if (k - j <? 6)%nat then (D0 Nil, digits_app (zeros (k - j)) d, None)
  else (take_digits 1 d, drop_digits 1 d, Some (true, N.of_nat (k - j + 1))).

(** [n] without its final zeros, and their number. *)
Fixpoint strip_zeros (fuel : nat) (n : Z) : Z * nat :=
  match fuel with
  | O => (n, O)
  | S fuel' =>
      if (n mod 10 =? 0) && negb (n =? 0) then
        let '(n', z) := strip_zeros fuel' (n / 10) in (n', S z)
      else (n, O)
  end.

(** Number::toString for a positive integer: all its digits below 10^21,
    exponent notation from there on, with the digits up to the last one
    that is not zero. *)
Definition write_natural (p : positive) (k : string) : string :=
  if Z.pos p <? 10 ^ 21 then write_uint (Pos.to_uint p) k
  else
    let '(n, z) := strip_zeros (nb_digits (Pos.to_uint p)) (Z.pos p) in
    let d := Pos.to_uint (Z.to_pos n) in
    write_numeral
      (take_digits 1 d, drop_digits 1 d, Some (false, N.of_nat (nb_digits d + z - 1))) k.

Definition write_number (n : Z) (k : string) : string :=
  match n with
  | Z0 => String "0" k
  | Zpos p => write_natural p k
  | Zneg p => String "-" (write_natural p k)
  end.

(** The text of [m / 10^k] for a number that has decimals. *)
Definition write_fraction (m : Z) (k : nat) (rest : string) : string :=
  match m with
  | Z0 => String "0" rest
  | Zpos p => write_numeral (notation (Pos.to_uint p) k) rest
  | Zneg p => String "-" (write_numeral (notation (Pos.to_uint p) k) rest)
  end.

Definition write_decimal (m : Z) (k : nat) (rest : string) : string :=
  match reduce k m with
  | (n, O) => write_number n rest
  | (m', S k') => write_fraction m' (S k') rest
  end.

(** Items separated by commas. *)
Definition write_seq {A} (w : A -> string -> string) (l : list A) (k : string) : string :=
  match l with
  | [] => k
  | x :: l' => w x (fold_right (fun y acc => String "," (w y acc)) k l')
  end.

Fixpoint write_value (v : json) (k : string) : string :=
  match v with
  | JNull => "null" +:+ k
  | JBool true => "true" +:+ k
  | JBool false => "false" +:+ k
  | JNum n => write_number n k
  | JDec m d => write_decimal m d k
  | JStr s => write_string s k
  | JArr items => String "[" (write_seq write_value items (String "]" k))
  | JObj props =>
      String "{" (write_seq (fun kv k' => write_string kv.1 (String ":" (write_value kv.2 k')))
                    props (String "}" k))
  end.

Definition JSON_stringify (v : json) : string := write_value v EmptyString.

(** ** JavaScript objects

    Reading and writing a property of an object given as the list of its
    properties.  Writing an existing key keeps its place; a new key goes
    after the keys created before it, except that an array-index key (the
    canonical numeral of an integer below 2^32 - 1) goes among the index
    keys, in numeric order. *)

Definition cons_digit (c : ascii) (d : uint) : uint :=
  match c with
  | "0"%char => D0 d | "1"%char => D1 d | "2"%char => D2 d | "3"%char => D3 d
  | "4"%char => D4 d | "5"%char => D5 d | "6"%char => D6 d | "7"%char => D7 d
  | "8"%char => D8 d | "9"%char => D9 d
  | _ => d
  end.

(** The longest prefix of digits, and what follows it. *)
Fixpoint read_digits (s : string) : uint * string :=
  match s with
  | EmptyString => (Nil, s)
  | String c r =>
      if is_digit c then let '(d, r') := read_digits r in (cons_digit c d, r')
      else (Nil, s)
  end.

(** A numeral without a superfluous leading zero. *)
Definition canonical_uint (d : uint) : bool :=
  match d with
  | Nil => false
  | D0 Nil => true
  | D0 _ => false
  | _ => true
  end.

Definition array_index (key : string) : option N :=
  let '(d, r) := read_digits key in
  match r with
  | EmptyString =>
      if canonical_uint d && (N.of_uint d <? 4294967295)%N then Some (N.of_uint d) else None
  | _ => None
  end.

Fixpoint obj_get (key : string) (props : list (string * json)) : option json :=
  match props with
  | [] => None
  | (k, v) :: props' => if String.eqb key k then Some v else obj_get key props'
  end.

Fixpoint obj_replace (key : string) (v : json) (props : list (string * json)) :
    list (string * json) :=
  match props with
  | [] => []
  | (k, w) :: props' =>
      if String.eqb key k then (k, v) :: props' else (k, w) :: obj_replace key v props'
  end.

Fixpoint obj_insert_index (n : N) (key : string) (v : json) (props : list (string * json)) :
    list (string * json) :=
  match props with
  | [] => [(key, v)]
  | (k, w) :: props' =>
      match array_index k with
      | Some m => if (m <? n)%N then (k, w) :: obj_insert_index n key v props'
                  else (key, v) :: props
      | None => (key, v) :: props
      end
  end.

Definition obj_set (key : string) (v : json) (props : list (string * json)) :
    list (string * json) :=
  match obj_get key props with
  | Some _ => obj_replace key v props
  | None =>
      match array_index key with
      | Some n => obj_insert_index n key v props
      | None => props ++ [(key, v)]
      end
  end.

(** The object that defines the given properties one after the other. *)
Definition obj_of_entries (entries : list (string * json)) : list (string * json) :=
  fold_left (fun props kv => obj_set kv.1 kv.2 props) entries [].

(** ** JSON.parse *)

Fixpoint skip_ws (s : string) : string :=
  match s with
  | EmptyString => s
  | String c r => if is_ws c then skip_ws r else s
  end.

(** The text continues a numeral with a fraction or an exponent. *)
Definition starts_fraction (s : string) : bool :=
  match s with
  | String c _ => Ascii.eqb c "." || Ascii.eqb c "e" || Ascii.eqb c "E"
  | EmptyString => false
  end.

(** The digits of the fraction, if there is one: a point must be followed
    by a digit. *)
Definition read_fraction (s : string) : option (uint * string) :=
  match s with
  | String c r =>
      if Ascii.eqb c "." then
        match read_digits r with
        | (Nil, _) => None
        | (f, r') => Some (f, r')
        end
      else Some (Nil, s)
  | EmptyString => Some (Nil, s)
  end.

Definition read_exponent_digits (negative : bool) (s : string) : option (Z * string) :=
  match read_digits s with
  | (Nil, _) => None
  | (x, r) => Some (if negative then - Z.of_N (N.of_uint x) else Z.of_N (N.of_uint x), r)
  end.

(** The exponent, if there is one: [e] or [E], an optional sign, and at
    least one digit. *)
Definition read_exponent (s : string) : option (Z * string) :=
  match s with
  | String c r =>
      if Ascii.eqb c "e" || Ascii.eqb c "E" then
        match r with
        | String c' r' =>
            if Ascii.eqb c' "-" then read_exponent_digits true r'
            else if Ascii.eqb c' "+" then read_exponent_digits false r'
            else read_exponent_digits false r
        | EmptyString => None
        end
      else Some (0, s)
  | EmptyString => Some (0, s)
  end.

(** The number that a numeral denotes: the integer of its digits [d], of
    which the last [f] are decimals, times ten to the exponent [e]. *)
Definition decimal (negative : bool) (d : uint) (f : nat) (e : Z) : json :=
  let m := if negative then - Z.of_N (N.of_uint d) else Z.of_N (N.of_uint d) in
  if Z.of_nat f <=? e then JNum (m * 10 ^ (e - Z.of_nat f))
  else number m (Z.to_nat (Z.of_nat f - e)).

(** The numeral after its sign: digits without a superfluous leading
    zero, then an optional fraction and an optional exponent. *)
Definition read_unsigned (negative : bool) (s : string) : option (json * string) :=
  let '(i, r) := read_digits s in
  if canonical_uint i then
    match read_fraction r with
    | Some (f, r1) =>
        match read_exponent r1 with
        | Some (e, r2) => Some (decimal negative (digits_app i f) (nb_digits f) e, r2)
        | None => None
        end
    | None => None
    end
  else None.

Definition read_number (s : string) : option (json * string) :=
  match s with
  | String c r => if Ascii.eqb c "-" then read_unsigned true r else read_unsigned false s
  | EmptyString => None
  end.

(** The UTF-8 bytes of a code point. *)
Definition utf8_encode (cp : N) : string :=
  (if cp <? 128 then String (ascii_of_N cp) EmptyString
   else if cp <? 2048 then
     String (ascii_of_N (192 + cp / 64)) (String (ascii_of_N (128 + cp mod 64)) EmptyString)
   else if cp <? 65536 then
     String (ascii_of_N (224 + cp / 4096))
       (String (ascii_of_N (128 + (cp / 64) mod 64))
          (String (ascii_of_N (128 + cp mod 64)) EmptyString))
   else
     String (ascii_of_N (240 + cp / 262144))
       (String (ascii_of_N (128 + (cp / 4096) mod 64))
          (String (ascii_of_N (128 + (cp / 64) mod 64))
             (String (ascii_of_N (128 + cp mod 64)) EmptyString))))%N.

Definition hex4 (a b c d : ascii) : option N :=
  match hex_value a, hex_value b, hex_value c, hex_value d with
  | Some x, Some y, Some z, Some w => Some (4096 * x + 256 * y + 16 * z + w)%N
  | _, _, _, _ => None
  end.

Definition is_high_surrogate (u : N) : bool := (55296 <=? u)%N && (u <? 56320)%N.
Definition is_low_surrogate (u : N) : bool := (56320 <=? u)%N && (u <? 57344)%N.

(** The low surrogate that an escape at the head of [s] denotes, if any. *)
Definition low_surrogate_ahead (s : string) : option N :=
  match s with
  | String b (String u (String h1 (String h2 (String h3 (String h4 _))))) =>
      if Ascii.eqb b BACKSLASH && Ascii.eqb u "u" then
        match hex4 h1 h2 h3 h4 with
        | Some w => if is_low_surrogate w then Some w else None
        | None => None
        end
      else None
  | _ => None
  end.

(** U+FFFD, which stands for a surrogate without its partner once the
    text is written out as UTF-8. *)
Definition replacement : string := utf8_encode 65533.

Definition unescape (c : ascii) : option ascii :=
  if Ascii.eqb c DQUOTE then Some DQUOTE
  else if Ascii.eqb c BACKSLASH then Some BACKSLASH
  else if Ascii.eqb c "/" then Some "/"%char
  else if Ascii.eqb c "b" then Some "008"%char
  else if Ascii.eqb c "f" then Some "012"%char
  else if Ascii.eqb c "n" then Some "010"%char
  else if Ascii.eqb c "r" then Some "013"%char
  else if Ascii.eqb c "t" then Some "009"%char
  else None.

Definition prefixed (p : string) (r : option (string * string)) : option (string * string) :=
  match r with
  | Some (s, rest) => Some (p +:+ s, rest)
  | None => None
  end.

(** The characters of a string literal after its opening quote, up to the
    closing quote. *)
Fixpoint read_chars (s : string) : option (string * string) :=
  match s with
  | EmptyString => None
  | String c r =>
      if Ascii.eqb c DQUOTE then Some (EmptyString, r)
      else if Ascii.eqb c BACKSLASH then
        match r with
        | EmptyString => None
        | String e r1 =>
            if Ascii.eqb e "u" then
              match r1 with
              | String h1 (String h2 (String h3 (String h4 r2))) =>
                  match hex4 h1 h2 h3 h4 with
                  | None => None
                  | Some u =>
                      if is_high_surrogate u then
                        match low_surrogate_ahead r2, r2 with
                        | Some w, String _ (String _ (String _ (String _ (String _ (String _ r3))))) =>
                            prefixed (utf8_encode (65536 + 1024 * (u - 55296) + (w - 56320))%N)
                              (read_chars r3)
                        | _, _ => prefixed replacement (read_chars r2)
                        end
                      else if is_low_surrogate u then prefixed replacement (read_chars r2)
                      else prefixed (utf8_encode u) (read_chars r2)
                  end
              | _ => None
              end
            else
              match unescape e with
              | Some c' => prefixed (String c' EmptyString) (read_chars r1)
              | None => None
              end
        end
      else if (N_of_ascii c <? 32)%N then None
      else prefixed (String c EmptyString) (read_chars r)
  end.

(** [expect w s]: [s] without its prefix [w]. *)
Fixpoint expect (w s : string) : option string :=
  match w, s with
  | EmptyString, _ => Some s
  | String a w', String b s' => if Ascii.eqb a b then expect w' s' else None
  | String _ _, EmptyString => None
  end.

Definition literal (w : string) (v : json) (s : string) : option (json * string) :=
  match expect w s with
  | Some r => Some (v, r)
  | None => None
  end.

(** Recursive descent.  The fuel bounds the nesting and the number of items
    read; [JSON_parse] gives enough of it for the whole text. *)
Fixpoint parse_value (fuel : nat) (s : string) : option (json * string) :=
  match fuel with
  | O => None
  | S fuel =>
      match skip_ws s with
      | EmptyString => None
      | String c r =>
          if Ascii.eqb c "n" then literal "ull" JNull r
          else if Ascii.eqb c "t" then literal "rue" (JBool true) r
          else if Ascii.eqb c "f" then literal "alse" (JBool false) r
          else if Ascii.eqb c DQUOTE then
            match read_chars r with
            | Some (str, r') => Some (JStr str, r')
            | None => None
            end
          else if Ascii.eqb c "[" then
            match skip_ws r with
            | String c' r' =>
                if Ascii.eqb c' "]" then Some (JArr [], r')
                else match parse_elements fuel r with
                     | Some (items, r'') => Some (JArr items, r'')
                     | None => None
                     end
            | EmptyString => None
            end
          else if Ascii.eqb c "{" then
            match skip_ws r with
            | String c' r' =>
                if Ascii.eqb c' "}" then Some (JObj [], r')
                else match parse_members fuel r with
                     | Some (entries, r'') => Some (JObj (obj_of_entries entries), r'')
                     | None => None
                     end
            | EmptyString => None
            end
          else read_number (String c r)
      end
  end
with parse_elements (fuel : nat) (s : string) : option (list json * string) :=
  match fuel with
  | O => None
  | S fuel =>
      match parse_value fuel s with
      | Some (v, r) =>
          match skip_ws r with
          | String c r' =>
              if Ascii.eqb c "," then
                match parse_elements fuel r' with
                | Some (items, r'') => Some (v :: items, r'')
                | None => None
                end
              else if Ascii.eqb c "]" then Some ([v], r')
              else None
          | EmptyString => None
          end
      | None => None
      end
  end
with parse_members (fuel : nat) (s : string) : option (list (string * json) * string) :=
  match fuel with
  | O => None
  | S fuel =>
      match skip_ws s with
      | String q r =>
          if Ascii.eqb q DQUOTE then
            match read_chars r with
            | Some (key, r1) =>
                match skip_ws r1 with
                | String c r2 =>
                    if Ascii.eqb c ":" then
                      match parse_value fuel r2 with
                      | Some (v, r3) =>
                          match skip_ws r3 with
                          | String c' r4 =>
                              if Ascii.eqb c' "," then
                                match parse_members fuel r4 with
                                | Some (entries, r5) => Some ((key, v) :: entries, r5)
                                | None => None
                                end
                              else if Ascii.eqb c' "}" then Some ([(key, v)], r4)
                              else None
                          | EmptyString => None
                          end
                      | None => None
                      end
                    else None
                | EmptyString => None
                end
            | None => None
            end
          else None
      | EmptyString => None
      end
  end.

Definition JSON_parse (s : string) : option json :=
  match parse_value (2 * String.length s + 1) s with
  | Some (v, r) =>
      match skip_ws r with
      | EmptyString => Some v
      | String _ _ => None
      end
  | None => None
  end.

(** ** The canonical encoder: sort-keys-recursive and json-stringify-deterministic *)

(** Entries are ordered by their keys, compared as strings. *)
Definition key_le {A} (e1 e2 : string * A) : Prop := String.le e1.1 e2.1.

#[global] Instance key_le_dec {A} : RelDecision (@key_le A).
Proof. intros e1 e2. unfold key_le. apply _. Defined.

#[global] Instance key_le_trans {A} : Transitive (@key_le A).
Proof. intros x y z. unfold key_le. apply transitivity. Qed.

#[global] Instance key_le_total {A} : Total (@key_le A).
Proof. intros x y. unfold key_le. apply total, _. Qed.

(** The value with the properties of every object, at every depth, listed
    in ascending order of their keys; arrays keep the order of their items. *)
Fixpoint sort_keys (v : json) : json :=
  match v with
  | JArr items => JArr (map sort_keys items)
  | JObj props => JObj (merge_sort key_le (map (fun kv => (kv.1, sort_keys kv.2)) props))
  | _ => v
  end.

(** Modelled from the spec: the package sort-keys-recursive is a dependency
    that src/ does not contain.  The spec (4.1): it recursively sorts the
    keys of the record and of any nested mapping values, in ascending
    lexicographic order by key name; the order of array elements is
    preserved.  It is a pure function (no side effects): the argument is
    left as it is, and the result is a new JavaScript object, whose
    properties are defined in sorted order. *)
Fixpoint sortKeysRecursive (v : json) : json :=
  match v with
  | JArr items => JArr (map sortKeysRecursive items)
  | JObj props =>
      JObj (obj_of_entries
              (merge_sort key_le (map (fun kv => (kv.1, sortKeysRecursive kv.2)) props)))
  | _ => v
  end.

(** Modelled from the spec: the package json-stringify-deterministic is a
    dependency that src/ does not contain.  The spec (2, 4.1): all mapping
    keys are sorted, recursively, then serialised with no extraneous
    whitespace and a single fixed representation for each value type. *)
Definition stringify (v : json) : string := JSON_stringify (sort_keys v).

(** The canonical encoding of a record, as every handler computes it
    before a write. *)
Definition encode (record : json) : string := stringify (sortKeysRecursive record).

(** The value that [JSON_parse] builds from the text of [v]: every object
    is rebuilt by defining its properties in the order of the text, and
    every number is the one that its text denotes. *)
Fixpoint normalize (v : json) : json :=
  match v with
  | JDec m k => number m k
  | JArr items => JArr (map normalize items)
  | JObj props => JObj (obj_of_entries (map (fun kv => (kv.1, normalize kv.2)) props))
  | _ => v
  end.

(** ** Relations on JSON values *)

(** Every object, at every depth, has pairwise distinct keys, and every
    number with decimals has its one representation (both hold of every
    JavaScript value). *)
Fixpoint wf_json (v : json) : bool :=
  match v with
  | JDec m k => canonical_dec m k
  | JArr items => forallb wf_json items
  | JObj props =>
      bool_decide (NoDup props.*1) && forallb (fun kv => wf_json kv.2) props
  | _ => true
  end.

(** [w] occurs in [s]. *)
Fixpoint occurs (w s : string) : bool :=
  match expect w s with
  | Some _ => true
  | None =>
      match s with
      | EmptyString => false
      | String _ s' => occurs w s'
      end
  end.

(** The values that JavaScript holds as they are: integers up to 2^53 in
    magnitude, and numbers of at most 15 significant digits between 10^-300
    and 10^300 in magnitude, which a double tells apart and prints back
    digit for digit; strings without U+FFFD, which is what the embedding
    reads for an escape of a surrogate without its partner. *)
Definition exact_text (s : string) : bool := negb (occurs replacement s).

Fixpoint exact (v : json) : bool :=
  match v with
  | JNum n =>
      (Z.abs n <=? 2 ^ 53)
      || (Z.abs (strip_zeros 300 n).1 <? 10 ^ 15) && (Z.abs n <? 10 ^ 300)
  | JDec m k => (Z.abs m <? 10 ^ 15) && (k <=? 300)%nat
  | JStr s => exact_text s
  | JArr items => forallb exact items
  | JObj props => forallb (fun kv => exact_text kv.1 && exact kv.2) props
  | _ => true
  end.

(** The same keys with the same values, at every depth, possibly listed
    in another order. *)
Unset Elimination Schemes.
Inductive same_record : json -> json -> Prop :=
| same_null : same_record JNull JNull
| same_bool b : same_record (JBool b) (JBool b)
| same_num n : same_record (JNum n) (JNum n)
| same_dec m k : same_record (JDec m k) (JDec m k)
| same_str s : same_record (JStr s) (JStr s)
| same_arr l l' : Forall2 same_record l l' -> same_record (JArr l) (JArr l')
| same_obj m m' m'' :
    Forall2 (fun e e' => e.1 = e'.1 /\ same_record e.2 e'.2) m m' ->
    m' ≡ₚ m'' ->
    same_record (JObj m) (JObj m'').
Set Elimination Schemes.

Definition is_scalar (v : json) : bool :=
  match v with
  | JArr _ | JObj _ => false
  | _ => true
  end.

(** Every object, at every depth, lists its keys in strictly ascending order. *)
Fixpoint keys_sorted (v : json) : bool :=
  match v with
  | JArr items => forallb keys_sorted items
  | JObj props =>
      bool_decide (StronglySorted (fun k1 k2 : string => String.le k1 k2 /\ k1 <> k2) props.*1)
      && forallb (fun kv => keys_sorted kv.2) props
  | _ => true
  end.

(** No space character in the string. *)
Definition spaceless (s : string) : bool :=
  negb (existsb (Ascii.eqb " ") (list_ascii_of_string s)).

(** No space character in any key or string value, at every depth. *)
Fixpoint no_space (v : json) : bool :=
  match v with
  | JStr s => spaceless s
  | JArr items => forallb no_space items
  | JObj props => forallb (fun kv => spaceless kv.1 && no_space kv.2) props
  | _ => true
  end.

(** No space, tab, line feed or carriage return in the text. *)
Definition no_whitespace (s : string) : Prop :=
  Forall (fun c => is_ws c = false) (list_ascii_of_string s).

(** The string without its space characters. *)
Fixpoint despace (s : string) : string :=
  match s with
  | EmptyString => EmptyString
  | String c s' => if Ascii.eqb c " " then despace s' else String c (despace s')
  end.

(** The value with the spaces removed from its keys and strings. *)
Fixpoint despace_json (v : json) : json :=
  match v with
  | JStr s => JStr (despace s)
  | JArr items => JArr (map despace_json items)
  | JObj props => JObj (map (fun kv => (despace kv.1, despace_json kv.2)) props)
  | _ => v
  end.

(** No tab, line feed or carriage return in the text. *)
Definition no_line_whitespace (s : string) : Prop :=
  Forall (fun c => is_ws c = true -> c = " "%char) (list_ascii_of_string s).

(** ** The world state and the transaction monad *)

Inductive Thrown : Type :=
| AlreadyExists (id : string)
| NotFound (id : string)
| StoreError (name : string)
| SyntaxError
| TypeError.

(** The message of the [Error] that the handlers throw. *)
Definition message (e : Thrown) : string :=
  match e with
  | AlreadyExists id => "The asset " +:+ id +:+ " already exists"
  | NotFound id => "The asset " +:+ id +:+ " does not exist"
  | StoreError name => name
  | SyntaxError => "SyntaxError"
  | TypeError => "TypeError"
  end.

Inductive Result (A : Type) : Type :=
| Ok (a : A)
| Throw (e : Thrown).
Arguments Ok {A} a.
Arguments Throw {A} e.

(** [ctx.stub]: the world state, and the writes that the store refuses
    (with the name of the error it rejects them with).  Reads and deletes
    are always answered. *)
Record ChaincodeStub : Type := mkStub {
  states : gmap string string;
  rejects : string -> string -> option string
}.

Definition Tx (A : Type) : Type := ChaincodeStub -> Result A * ChaincodeStub.

#[global] Instance Tx_ret : MRet Tx := fun A a st => (Ok a, st).

#[global] Instance Tx_bind : MBind Tx := fun A B f m st =>
  match m st with
  | (Ok a, st') => f a st'
  | (Throw e, st') => (Throw e, st')
  end.

Definition throw {A} (e : Thrown) : Tx A := fun st => (Throw e, st).

Definition lift {A} (r : Result A) : Tx A := fun st => (r, st).

Definition getState (key : string) : Tx (option string) :=
  fun st => (Ok (states st !! key), st).

Definition putState (key value : string) : Tx unit :=
  fun st =>
    match rejects st key value with
    | Some name => (Throw (StoreError name), st)
    | None => (Ok tt, mkStub (<[key := value]> (states st)) (rejects st))
    end.

Definition deleteState (key : string) : Tx unit :=
  fun st => (Ok tt, mkStub (delete key (states st)) (rejects st)).

Definition in_range (startKey endKey key : string) : bool :=
  (String.eqb startKey EmptyString || String.leb startKey key)
  && (String.eqb endKey EmptyString || String.ltb key endKey).

(** The range query, drained: the pairs with a key in the range, in the
    order of the keys.  Empty bounds are open. *)
Definition getStateByRange (startKey endKey : string) : Tx (list (string * string)) :=
  fun st =>
    (Ok (filter (fun kv => in_range startKey endKey kv.1)
           (merge_sort key_le (map_to_list (states st)))), st).

(** ** Property access on a parsed value (strict mode)

    [asset.owner_name] and [asset.owner_name = x], for a key that is
    neither an array index nor [length]. *)
Definition get_property (v : json) (key : string) : Result (option json) :=
  match v with
  | JNull => Throw TypeError
  | JObj props => Ok (obj_get key props)
  | _ => Ok None
  end.

Definition set_property (v : json) (key : string) (x : json) : Result json :=
  match v with
  | JObj props => Ok (JObj (obj_set key x props))
  | JArr items => Ok (JArr items)
  | _ => Throw TypeError
  end.

(** ** The contract *)

(** The parameters of CreateAsset and UpdateAsset, and the fields of a seed
    record of InitLedger: four strings and a number. *)
Record Asset : Type := mkAsset {
  asset_id : string;
  game_name : string;
  owner_name : string;
  owner_type : string;
  game_value : Z
}.

(** The object literal of CreateAsset, UpdateAsset and InitLedger. *)
Definition asset_props (a : Asset) : list (string * json) :=
  [("id", JStr (asset_id a));
   ("game_name", JStr (game_name a));
   ("owner_name", JStr (owner_name a));
   ("owner_type", JStr (owner_type a));
   ("game_value", JNum (game_value a))].

(** The seed records of InitLedger. *)
Definition assets : list Asset :=
  [mkAsset "asset1" "game1" "Tomoko" "player" 300;
   mkAsset "asset2" "game2" "Brad" "player" 400;
   mkAsset "asset3" "game3" "Jin Soo" "player" 500;
   mkAsset "asset4" "game4" "Max" "player" 600;
   mkAsset "asset5" "game5" "Adriana" "player" 700;
   mkAsset "asset6" "game6" "Michel" "player" 800].

(** [for (const x of l) { await body(x); }] *)
Fixpoint for_each {A} (body : A -> Tx unit) (l : list A) : Tx unit :=
  match l with
  | [] => mret tt
  | x :: l' => _ ← body x; for_each body l'
  end.

(** The seed record as written: the literal with [docType] set. *)
Definition tagged (a : Asset) : json :=
  JObj (obj_set "docType" (JStr "asset") (asset_props a)).

(** For each seed record: set [docType], then put its canonical encoding
    under [asset.id]. *)
Definition InitLedger : Tx unit :=
  for_each (fun asset => putState (asset_id asset) (stringify (sortKeysRecursive (tagged asset))))
    assets.

(** What [assetJSON && assetJSON.length > 0] evaluates to: the left
    operand when it is falsy, which is undefined when the stub answers with
    no buffer, and the boolean on the right when there is a buffer. *)
Inductive Answer : Type :=
| undefined
| boolean (b : bool).

(** ToBoolean, which [if (exists)] and [!exists] apply to the answer. *)
Definition ToBoolean (a : Answer) : bool :=
  match a with
  | undefined => false
  | boolean b => b
  end.

(** [assetJSON && assetJSON.length > 0] *)
Definition AssetExists (id : string) : Tx Answer :=
  assetJSON ← getState id;
  mret (match assetJSON with
        | Some buf => boolean (Nat.ltb 0 (String.length buf))
        | None => undefined
        end).

(** The record is stored in canonical form; what is returned is
    [JSON.stringify(asset)] of the literal itself. *)
Definition CreateAsset (id gameName ownerName ownerType : string) (gameValue : Z) : Tx string :=
  exists_ ← AssetExists id;
  if ToBoolean exists_ then throw (AlreadyExists id)
  else
    let asset := JObj (asset_props (mkAsset id gameName ownerName ownerType gameValue)) in
    _ ← putState id (stringify (sortKeysRecursive asset));
    mret (JSON_stringify asset).

(** [!assetJSON || assetJSON.length === 0] throws; otherwise the stored
    bytes are returned as text. *)
Definition ReadAsset (id : string) : Tx string :=
  assetJSON ← getState id;
  match assetJSON with
  | None => throw (NotFound id)
  | Some buf => if Nat.eqb (String.length buf) 0 then throw (NotFound id) else mret buf
  end.

(** The result is that of [putState]. *)
Definition UpdateAsset (id gameName ownerName ownerType : string) (gameValue : Z) : Tx unit :=
  exists_ ← AssetExists id;
  if negb (ToBoolean exists_) then throw (NotFound id)
  else
    let updatedAsset := JObj (asset_props (mkAsset id gameName ownerName ownerType gameValue)) in
    putState id (stringify (sortKeysRecursive updatedAsset)).

Definition DeleteAsset (id : string) : Tx unit :=
  exists_ ← AssetExists id;
  if negb (ToBoolean exists_) then throw (NotFound id)
  else deleteState id.

(** [JSON.parse] throws a SyntaxError on text that is not JSON; reading
    [owner_name] of [null] and setting it on a number, a string or a boolean
    throw a TypeError.  The result is [JSON.stringify({ oldOwnerName })],
    which leaves out a property whose value is undefined. *)
Definition TransferAsset (id newOwnerName : string) : Tx string :=
  assetString ← ReadAsset id;
  match JSON_parse assetString with
  | None => throw SyntaxError
  | Some asset =>
      oldOwnerName ← lift (get_property asset "owner_name");
      asset' ← lift (set_property asset "owner_name" (JStr newOwnerName));
      _ ← putState id (stringify (sortKeysRecursive asset'));
      mret (JSON_stringify
              (JObj (match oldOwnerName with
                     | Some old => [("oldOwnerName", old)]
                     | None => []
                     end)))
  end.

(** The iterator of the open range query is drained; a value that
    [JSON.parse] rejects is kept as the string it is. *)
Definition GetAllAssets : Tx string :=
  results ← getStateByRange EmptyString EmptyString;
  mret (JSON_stringify
          (JArr (map (fun kv => match JSON_parse kv.2 with
                                | Some record => record
                                | None => JStr kv.2
                                end) results))).

(** ** Sequences of transactions *)

Inductive Invocation : Type :=
| InvInitLedger
| InvCreateAsset (id gameName ownerName ownerType : string) (gameValue : Z)
| InvUpdateAsset (id gameName ownerName ownerType : string) (gameValue : Z)
| InvTransferAsset (id newOwnerName : string)
| InvDeleteAsset (id : string).

(** The stub after the invocation, whether it returned or threw. *)
Definition invoke (i : Invocation) (st : ChaincodeStub) : ChaincodeStub :=
  match i with
  | InvInitLedger => (InitLedger st).2
  | InvCreateAsset id g o t v => (CreateAsset id g o t v st).2
  | InvUpdateAsset id g o t v => (UpdateAsset id g o t v st).2
  | InvTransferAsset id o => (TransferAsset id o st).2
  | InvDeleteAsset id => (DeleteAsset id st).2
  end.

Definition run (l : list Invocation) (st : ChaincodeStub) : ChaincodeStub :=
  fold_left (fun st i => invoke i st) l st.

Definition empty_stub (rejects : string -> string -> option string) : ChaincodeStub :=
  mkStub ∅ rejects.

Definition accepting : string -> string -> option string := fun _ _ => None.

(** ** Auxiliary notions for the round trip through the parser *)

(** The text starts with a digit. *)
Definition digit_ahead (k : string) : bool :=
  match k with
  | String c _ => is_digit c
  | EmptyString => false
  end.

(** The exponent that a numeral writes. *)
Definition exponent_of (e : option (bool * N)) : Z :=
  match e with
  | Some (true, x) => - Z.of_N x
  | Some (false, x) => Z.of_N x
  | None => 0
  end.

(** The first digit is not zero. *)
Definition leading (d : uint) : bool :=
  match d with
  | Nil | D0 _ => false
  | _ => true
  end.

(** The text after a numeral does not continue it. *)
Definition number_end (k : string) : bool :=
  match k with
  | EmptyString => true
  | String c _ => negb (is_digit c) && negb (starts_fraction k)
  end.

(** The text after a value inside an array or an object, or the end. *)
Definition delimited (k : string) : bool :=
  match k with
  | EmptyString => true
  | String c _ => Ascii.eqb c "," || Ascii.eqb c "]" || Ascii.eqb c "}"
  end.

Fixpoint json_size (v : json) : nat :=
  match v with
  | JArr items => S (fold_right (fun x acc => S (json_size x + acc)) 0%nat items)
  | JObj props => S (fold_right (fun kv acc => S (json_size kv.2 + acc)) 0%nat props)
  | _ => 1%nat
  end.

(** What reading back the text of [v] yields, with enough fuel. *)
Definition reads_back (v : json) : Prop :=
  forall n k, (json_size v <= n)%nat -> delimited k = true ->
    parse_value n (write_value v k) = Some (normalize v, k).

(** ** Notions used to state the properties of the handlers *)

(** A non-empty value is stored under [id]. *)
Definition present (st : ChaincodeStub) (id : string) : Prop :=
  exists buf, states st !! id = Some buf /\ buf <> EmptyString.

(** The record that an invocation passes, encoded, to [putState] under [key]. *)
Definition writes (i : Invocation) (st : ChaincodeStub) (key : string) (record : json) : Prop :=
  match i with
  | InvInitLedger => exists a, a ∈ assets /\ key = asset_id a /\ record = tagged a
  | InvCreateAsset id g o t v | InvUpdateAsset id g o t v =>
      key = id /\ record = JObj (asset_props (mkAsset id g o t v))
  | InvTransferAsset id o =>
      key = id /\
      exists buf asset,
        states st !! id = Some buf /\ JSON_parse buf = Some asset /\
        set_property asset "owner_name" (JStr o) = Ok record
  | InvDeleteAsset _ => False
  end.

(** The stub with one more value stored. *)
Definition stored (key value : string) (st : ChaincodeStub) : ChaincodeStub :=
  mkStub (<[key := value]> (states st)) (rejects st).

(** The key under which the record is stored is its [id]. *)
Definition id_matches_key (key value : string) : Prop :=
  exists props, JSON_parse value = Some (JObj props) /\ obj_get "id" props = Some (JStr key).

(** The stub after the writes of the given seed records. *)
Definition seeded (l : list Asset) (st : ChaincodeStub) : ChaincodeStub :=
  fold_left (fun st a => stored (asset_id a) (encode (tagged a)) st) l st.

(** The pairs of the world state in the order of the range query. *)
Definition scan (st : ChaincodeStub) : list (string * string) :=
  merge_sort key_le (map_to_list (states st)).

(** Every stored value that is JSON decodes to a value that JavaScript
    holds as it is. *)
Definition exact_store (st : ChaincodeStub) : Prop :=
  forall key buf record,
    states st !! key = Some buf -> JSON_parse buf = Some record -> exact record = true.

(** The stub after CreateAsset for each of the given records, in turn. *)
Definition create_all (l : list Asset) (st : ChaincodeStub) : ChaincodeStub :=
  fold_left (fun st a =>
    (CreateAsset (asset_id a) (game_name a) (owner_name a) (owner_type a) (game_value a) st).2)
    l st.

(** ** Notions used to state further properties of the handlers *)

(** The asset with another owner. *)
Definition with_owner (a : Asset) (newOwnerName : string) : Asset :=
  mkAsset (asset_id a) (game_name a) newOwnerName (owner_type a) (game_value a).

(** The record of an asset as the handlers build it: the literal of
    CreateAsset and UpdateAsset, or the literal of InitLedger with its
    [docType]. *)
Definition record_of (tag : bool) (a : Asset) : json :=
  if tag then tagged a else JObj (asset_props a).

(** The properties of a stored asset record, in the order of its bytes. *)
Definition stored_props (tag : bool) (a : Asset) : list (string * json) :=
  ((if tag then [("docType", JStr "asset")] else []) ++
   [("game_name", JStr (game_name a));
    ("game_value", JNum (game_value a));
    ("id", JStr (asset_id a));
    ("owner_name", JStr (owner_name a));
    ("owner_type", JStr (owner_type a))])%list.

(** The keys that an invocation may write or delete: its id, or the ids of
    the seed records. *)
Definition touches (i : Invocation) (key : string) : Prop :=
  match i with
  | InvInitLedger => key ∈ asset_id <$> assets
  | InvCreateAsset id _ _ _ _ | InvUpdateAsset id _ _ _ _
  | InvTransferAsset id _ | InvDeleteAsset id => key = id
  end.

(** The entry of GetAllAssets for a stored pair. *)
Definition entry_of (kv : string * string) : json :=
  match JSON_parse kv.2 with
  | Some record => record
  | None => JStr kv.2
  end.

(** ** The store of the test suite

    The tests replace the four store calls of [ctx.stub] by functions over
    [chaincodeStub.states]: a field that is undefined until the first write
    and then holds an object from keys to the values written.  The object
    is the list of its own properties in enumeration order: array-index keys
    first, in ascending numeric order, then the other keys in creation
    order. *)

Inductive StatesField : Type :=
| NoStates
| StatesObject (props : list (string * string)).

(** The names of the properties of [Object.prototype], which the object
    inherits. *)
Definition Object_prototype_keys : list string :=
  ["constructor"; "__defineGetter__"; "__defineSetter__"; "hasOwnProperty";
   "__lookupGetter__"; "__lookupSetter__"; "isPrototypeOf"; "propertyIsEnumerable";
   "toString"; "valueOf"; "__proto__"; "toLocaleString"].

(** What [states[key]] evaluates to: the value of an own property, a
    property of [Object.prototype], or undefined. *)
Inductive Fetched : Type :=
| Own (value : string)
| Inherited
| Undefined.

Fixpoint own_get (key : string) (props : list (string * string)) : option string :=
  match props with
  | [] => None
  | (k, v) :: props' => if String.eqb key k then Some v else own_get key props'
  end.

Fixpoint own_replace (key value : string) (props : list (string * string)) :
    list (string * string) :=
  match props with
  | [] => []
  | (k, w) :: props' =>
      if String.eqb key k then (k, value) :: props' else (k, w) :: own_replace key value props'
  end.

Fixpoint own_insert_index (n : N) (key value : string) (props : list (string * string)) :
    list (string * string) :=
  match props with
  | [] => [(key, value)]
  | (k, w) :: props' =>
      match array_index k with
      | Some m => if (m <? n)%N then (k, w) :: own_insert_index n key value props'
                  else (key, value) :: props
      | None => (key, value) :: props
      end
  end.

(** [states[key] = value], for a key other than [__proto__]: an existing
    property keeps its place, a new one takes the place that the
    enumeration order gives it. *)
Definition own_set (key value : string) (props : list (string * string)) :
    list (string * string) :=
  match own_get key props with
  | Some _ => own_replace key value props
  | None =>
      match array_index key with
      | Some n => own_insert_index n key value props
      | None => (props ++ [(key, value)])%list
      end
  end.

(** [delete states[key]] *)
Fixpoint own_delete (key : string) (props : list (string * string)) : list (string * string) :=
  match props with
  | [] => []
  | (k, w) :: props' => if String.eqb key k then props' else (k, w) :: own_delete key props'
  end.

(** The fake of putState creates the object if there is none and assigns
    the property.  An assignment to [__proto__] would reach the accessor of
    [Object.prototype] instead of creating a property; the model stops
    there. *)
Definition fake_putState (key value : string) (field : StatesField) : option StatesField :=
  if String.eqb key "__proto__" then None
  else
    Some (StatesObject (own_set key value
                          match field with
                          | NoStates => []
                          | StatesObject props => props
                          end)).

(** The fake of getState: [ret] stays undefined when there is no object;
    otherwise it is [states[key]], which falls back on [Object.prototype]
    for a key that is not an own property. *)
Definition fake_getState (key : string) (field : StatesField) : Fetched :=
  match field with
  | NoStates => Undefined
  | StatesObject props =>
      match own_get key props with
      | Some value => Own value
      | None => if bool_decide (key ∈ Object_prototype_keys) then Inherited else Undefined
      end
  end.

(** The fake of deleteState deletes the property, if there is an object,
    and resolves to the key. *)
Definition fake_deleteState (key : string) (field : StatesField) : string * StatesField :=
  (key,
   match field with
   | NoStates => NoStates
   | StatesObject props => StatesObject (own_delete key props)
   end).

(** The generator of the fake of getStateByRange, drained: for each key of
    a copy of the object, in enumeration order, an entry that holds the
    value alone. *)
Definition internalGetStateByRange (field : StatesField) : list string :=
  match field with
  | NoStates => []
  | StatesObject props => props.*2
  end.

(** The fake of getStateByRange takes no argument: the bounds that the
    contract passes are ignored. *)
Definition fake_getStateByRange (startKey endKey : string) (field : StatesField) :
    list string :=
  internalGetStateByRange field.

(** A write or a delete, as a test issues them through the contract. *)
Inductive StoreCall : Type :=
| CallPut (key value : string)
| CallDelete (key : string).

Definition fake_call (c : StoreCall) (field : StatesField) : option StatesField :=
  match c with
  | CallPut key value => fake_putState key value field
  | CallDelete key => Some (fake_deleteState key field).2
  end.

Fixpoint fake_calls (l : list StoreCall) (field : StatesField) : option StatesField :=
  match l with
  | [] => Some field
  | c :: l' =>
      match fake_call c field with
      | Some field' => fake_calls l' field'
      | None => None
      end
  end.

(** The same calls on the world state. *)
Definition stub_call (c : StoreCall) : Tx unit :=
  match c with
  | CallPut key value => putState key value
  | CallDelete key => deleteState key
  end.

(** The world state that the field stands for. *)
Definition world_of (field : StatesField) : gmap string string :=
  match field with
  | NoStates => ∅
  | StatesObject props => list_to_map props
  end.

(** The own properties of the field have pairwise distinct keys. *)
Definition field_wf (field : StatesField) : Prop :=
  match field with
  | NoStates => True
  | StatesObject props => NoDup props.*1
  end.

(** A call that the model of the test store covers. *)
Definition covered (c : StoreCall) : Prop :=
  match c with
  | CallPut key _ => key <> "__proto__"
  | CallDelete _ => True
  end.

(** ** Sample data for the examples *)

(** A record with nested objects, an array and array-index keys, its fields
    in no particular order. *)
Definition nested_example : json :=
  JObj [("owner", JObj [("name", JStr "Jin Soo"); ("kind", JStr "player")]);
        ("10", JNum 7); ("9", JArr [JNum 2; JNum 1; JObj [("b", JNull); ("a", JBool true)]]);
        ("id", JStr "asset3")].

(** An asset record whose game value has decimals: 1.5. *)
Definition decimal_example : json :=
  JObj [("game_name", JStr "Chess"); ("game_value", JDec 15 1); ("id", JStr "asset1");
        ("owner_name", JStr "Robert"); ("owner_type", JStr "player")].

(** A store that refuses every write under asset4. *)
Definition refuses_asset4 : string -> string -> option string :=
  fun key _ => if String.eqb key "asset4" then Some "failed inserting key" else None.

(** A store that refuses every write. *)
Definition refusing : string -> string -> option string :=
  fun _ _ => Some "failed inserting key".

(** * Properties *)

(** ** Numerals *)

Lemma read_digits_write_uint_ahead d k :
  digit_ahead k = false -> read_digits (write_uint d k) = (d, k).
Proof.
  intros Hk. induction d; simpl; rewrite ?IHd; try reflexivity.
  destruct k as [|c k']; [reflexivity|].
  simpl in *. by rewrite Hk.
Qed.

Lemma number_end_ahead k : number_end k = true -> digit_ahead k = false.
Proof.
  destruct k as [|c k]; [done|]. simpl. intros [H _]%andb_true_iff.
  by apply negb_true_iff in H.
Qed.

Lemma number_end_fraction k : number_end k = true -> starts_fraction k = false.
Proof.
  destruct k as [|c k]; [done|]. simpl. intros [_ H]%andb_true_iff.
  by apply negb_true_iff in H.
Qed.

Lemma read_digits_write_uint d k :
  number_end k = true -> read_digits (write_uint d k) = (d, k).
Proof. intros Hk. by apply read_digits_write_uint_ahead, number_end_ahead. Qed.

Lemma nzhead_canonical d : nzhead d = Nil \/ canonical_uint (nzhead d) = true.
Proof. induction d; simpl; auto. Qed.

Lemma canonical_to_uint p : canonical_uint (Pos.to_uint p) = true.
Proof.
  assert (H : Pos.to_uint p = unorm (Pos.to_uint p)).
  { change (Pos.to_uint p) with (N.to_uint (N.pos p)).
    rewrite <- (DecimalN.Unsigned.to_of (N.to_uint (N.pos p))).
    by rewrite DecimalN.Unsigned.of_to. }
  rewrite H. unfold unorm.
  destruct (nzhead_canonical (Pos.to_uint p)) as [-> | Hc]; [reflexivity|].
  destruct (nzhead (Pos.to_uint p)); done.
Qed.

Lemma of_uint_to_uint p : N.of_uint (Pos.to_uint p) = N.pos p.
Proof.
  change (Pos.to_uint p) with (N.to_uint (N.pos p)). apply DecimalN.Unsigned.of_to.
Qed.

Lemma leading_to_uint p : leading (Pos.to_uint p) = true.
Proof.
  pose proof (canonical_to_uint p) as Hc. pose proof (of_uint_to_uint p) as Hp.
  destruct (Pos.to_uint p) as [|d|d|d|d|d|d|d|d|d|d]; try done.
  destruct d; try done.
Qed.

Lemma digits_app_take_drop n d : digits_app (take_digits n d) (drop_digits n d) = d.
Proof.
  revert d. induction n as [|n IH]; intros d; [done|].
  destruct d; simpl; by rewrite ?IH.
Qed.

Lemma nb_digits_drop n d : nb_digits (drop_digits n d) = (nb_digits d - n)%nat.
Proof.
  revert d. induction n as [|n IH]; intros d; [simpl; lia|].
  destruct d; simpl; by rewrite ?IH.
Qed.

Lemma nb_digits_app d d' : nb_digits (digits_app d d') = (nb_digits d + nb_digits d')%nat.
Proof. induction d; simpl; by rewrite ?IHd. Qed.

Lemma nb_digits_zeros n : nb_digits (zeros n) = n.
Proof. induction n as [|n IH]; simpl; by rewrite ?IH. Qed.

Lemma of_uint_zeros n d : N.of_uint (digits_app (zeros n) d) = N.of_uint d.
Proof. induction n as [|n IH]; [done|]. exact IH. Qed.

Lemma canonical_take n d :
  leading d = true -> canonical_uint (take_digits (S n) d) = true.
Proof. destruct d; done. Qed.

Lemma to_uint_not_Nil x : N.to_uint x <> Nil.
Proof.
  destruct x as [|p]; [done|]. apply DecimalPos.Unsigned.to_uint_nonnil.
Qed.

(** The reader on a numeral as written. *)
Lemma read_unsigned_write_numeral negative i f e k :
  canonical_uint i = true -> number_end k = true ->
  read_unsigned negative (write_numeral (i, f, e) k) =
    Some (decimal negative (digits_app i f) (nb_digits f) (exponent_of e), k).
Proof.
  intros Hi Hk. unfold read_unsigned, write_numeral.
  set (k' := match e with
             | Some (neg, x) => String "e" (String (if neg : bool then "-" else "+")
                                                (write_uint (N.to_uint x) k))
             | None => k
             end).
  assert (Hd : digit_ahead k' = false).
  { subst k'. destruct e as [[neg x]|]; [done|]. by apply number_end_ahead. }
  assert (He : read_exponent k' = Some (exponent_of e, k)).
  { subst k'. destruct e as [[neg x]|].
    - pose proof (to_uint_not_Nil x) as Hx.
      unfold read_exponent, read_exponent_digits.
      destruct neg; cbn [Ascii.eqb Bool.eqb orb];
        rewrite read_digits_write_uint by done;
        destruct (N.to_uint x) eqn:Ex; try done;
        rewrite <- Ex, DecimalN.Unsigned.of_to; reflexivity.
    - unfold read_exponent. destruct k as [|c k]; [done|].
      pose proof (number_end_fraction _ Hk) as Hf. simpl in Hf.
      apply orb_false_iff in Hf as [[_ H1]%orb_false_iff H2]. rewrite H1, H2. done. }
  assert (Hp : forall c r, k' = String c r -> Ascii.eqb c "." = false).
  { intros c r Heq. subst k'. destruct e as [[neg x]|]; [by inversion Heq|].
    subst k. pose proof (number_end_fraction _ Hk) as Hf. simpl in Hf.
    by apply orb_false_iff in Hf as [[Hf _]%orb_false_iff _]. }
  clearbody k'.
  destruct (uint_eq_dec f Nil) as [->|Hf].
  - rewrite read_digits_write_uint_ahead, Hi by done.
    unfold read_fraction. destruct k' as [|c r]; [by rewrite He|].
    rewrite (Hp c r eq_refl). by rewrite He.
  - assert (write_uint i (match f with Nil => k' | _ => String "." (write_uint f k') end)
            = write_uint i (String "." (write_uint f k'))) as -> by by destruct f.
    rewrite read_digits_write_uint_ahead, Hi by done.
    unfold read_fraction. cbn [Ascii.eqb Bool.eqb].
    rewrite read_digits_write_uint_ahead by done.
    destruct f; try done; by rewrite He.
Qed.

(** ** Numbers with decimals *)

Lemma reduce_canonical k : forall m m' k',
  reduce k m = (m', S k') -> canonical_dec m' (S k') = true.
Proof.
  induction k as [|k IH]; intros m m' k'; simpl; [done|].
  destruct (m mod 10 =? 0) eqn:Hm; [apply IH|].
  intros [= <- <-]. unfold canonical_dec. by rewrite Hm.
Qed.

Lemma reduce_fixed m k : canonical_dec m k = true -> reduce k m = (m, k).
Proof.
  unfold canonical_dec. intros [Hk Hm]%andb_true_iff.
  destruct k as [|k]; [done|]. simpl. apply negb_true_iff in Hm. by rewrite Hm.
Qed.

Lemma number_canonical m k : canonical_dec m k = true -> number m k = JDec m k.
Proof.
  intros H. unfold number. rewrite reduce_fixed by done.
  destruct k; [done|reflexivity].
Qed.

Lemma number_cases m k :
  (exists n, reduce k m = (n, O) /\ number m k = JNum n) \/
  (exists m' k', reduce k m = (m', S k') /\ number m k = JDec m' (S k') /\
     canonical_dec m' (S k') = true).
Proof.
  unfold number. destruct (reduce k m) as [m' [|k']] eqn:Hr; [left; eauto|].
  right. exists m', k'. split_and!; [done..|]. by eapply reduce_canonical.
Qed.

Lemma wf_number m k : wf_json (number m k) = true.
Proof.
  destruct (number_cases m k) as [(n & _ & ->)|(m' & k' & _ & -> & H)]; done.
Qed.

Lemma notation_spec p k :
  (0 < k)%nat ->
  exists i f e, notation (Pos.to_uint p) k = (i, f, e) /\
    canonical_uint i = true /\
    N.of_uint (digits_app i f) = N.pos p /\
    Z.of_nat (nb_digits f) - exponent_of e = Z.of_nat k.
Proof.
  intros Hk. pose proof (leading_to_uint p) as Hl. pose proof (of_uint_to_uint p) as Hp.
  unfold notation. set (d := Pos.to_uint p) in *. set (j := nb_digits d).
  assert (Hj : (0 < j)%nat) by (subst j; destruct d; simpl; done || lia).
  destruct (k <? j)%nat eqn:Hkj; [apply Nat.ltb_lt in Hkj|apply Nat.ltb_ge in Hkj].
  - destruct (j - k <=? 21)%nat eqn:H21; do 3 eexists; (split; [reflexivity|]).
    + split_and!.
      * destruct (j - k)%nat as [|n] eqn:E; [lia|]. by apply canonical_take.
      * by rewrite digits_app_take_drop.
      * rewrite nb_digits_drop. fold j. simpl. lia.
    + split_and!.
      * by apply canonical_take.
      * by rewrite digits_app_take_drop.
      * rewrite nb_digits_drop. fold j. simpl. lia.
  - destruct (k - j <? 6)%nat eqn:H6; do 3 eexists; (split; [reflexivity|]).
    + split_and!; [done| |].
      * change (digits_app (D0 Nil) ?x) with (D0 x).
        change (N.of_uint (D0 ?x)) with (N.of_uint x). by rewrite of_uint_zeros.
      * rewrite nb_digits_app, nb_digits_zeros. fold j. simpl. lia.
    + split_and!.
      * by apply canonical_take.
      * by rewrite digits_app_take_drop.
      * rewrite nb_digits_drop. fold j. simpl. lia.
Qed.

(** The first character of a numeral. *)
Lemma write_uint_digit d k :
  d <> Nil -> exists c r, write_uint d k = String c r /\ is_digit c = true.
Proof. destruct d; [done|..]; simpl; eauto. Qed.

Lemma canonical_not_Nil i : canonical_uint i = true -> i <> Nil.
Proof. by destruct i. Qed.

Lemma strip_zeros_spec fuel :
  forall n, 0 < n ->
    n = (strip_zeros fuel n).1 * 10 ^ Z.of_nat (strip_zeros fuel n).2 /\
    0 < (strip_zeros fuel n).1.
Proof.
  induction fuel as [|fuel IH]; intros n Hn; simpl; [lia|].
  destruct ((n mod 10 =? 0) && negb (n =? 0)) eqn:E; [|simpl; lia].
  apply andb_true_iff in E as [E _]. apply Z.eqb_eq in E.
  pose proof (Z.div_mod n 10 ltac:(lia)) as Hdiv.
  destruct (IH (n / 10) ltac:(lia)) as [Heq Hpos].
  destruct (strip_zeros fuel (n / 10)) as [n' z]. simpl in *.
  split; [|done]. rewrite Nat2Z.inj_succ, Z.pow_succ_r by lia. lia.
Qed.

Lemma nb_digits_leading d : leading d = true -> (0 < nb_digits d)%nat.
Proof. destruct d; simpl; done || lia. Qed.

Lemma digits_app_Nil d : digits_app d Nil = d.
Proof. induction d; simpl; by rewrite ?IHd. Qed.

Lemma read_unsigned_write_natural (negative : bool) p k :
  number_end k = true ->
  read_unsigned negative (write_natural p k)
  = Some (JNum (if negative then Z.neg p else Z.pos p), k).
Proof.
  intros Hk. unfold write_natural. destruct (Z.pos p <? 10 ^ 21).
  - pose proof (read_unsigned_write_numeral negative (Pos.to_uint p) Nil None k
                  (canonical_to_uint p) Hk) as H.
    cbn [write_numeral] in H. rewrite H. unfold decimal.
    rewrite digits_app_Nil, of_uint_to_uint. simpl.
    change (10 ^ (0 - Z.of_nat 0)) with 1.
    destruct negative; do 3 f_equal; lia.
  - destruct (strip_zeros_spec (nb_digits (Pos.to_uint p)) (Z.pos p) ltac:(lia))
      as [Heq Hpos].
    destruct (strip_zeros (nb_digits (Pos.to_uint p)) (Z.pos p)) as [n z].
    cbn [fst snd] in Heq, Hpos. cbv zeta.
    set (d := Pos.to_uint (Z.to_pos n)).
    pose proof (leading_to_uint (Z.to_pos n)) as Hl. fold d in Hl.
    pose proof (nb_digits_leading d Hl) as Hj.
    rewrite read_unsigned_write_numeral by (by apply canonical_take || done).
    unfold decimal. rewrite digits_app_take_drop, nb_digits_drop.
    subst d. rewrite of_uint_to_uint. cbn [exponent_of].
    set (j := nb_digits (Pos.to_uint (Z.to_pos n))) in *.
    assert ((Z.of_nat (j - 1) <=? Z.of_N (N.of_nat (j + z - 1))) = true) as ->
      by (apply Z.leb_le; lia).
    replace (Z.of_N (N.of_nat (j + z - 1)) - Z.of_nat (j - 1)) with (Z.of_nat z) by lia.
    replace (Z.of_N (N.pos (Z.to_pos n))) with n by (rewrite N2Z.inj_pos, Z2Pos.id; lia).
    destruct negative; do 3 f_equal; lia.
Qed.

Lemma read_number_write_number n k :
  number_end k = true -> read_number (write_number n k) = Some (JNum n, k).
Proof.
  intros Hk. destruct n as [|p|p]; simpl.
  - pose proof (read_unsigned_write_numeral false (D0 Nil) Nil None k eq_refl Hk) as H.
    exact H.
  - pose proof (read_unsigned_write_natural false p k Hk) as Hu.
    assert (exists c r, write_natural p k = String c r /\ is_digit c = true)
      as (c & r & Heq & Hc).
    { unfold write_natural. destruct (Z.pos p <? 10 ^ 21).
      - apply write_uint_digit, DecimalPos.Unsigned.to_uint_nonnil.
      - destruct (strip_zeros _ _) as [n z]. cbv zeta.
        apply write_uint_digit, canonical_not_Nil, canonical_take, leading_to_uint. }
    rewrite Heq in *. cbn [read_number].
    destruct c as [[|] [|] [|] [|] [|] [|] [|] [|]]; try discriminate; exact Hu.
  - apply (read_unsigned_write_natural true p k Hk).
Qed.

Lemma read_number_write_fraction m k rest :
  canonical_dec m k = true -> number_end rest = true ->
  read_number (write_fraction m k rest) = Some (JDec m k, rest).
Proof.
  intros Hc Hk.
  assert (Hpos : (0 < k)%nat).
  { unfold canonical_dec in Hc. apply andb_true_iff in Hc as [Hc _].
    destruct k; [done|lia]. }
  assert (Hu : forall (negative : bool) p,
    canonical_dec (if negative then Z.neg p else Z.pos p) k = true ->
    read_unsigned negative (write_numeral (notation (Pos.to_uint p) k) rest)
    = Some (JDec (if negative then Z.neg p else Z.pos p) k, rest)).
  { intros negative p Hcp.
    destruct (notation_spec p k Hpos) as (i & f & e & -> & Hi & Hv & He).
    rewrite read_unsigned_write_numeral by done. unfold decimal. rewrite Hv.
    assert ((Z.of_nat (nb_digits f) <=? exponent_of e) = false) as -> by lia.
    replace (Z.to_nat (Z.of_nat (nb_digits f) - exponent_of e)) with k by lia.
    rewrite <- (number_canonical _ _ Hcp). by destruct negative. }
  destruct m as [|p|p]; simpl.
  - unfold canonical_dec in Hc. by rewrite andb_false_r in Hc.
  - specialize (Hu false p Hc). cbn [read_number].
    destruct (notation_spec p k Hpos) as (i & f & e & Hn & Hi & _).
    rewrite Hn in *. unfold write_numeral in *.
    destruct i as [|d|d|d|d|d|d|d|d|d|d]; try done.
  - apply (Hu true p Hc).
Qed.

Lemma read_number_write_decimal m k rest :
  number_end rest = true ->
  read_number (write_decimal m k rest) = Some (number m k, rest).
Proof.
  intros Hk. unfold write_decimal.
  destruct (number_cases m k) as [(n & -> & ->)|(m' & k' & -> & -> & Hc)].
  - by apply read_number_write_number.
  - by apply read_number_write_fraction.
Qed.

Example JSON_parse_numerals :
  JSON_parse "[1.5,1e2,-25e-1,1.50,0.0000001,-0.0]"
  = Some (JArr [JDec 15 1; JNum 100; JDec (-25) 1; JDec 15 1; JDec 1 7; JNum 0]) /\
  JSON_stringify (JArr [JDec 15 1; JNum 100; JDec (-25) 1; JDec 15 1; JDec 1 7; JNum 0])
  = "[1.5,100,-2.5,1.5,1e-7,0]" /\
  JSON_parse "1." = None /\ JSON_parse ".5" = None /\ JSON_parse "01" = None /\
  JSON_parse "1e" = None /\ JSON_parse "+1" = None.
Proof. split_and!; vm_compute; reflexivity. Qed.

Lemma write_uint_head p k :
  exists c r, write_uint (Pos.to_uint p) k = String c r /\ is_digit c = true.
Proof. apply write_uint_digit, DecimalPos.Unsigned.to_uint_nonnil. Qed.

Lemma write_numeral_head i f e k :
  canonical_uint i = true ->
  exists c r, write_numeral (i, f, e) k = String c r /\ is_digit c = true.
Proof. intros Hi. by apply write_uint_digit, canonical_not_Nil. Qed.

Lemma write_natural_head p k :
  exists c r, write_natural p k = String c r /\ is_digit c = true.
Proof.
  unfold write_natural. destruct (Z.pos p <? 10 ^ 21).
  - apply write_uint_head.
  - destruct (strip_zeros _ _) as [n z]. cbv zeta.
    apply write_uint_digit, canonical_not_Nil, canonical_take, leading_to_uint.
Qed.

Lemma write_number_head n k :
  exists c r, write_number n k = String c r /\
    (is_digit c = true \/ c = "-"%char).
Proof.
  destruct n as [|p|p]; simpl; eauto.
  destruct (write_natural_head p k) as (c & r & -> & Hc); eauto.
Qed.

Lemma write_fraction_head m k rest :
  (0 < k)%nat ->
  exists c r, write_fraction m k rest = String c r /\
    (is_digit c = true \/ c = "-"%char).
Proof.
  intros Hk. destruct m as [|p|p]; simpl; eauto.
  destruct (notation_spec p k Hk) as (i & f & e & -> & Hi & _).
  destruct (write_numeral_head i f e rest Hi) as (c & r & -> & Hc); eauto.
Qed.

Lemma write_decimal_head m k rest :
  exists c r, write_decimal m k rest = String c r /\
    (is_digit c = true \/ c = "-"%char).
Proof.
  unfold write_decimal. destruct (reduce k m) as [m' [|k']].
  - apply write_number_head.
  - apply write_fraction_head. lia.
Qed.

(** ** String literals *)

Lemma read_chars_write_char c r :
  read_chars (write_char c r) = prefixed (String c EmptyString) (read_chars r).
Proof.
  destruct c as [[|] [|] [|] [|] [|] [|] [|] [|]]; reflexivity.
Qed.

Lemma read_chars_write_chars s k :
  read_chars (write_chars s (String DQUOTE k)) = Some (s, k).
Proof.
  induction s as [|c s IH]; [reflexivity|].
  simpl. rewrite read_chars_write_char, IH. reflexivity.
Qed.

(** ** Values *)

Lemma delimited_number_end k : delimited k = true -> number_end k = true.
Proof.
  destruct k as [|c k]; [done|]. simpl. intros H.
  apply orb_true_iff in H as [H|H]; [apply orb_true_iff in H as [H|H]|];
    apply Ascii.eqb_eq in H; subst; reflexivity.
Qed.

Lemma parse_value_number n c r :
  is_digit c = true \/ c = "-"%char ->
  parse_value (S n) (String c r) = read_number (String c r).
Proof.
  intros [H | ->]; [|reflexivity].
  destruct c as [[|] [|] [|] [|] [|] [|] [|] [|]]; try discriminate; reflexivity.
Qed.

Lemma write_value_head v k :
  exists c r, write_value v k = String c r /\
    is_ws c = false /\ Ascii.eqb c "]" = false /\ Ascii.eqb c "}" = false.
Proof.
  assert (Hnum : forall c, is_digit c = true \/ c = "-"%char ->
    is_ws c = false /\ Ascii.eqb c "]" = false /\ Ascii.eqb c "}" = false).
  { intros c [Hc | ->]; [|done].
    destruct c as [[|] [|] [|] [|] [|] [|] [|] [|]]; try discriminate; done. }
  destruct v as [|[|]|n|m d|s|items|props]; try (do 2 eexists; split; [reflexivity|done]).
  - destruct (write_number_head n k) as (c & r & Heq & Hc). exists c, r. auto.
  - destruct (write_decimal_head m d k) as (c & r & Heq & Hc). exists c, r. auto.
Qed.

Lemma skip_ws_write_value v k : skip_ws (write_value v k) = write_value v k.
Proof.
  destruct (write_value_head v k) as (c & r & -> & Hws & _). simpl. by rewrite Hws.
Qed.

Lemma parse_elements_write items :
  Forall reads_back items ->
  forall x n k, reads_back x ->
    (S (json_size x) + fold_right (fun y acc => S (json_size y + acc)) 0 items <= n)%nat ->
    parse_elements n
      (write_value x (fold_right (fun y acc => String "," (write_value y acc))
                        (String "]" k) items))
    = Some (normalize x :: map normalize items, k).
Proof.
  induction 1 as [|y items Hy _ IH]; intros x n k Hx Hn.
  - destruct n as [|n]; [lia|]. simpl in *.
    rewrite Hx by (done || lia). reflexivity.
  - destruct n as [|n]; [lia|]. simpl in *.
    rewrite Hx by (done || lia). simpl.
    rewrite IH by (done || lia). reflexivity.
Qed.

Lemma parse_members_step n key r :
  parse_members (S n) (write_string key (String ":" r)) =
    match parse_value n r with
    | Some (v, r3) =>
        match skip_ws r3 with
        | String c' r4 =>
            if Ascii.eqb c' "," then
              match parse_members n r4 with
              | Some (entries, r5) => Some ((key, v) :: entries, r5)
              | None => None
              end
            else if Ascii.eqb c' "}" then Some ([(key, v)], r4)
            else None
        | EmptyString => None
        end
    | None => None
    end.
Proof.
  unfold write_string. cbn [parse_members skip_ws is_ws DQUOTE Ascii.eqb Bool.eqb].
  rewrite read_chars_write_chars. reflexivity.
Qed.

Lemma parse_members_write props :
  Forall (fun kv => reads_back kv.2) props ->
  forall key v n k, reads_back v ->
    (S (json_size v) + fold_right (fun kv acc => S (json_size kv.2 + acc)) 0 props <= n)%nat ->
    parse_members n
      (write_string key (String ":" (write_value v
         (fold_right (fun kv acc =>
            String "," (write_string kv.1 (String ":" (write_value kv.2 acc))))
            (String "}" k) props))))
    = Some ((key, normalize v) :: map (fun kv => (kv.1, normalize kv.2)) props, k).
Proof.
  induction 1 as [|[key' v'] props Hy _ IH]; intros key v n k Hv Hn;
    (destruct n as [|n]; [lia|]); rewrite parse_members_step.
  - cbn [fold_right]. rewrite Hv by (done || simpl in Hn; lia). reflexivity.
  - cbn [fold_right fst snd] in *. rewrite Hv by (done || lia).
    cbn [skip_ws is_ws Ascii.eqb Bool.eqb].
    rewrite IH by (done || lia). reflexivity.
Qed.

Lemma parse_write_value v : reads_back v.
Proof.
  induction v as [|b|z|z d|s|items IH|props IH] using json_induction; intros n k Hn Hk;
    (destruct n as [|n]; [simpl in Hn; lia|]).
  - reflexivity.
  - destruct b; reflexivity.
  - destruct (write_number_head z k) as (c & r & Heq & Hc).
    change (write_value (JNum z) k) with (write_number z k).
    rewrite Heq, parse_value_number by done.
    rewrite <- Heq, read_number_write_number by by apply delimited_number_end.
    reflexivity.
  - destruct (write_decimal_head z d k) as (c & r & Heq & Hc).
    change (write_value (JDec z d) k) with (write_decimal z d k).
    rewrite Heq, parse_value_number by done.
    rewrite <- Heq, read_number_write_decimal by by apply delimited_number_end.
    reflexivity.
  - simpl. rewrite read_chars_write_chars. reflexivity.
  - destruct items as [|x items]; [reflexivity|].
    apply Forall_cons in IH as [Hx IH].
    cbn [write_value write_seq].
    destruct (write_value_head x
      (fold_right (fun y acc => String "," (write_value y acc)) (String "]" k) items))
      as (c & r & Heq & Hws & Hc & _).
    cbn [parse_value]. cbn [skip_ws is_ws Ascii.eqb Bool.eqb].
    rewrite Heq.
    cbn [skip_ws]. rewrite Hws, Hc. rewrite <- Heq.
    rewrite parse_elements_write; [reflexivity|done..|simpl in *; lia].
  - destruct props as [|[key x] props]; [reflexivity|].
    apply Forall_cons in IH as [Hx IH]. simpl in Hx.
    cbn [write_value write_seq].
    cbn [parse_value]. cbn [skip_ws is_ws Ascii.eqb Bool.eqb].
    cbn [fst snd].
    rewrite (parse_members_write props IH key x n k Hx) by (simpl in *; lia).
    reflexivity.
Qed.

(** ** The fuel of [JSON_parse] suffices for the text of a value *)

Lemma length_write_char c k : (S (String.length k) <= String.length (write_char c k))%nat.
Proof. unfold write_char. repeat case_match; simpl; lia. Qed.

Lemma length_write_chars s k : (String.length k <= String.length (write_chars s k))%nat.
Proof.
  induction s as [|c s IH]; simpl; [lia|].
  pose proof (length_write_char c (write_chars s k)). lia.
Qed.

Lemma length_write_string s k :
  (2 + String.length k <= String.length (write_string s k))%nat.
Proof.
  unfold write_string. simpl.
  pose proof (length_write_chars s (String DQUOTE k)). simpl in *. lia.
Qed.

Lemma length_write_uint d k : (String.length k <= String.length (write_uint d k))%nat.
Proof. induction d; simpl; lia. Qed.

Lemma length_write_uint_digit d k :
  d <> Nil -> (S (String.length k) <= String.length (write_uint d k))%nat.
Proof.
  destruct d as [|d|d|d|d|d|d|d|d|d|d]; [done|..]; intros _; simpl;
    pose proof (length_write_uint d k); lia.
Qed.

Lemma length_write_numeral i f e k :
  canonical_uint i = true ->
  (S (String.length k) <= String.length (write_numeral (i, f, e) k))%nat.
Proof.
  intros Hi%canonical_not_Nil. unfold write_numeral.
  set (k' := match e with Some _ => _ | None => _ end).
  assert (String.length k <= String.length k')%nat as Hk'.
  { subst k'. destruct e as [[negative x]|]; [|done]. simpl.
    pose proof (length_write_uint (N.to_uint x) k). lia. }
  match goal with |- context [write_uint i ?X] =>
    pose proof (length_write_uint_digit i X Hi) as H1;
    assert (String.length k' <= String.length X)%nat as H2 end.
  { destruct f; simpl; try lia;
      match goal with |- context [write_uint ?d k'] =>
        pose proof (length_write_uint d k') end; lia. }
  lia.
Qed.

Lemma length_write_number n k :
  (S (String.length k) <= String.length (write_number n k))%nat.
Proof.
  assert (Hp : forall p, (S (String.length k) <= String.length (write_natural p k))%nat).
  { intros p. unfold write_natural. destruct (Z.pos p <? 10 ^ 21).
    - apply length_write_uint_digit, DecimalPos.Unsigned.to_uint_nonnil.
    - destruct (strip_zeros _ _) as [n' z]. cbv zeta.
      apply length_write_numeral, canonical_take, leading_to_uint. }
  destruct n as [|p|p]; simpl; [lia|apply Hp|]. specialize (Hp p). lia.
Qed.

Lemma length_write_decimal m d k :
  (S (String.length k) <= String.length (write_decimal m d k))%nat.
Proof.
  unfold write_decimal. destruct (reduce d m) as [m' [|d']].
  - apply length_write_number.
  - destruct m' as [|p|p]; simpl; [lia|..];
      destruct (notation_spec p (S d') ltac:(lia)) as (i & f & e & -> & Hi & _);
      pose proof (length_write_numeral i f e k Hi); lia.
Qed.

Lemma length_write_value v :
  forall k, (json_size v + String.length k <= String.length (write_value v k))%nat.
Proof.
  induction v as [|b|z|z d|s|items IH|props IH] using json_induction; intros k.
  - cbv [write_value String.append json_size]. simpl. lia.
  - destruct b; cbv [write_value String.append json_size]; simpl; lia.
  - cbn [write_value json_size]. pose proof (length_write_number z k). lia.
  - cbn [write_value json_size]. pose proof (length_write_decimal z d k). lia.
  - cbn [write_value json_size]. pose proof (length_write_string s k). lia.
  - cbn [write_value json_size String.length].
    assert (Hseq :
      (fold_right (fun x acc => S (json_size x + acc)) 0%nat items + String.length k
       <= String.length (write_seq write_value items (String "]" k)))%nat); [|lia].
    destruct IH as [|x items Hx IH]; [simpl; lia|].
    cbn [write_seq fold_right].
    set (tail := fold_right (fun y acc => String "," (write_value y acc)) (String "]" k) items).
    assert (fold_right (fun x acc => S (json_size x + acc)) 0%nat items + String.length k
            < String.length tail)%nat as Htail.
    { subst tail. induction IH as [|y items Hy _ IH']; cbn [fold_right String.length]; [lia|].
      specialize (Hy (fold_right (fun y acc => String "," (write_value y acc))
                        (String "]" k) items)).
      lia. }
    specialize (Hx tail). lia.
  - cbn [write_value json_size String.length].
    set (w := fun (kv : string * json) k' => write_string kv.1 (String ":" (write_value kv.2 k'))).
    assert (Hw : Forall (fun kv => forall k',
      (3 + json_size kv.2 + String.length k' <= String.length (w kv k'))%nat) props).
    { eapply Forall_impl; [exact IH|]. intros [key x] Hx k'. subst w. cbn [fst snd] in *.
      pose proof (length_write_string key (String ":" (write_value x k'))) as H1.
      cbn [String.length] in H1. specialize (Hx k'). lia. }
    assert (Hseq :
      (fold_right (fun kv acc => S (json_size kv.2 + acc)) 0%nat props + String.length k
       <= String.length (write_seq w props (String "}" k)))%nat); [|lia].
    destruct Hw as [|kv props Hx Hw]; [simpl; lia|].
    cbn [write_seq fold_right].
    set (tail := fold_right (fun y acc => String "," (w y acc)) (String "}" k) props).
    assert (fold_right (fun kv acc => S (json_size kv.2 + acc)) 0%nat props + String.length k
            < String.length tail)%nat as Htail.
    { subst tail. clear IH Hx. induction Hw as [|y props Hy _ IH']; cbn [fold_right String.length]; [lia|].
      specialize (Hy (fold_right (fun y acc => String "," (w y acc)) (String "}" k) props)).
      lia. }
    specialize (Hx tail). lia.
Qed.

(** Parsing the text of a value yields the value, its objects rebuilt. *)
Lemma JSON_parse_stringify v : JSON_parse (JSON_stringify v) = Some (normalize v).
Proof.
  unfold JSON_parse, JSON_stringify.
  rewrite parse_write_value; [reflexivity| |reflexivity].
  pose proof (length_write_value v EmptyString). simpl in *. lia.
Qed.

(** ** The fuel of [JSON_parse] suffices for every text *)

Lemma skip_ws_length s : (String.length (skip_ws s) <= String.length s)%nat.
Proof. induction s as [|c s IH]; simpl; [lia|]. destruct (is_ws c); simpl; lia. Qed.

Lemma cons_digit_not_Nil c d : is_digit c = true -> cons_digit c d <> Nil.
Proof.
  destruct c as [[|] [|] [|] [|] [|] [|] [|] [|]]; try discriminate; done.
Qed.

Lemma read_digits_length s :
  forall d r, read_digits s = (d, r) ->
    (String.length r <= String.length s)%nat /\
    (d <> Nil -> (String.length r < String.length s)%nat).
Proof.
  induction s as [|c s IH]; intros d r; simpl.
  - intros [= <- <-]. split; [done|]. by intros [].
  - destruct (is_digit c) eqn:Hc.
    + destruct (read_digits s) as [d' r'] eqn:Hs. intros [= <- <-].
      destruct (IH d' r' eq_refl) as [Hle _]. split; [lia|]. intros _. lia.
    + intros [= <- <-]. split; [done|]. by intros [].
Qed.

Lemma read_fraction_length s f r :
  read_fraction s = Some (f, r) -> (String.length r <= String.length s)%nat.
Proof.
  unfold read_fraction. destruct s as [|c s]; [by intros [= <- <-]|].
  destruct (Ascii.eqb c "."); [|by intros [= <- <-]].
  destruct (read_digits s) as [d r'] eqn:Hs.
  apply read_digits_length in Hs as [Hs _].
  destruct d; [done|..]; intros [= <- <-]; simpl; lia.
Qed.

Lemma read_exponent_digits_length negative s e r :
  read_exponent_digits negative s = Some (e, r) ->
  (String.length r <= String.length s)%nat.
Proof.
  unfold read_exponent_digits. destruct (read_digits s) as [d r'] eqn:Hs.
  apply read_digits_length in Hs as [Hs _].
  destruct d; [done|..]; by intros [= <- <-].
Qed.

Lemma read_exponent_length s e r :
  read_exponent s = Some (e, r) -> (String.length r <= String.length s)%nat.
Proof.
  unfold read_exponent. destruct s as [|c s]; [by intros [= <- <-]|].
  destruct (Ascii.eqb c "e" || Ascii.eqb c "E"); [|by intros [= <- <-]].
  destruct s as [|c' s']; [done|].
  repeat case_match; intros Hr%read_exponent_digits_length; simpl in *; lia.
Qed.

Lemma read_unsigned_length negative s v r :
  read_unsigned negative s = Some (v, r) -> (String.length r < String.length s)%nat.
Proof.
  unfold read_unsigned. destruct (read_digits s) as [i r0] eqn:Hs.
  destruct (canonical_uint i) eqn:Hi; [|done].
  destruct (read_fraction r0) as [[f r1]|] eqn:Hf; [|done].
  destruct (read_exponent r1) as [[e r2]|] eqn:He; [|done].
  intros [= <- <-].
  apply read_digits_length in Hs as [_ Hs]. specialize (Hs (canonical_not_Nil _ Hi)).
  apply read_fraction_length in Hf. apply read_exponent_length in He. lia.
Qed.

Lemma read_number_length s v r :
  read_number s = Some (v, r) -> (String.length r < String.length s)%nat.
Proof.
  unfold read_number. destruct s as [|c s]; [done|].
  destruct (Ascii.eqb c "-"); intros H%read_unsigned_length; simpl in *; lia.
Qed.

Lemma prefixed_Some p o x r :
  prefixed p o = Some (x, r) -> exists y, o = Some (y, r).
Proof. destruct o as [[y r']|]; [|done]. intros [= <- <-]. by exists y. Qed.

Lemma read_chars_length n :
  forall s x r, (String.length s <= n)%nat -> read_chars s = Some (x, r) ->
    (String.length r < String.length s)%nat.
Proof.
  induction n as [|n IH]; intros s x r Hn; (destruct s as [|c s]; [done|]);
    [simpl in Hn; lia|].
  cbn [read_chars]. unfold low_surrogate_ahead.
  repeat case_match; try done; subst;
    try (intros [= <- <-]; simpl; lia);
    intros [y Hy]%prefixed_Some; apply IH in Hy; simpl in *; lia.
Qed.

Lemma expect_length w :
  forall s r, expect w s = Some r -> (String.length r <= String.length s)%nat.
Proof.
  induction w as [|a w IH]; intros s r; simpl.
  - by intros [= <-].
  - destruct s as [|b s]; [done|]. destruct (Ascii.eqb a b); [|done].
    intros H%IH. simpl. lia.
Qed.

Lemma literal_length w v s x r :
  literal w v s = Some (x, r) -> (String.length r <= String.length s)%nat.
Proof.
  unfold literal. destruct (expect w s) as [r'|] eqn:He; [|done].
  intros [= <- <-]. by apply expect_length in He.
Qed.

Ltac split_match_in H :=
  match type of H with
  | context [match ?x with _ => _ end] => destruct x eqn:?
  end.

Ltac length_facts IHv IHe IHm :=
  repeat match goal with
  | H : skip_ws ?s = _ |- _ =>
      let L := fresh "L" in
      pose proof (skip_ws_length s) as L; rewrite H in L; cbn [String.length] in L; clear H
  | H : read_chars ?s = Some _ |- _ => apply (read_chars_length _ _ _ _ (le_n _)) in H
  | H : literal _ _ _ = Some _ |- _ => apply literal_length in H
  | H : read_number _ = Some _ |- _ => apply read_number_length in H
  | H : parse_value _ _ = Some _ |- _ => apply IHv in H
  | H : parse_elements _ _ = Some _ |- _ => apply IHe in H
  | H : parse_members _ _ = Some _ |- _ => apply IHm in H
  end.

(** Every parser consumes some of the text. *)
Lemma parse_consumes n :
  (forall s v r, parse_value n s = Some (v, r) ->
     (String.length r < String.length s)%nat) /\
  (forall s l r, parse_elements n s = Some (l, r) ->
     (String.length r < String.length s)%nat) /\
  (forall s l r, parse_members n s = Some (l, r) ->
     (String.length r < String.length s)%nat).
Proof.
  induction n as [|n (IHv & IHe & IHm)]; [by split_and!|].
  split_and!; intros s x r H.
  - cbn [parse_value] in H.
    repeat (split_match_in H; try discriminate H); simplify_eq;
      length_facts IHv IHe IHm; cbn [String.length] in *; lia.
  - cbn [parse_elements] in H.
    repeat (split_match_in H; try discriminate H); simplify_eq;
      length_facts IHv IHe IHm; cbn [String.length] in *; lia.
  - cbn [parse_members] in H.
    repeat (split_match_in H; try discriminate H); simplify_eq;
      length_facts IHv IHe IHm; cbn [String.length] in *; lia.
Qed.

(** A result obtained with any fuel is obtained with the fuel that
    [JSON_parse] gives, and with any more. *)
Lemma parse_fuel_enough n :
  (forall s x m, parse_value n s = Some x ->
     (2 * String.length s + 1 <= m)%nat -> parse_value m s = Some x) /\
  (forall s x m, parse_elements n s = Some x ->
     (2 * String.length s + 2 <= m)%nat -> parse_elements m s = Some x) /\
  (forall s x m, parse_members n s = Some x ->
     (2 * String.length s + 2 <= m)%nat -> parse_members m s = Some x).
Proof.
  induction n as [|n (IHv & IHe & IHm)]; [by split_and!|].
  split_and!; intros s x m H Hm; (destruct m as [|m]; [lia|]).
  - cbn [parse_value] in H |- *.
    destruct (skip_ws s) as [|c r] eqn:Hs; [done|].
    pose proof (skip_ws_length s) as Ls. rewrite Hs in Ls. cbn [String.length] in Ls.
    repeat (split_match_in H; try discriminate H); simplify_eq; try done.
    + match goal with E : skip_ws r = _ |- _ =>
        pose proof (skip_ws_length r) as Lr; rewrite E in Lr; cbn [String.length] in Lr end.
      match goal with E : parse_elements n r = Some _ |- _ =>
        rewrite (IHe _ _ m E) by lia end. done.
    + match goal with E : parse_members n r = Some _ |- _ =>
        rewrite (IHm _ _ m E) by lia end. done.
  - cbn [parse_elements] in H |- *.
    destruct (parse_value n s) as [[v r]|] eqn:Hv; [|done].
    rewrite (IHv _ _ m Hv) by lia.
    apply (proj1 (parse_consumes n)) in Hv.
    destruct (skip_ws r) as [|c r'] eqn:Hs; [done|].
    pose proof (skip_ws_length r) as Ls. rewrite Hs in Ls. cbn [String.length] in Ls.
    repeat (split_match_in H; try discriminate H); simplify_eq; try done.
    match goal with E : parse_elements n r' = Some _ |- _ =>
      rewrite (IHe _ _ m E) by lia end. done.
  - cbn [parse_members] in H |- *.
    destruct (skip_ws s) as [|q r] eqn:Hs; [done|].
    pose proof (skip_ws_length s) as Ls. rewrite Hs in Ls. cbn [String.length] in Ls.
    destruct (Ascii.eqb q DQUOTE); [|done].
    destruct (read_chars r) as [[key r1]|] eqn:Hk; [|done].
    apply (read_chars_length _ _ _ _ (le_n _)) in Hk.
    destruct (skip_ws r1) as [|c r2] eqn:Hs1; [done|].
    pose proof (skip_ws_length r1) as Ls1. rewrite Hs1 in Ls1. cbn [String.length] in Ls1.
    destruct (Ascii.eqb c ":"); [|done].
    destruct (parse_value n r2) as [[v r3]|] eqn:Hv; [|done].
    rewrite (IHv _ _ m Hv) by lia.
    apply (proj1 (parse_consumes n)) in Hv.
    destruct (skip_ws r3) as [|c' r4] eqn:Hs3; [done|].
    pose proof (skip_ws_length r3) as Ls3. rewrite Hs3 in Ls3. cbn [String.length] in Ls3.
    repeat (split_match_in H; try discriminate H); simplify_eq; try done.
    match goal with E : parse_members n r4 = Some _ |- _ =>
      rewrite (IHm _ _ m E) by lia end. done.
Qed.

(** The answer of [JSON_parse] does not depend on its choice of fuel: a
    text that the parser reads with some fuel, it reads with that of
    [JSON_parse]. *)
Lemma JSON_parse_fuel n s v r :
  parse_value n s = Some (v, r) ->
  parse_value (2 * String.length s + 1) s = Some (v, r).
Proof. intros H. by apply (proj1 (parse_fuel_enough n) s (v, r)). Qed.

(** ** Objects as property lists *)

Lemma obj_get_None key props : obj_get key props = None <-> key ∉ props.*1.
Proof.
  induction props as [|[k v] props IH]; simpl.
  - split; [intros _; apply not_elem_of_nil|done].
  - rewrite not_elem_of_cons. destruct (String.eqb_spec key k) as [->|Hne].
    + split; [done|]. intros [? _]. done.
    + rewrite IH. tauto.
Qed.

Lemma obj_get_elem key v props :
  NoDup props.*1 -> (key, v) ∈ props -> obj_get key props = Some v.
Proof.
  induction props as [|[k w] props IH]; simpl; intros Hnd Hin.
  - by apply elem_of_nil in Hin.
  - apply NoDup_cons in Hnd as [Hk Hnd].
    apply elem_of_cons in Hin as [[= -> ->] | Hin].
    + by rewrite String.eqb_refl.
    + destruct (String.eqb_spec key k) as [->|Hne]; [|by apply IH].
      exfalso. apply Hk. apply (list_elem_of_fmap_2 fst) in Hin. done.
Qed.

Lemma obj_get_Some_elem key v props : obj_get key props = Some v -> (key, v) ∈ props.
Proof.
  induction props as [|[k w] props IH]; simpl; [done|].
  destruct (String.eqb_spec key k) as [->|Hne].
  - intros [= ->]. left.
  - intros H. right. by apply IH.
Qed.

Lemma obj_get_perm key props props' :
  NoDup props.*1 -> props ≡ₚ props' -> obj_get key props = obj_get key props'.
Proof.
  intros Hnd Hp.
  assert (Hnd' : NoDup props'.*1) by by rewrite <- Hp.
  destruct (obj_get key props) as [v|] eqn:Hg.
  - symmetry. apply obj_get_elem; [done|]. rewrite <- Hp. by apply obj_get_Some_elem.
  - symmetry. apply obj_get_None. rewrite <- Hp. by apply obj_get_None.
Qed.

Lemma obj_get_map f key props :
  obj_get key (map (fun kv => (kv.1, f kv.2)) props) = f <$> obj_get key props.
Proof.
  induction props as [|[k v] props IH]; simpl; [done|].
  by destruct (String.eqb key k).
Qed.

Lemma obj_replace_keys key v props : (obj_replace key v props).*1 = props.*1.
Proof.
  induction props as [|[k w] props IH]; simpl; [done|].
  destruct (String.eqb key k); csimpl; [done|by f_equal].
Qed.

Lemma obj_get_replace key v props key' :
  obj_get key' (obj_replace key v props) =
    if decide (key = key')
    then match obj_get key props with Some _ => Some v | None => None end
    else obj_get key' props.
Proof.
  induction props as [|[k w] props IH]; simpl; [by case_decide|].
  destruct (String.eqb_spec key k) as [->|Hne]; simpl.
  - case_decide as Hk; [subst; by rewrite String.eqb_refl|].
    destruct (String.eqb_spec key' k) as [->|]; done.
  - rewrite IH. case_decide as Hk; [subst|done].
    destruct (String.eqb_spec key' k) as [->|]; done.
Qed.

Lemma obj_replace_elem key v props x :
  x ∈ obj_replace key v props -> x = (key, v) \/ x ∈ props.
Proof.
  induction props as [|[k w] props IH]; simpl; [auto|].
  destruct (String.eqb_spec key k) as [->|Hne]; rewrite !elem_of_cons; naive_solver.
Qed.

Lemma obj_insert_index_perm n key v props :
  obj_insert_index n key v props ≡ₚ (key, v) :: props.
Proof.
  induction props as [|[k w] props IH]; simpl; [done|].
  destruct (array_index k) as [m|]; [|done].
  destruct (m <? n)%N; [|done].
  rewrite IH. apply Permutation_swap.
Qed.

Lemma obj_get_insert_index n key v props key' :
  obj_get key props = None ->
  obj_get key' (obj_insert_index n key v props) =
    if decide (key = key') then Some v else obj_get key' props.
Proof.
  induction props as [|[k w] props IH]; simpl.
  - intros _. case_decide as Hk; [subst; by rewrite String.eqb_refl|].
    destruct (String.eqb_spec key' key); congruence.
  - destruct (String.eqb_spec key k) as [->|Hne]; [done|]. intros Hg.
    assert (obj_get key' ((key, v) :: (k, w) :: props) =
            if decide (key = key') then Some v
            else if String.eqb key' k then Some w else obj_get key' props) as Hhead.
    { simpl. case_decide as Hk; [subst; by rewrite String.eqb_refl|].
      destruct (String.eqb_spec key' key); congruence. }
    destruct (array_index k) as [m|]; [|done].
    destruct (m <? n)%N; [|done].
    simpl. rewrite IH by done.
    case_decide as Hk; [|done]. subst.
    destruct (String.eqb_spec key' k); congruence.
Qed.

Lemma obj_get_app key (props props' : list (string * json)) :
  obj_get key (props ++ props')%list =
    match obj_get key props with
    | Some v => Some v
    | None => obj_get key props'
    end.
Proof.
  induction props as [|[k w] props IH]; simpl; [done|].
  by destruct (String.eqb key k).
Qed.

(** Reading after writing. *)
Lemma obj_get_set key v props key' :
  obj_get key' (obj_set key v props) =
    if decide (key = key') then Some v else obj_get key' props.
Proof.
  unfold obj_set. destruct (obj_get key props) as [w|] eqn:Hg.
  - rewrite obj_get_replace, Hg. done.
  - destruct (array_index key) as [n|].
    + by apply obj_get_insert_index.
    + rewrite obj_get_app. simpl.
      case_decide as Hk.
      * subst. by rewrite Hg, String.eqb_refl.
      * destruct (obj_get key' props); [done|].
        destruct (String.eqb_spec key' key); congruence.
Qed.

Lemma obj_set_fresh_perm key v props :
  obj_get key props = None -> obj_set key v props ≡ₚ (key, v) :: props.
Proof.
  intros Hg. unfold obj_set. rewrite Hg.
  destruct (array_index key) as [n|].
  - apply obj_insert_index_perm.
  - symmetry. apply Permutation_cons_append.
Qed.

Lemma obj_set_elem key v props x :
  x ∈ obj_set key v props -> x = (key, v) \/ x ∈ props.
Proof.
  unfold obj_set. destruct (obj_get key props) as [w|] eqn:Hg.
  - apply obj_replace_elem.
  - destruct (array_index key) as [n|].
    + rewrite obj_insert_index_perm, elem_of_cons. done.
    + rewrite elem_of_app, list_elem_of_singleton. naive_solver.
Qed.

Lemma obj_set_NoDup key v props : NoDup props.*1 -> NoDup (obj_set key v props).*1.
Proof.
  intros Hnd. destruct (obj_get key props) as [w|] eqn:Hg.
  - unfold obj_set. rewrite Hg. by rewrite obj_replace_keys.
  - rewrite (obj_set_fresh_perm _ _ _ Hg). simpl.
    apply NoDup_cons. split; [|done]. by apply obj_get_None.
Qed.

Lemma fold_obj_set_NoDup entries acc :
  NoDup acc.*1 ->
  NoDup (fold_left (fun props kv => obj_set kv.1 kv.2 props) entries acc).*1.
Proof.
  revert acc. induction entries as [|kv entries IH]; intros acc Hnd; simpl; [done|].
  apply IH. by apply obj_set_NoDup.
Qed.

Lemma obj_of_entries_NoDup entries : NoDup (obj_of_entries entries).*1.
Proof. apply fold_obj_set_NoDup. constructor. Qed.

Lemma fold_obj_set_elem entries acc x :
  x ∈ fold_left (fun props kv => obj_set kv.1 kv.2 props) entries acc ->
  x ∈ acc \/ x ∈ entries.
Proof.
  revert acc. induction entries as [|[k v] entries IH]; intros acc; simpl; [auto|].
  intros [Hx | Hx]%IH; [|right; by right].
  apply obj_set_elem in Hx as [-> | Hx]; [right; left|by left].
Qed.

Lemma obj_of_entries_elem entries x : x ∈ obj_of_entries entries -> x ∈ entries.
Proof.
  intros [Hx | Hx]%fold_obj_set_elem; [|done]. by apply elem_of_nil in Hx.
Qed.

Lemma fold_obj_set_perm (entries acc : list (string * json)) :
  NoDup (acc ++ entries)%list.*1 ->
  fold_left (fun props kv => obj_set kv.1 kv.2 props) entries acc ≡ₚ (acc ++ entries)%list.
Proof.
  revert acc. induction entries as [|[k v] entries IH]; intros acc Hnd; simpl.
  - by rewrite app_nil_r.
  - assert (obj_get k acc = None) as Hg.
    { apply obj_get_None. rewrite fmap_app in Hnd. simpl in Hnd.
      apply NoDup_app in Hnd as (_ & Hd & _). intros Hk. apply (Hd _ Hk). left. }
    pose proof (obj_set_fresh_perm k v acc Hg) as Hp.
    rewrite IH.
    + rewrite Hp. apply Permutation_middle.
    + rewrite Hp. by rewrite <- Permutation_middle in Hnd.
Qed.

(** Defining pairwise distinct keys one after the other yields the
    same properties, possibly in another order. *)
Lemma obj_of_entries_perm entries : NoDup entries.*1 -> obj_of_entries entries ≡ₚ entries.
Proof. intros Hnd. unfold obj_of_entries. by rewrite fold_obj_set_perm. Qed.

Lemma keys_map_values (f : json -> json) (props : list (string * json)) :
  (map (fun kv => (kv.1, f kv.2)) props).*1 = props.*1.
Proof. induction props as [|[k v] props IH]; csimpl; [done|by f_equal]. Qed.

(** ** Sorting entries by key *)

Lemma NoDup_keys_elem_eq {A} (l : list (string * A)) x y :
  NoDup l.*1 -> x ∈ l -> y ∈ l -> x.1 = y.1 -> x = y.
Proof.
  intros Hnd Hx Hy Hk. induction l as [|z l IH]; [by apply elem_of_nil in Hx|].
  csimpl in Hnd. apply NoDup_cons in Hnd as [Hz Hnd].
  apply elem_of_cons in Hx as [->|Hx]; apply elem_of_cons in Hy as [->|Hy]; [done|..].
  - exfalso. apply Hz. rewrite Hk. by apply list_elem_of_fmap_2.
  - exfalso. apply Hz. rewrite <- Hk. by apply list_elem_of_fmap_2.
  - by apply IH.
Qed.

(** Entries with pairwise distinct keys have one sorted arrangement. *)
Lemma merge_sort_perm_eq {A} (l1 l2 : list (string * A)) :
  NoDup l1.*1 -> l1 ≡ₚ l2 -> merge_sort key_le l1 = merge_sort key_le l2.
Proof.
  intros Hnd Hp.
  apply (StronglySorted_unique_strong key_le).
  - intros x1 x2 Hx1 Hx2 H12 H21.
    rewrite merge_sort_Permutation in Hx1, Hx2. rewrite <- Hp in Hx2.
    apply (NoDup_keys_elem_eq l1); [done..|].
    unfold key_le in *. by apply (anti_symm String.le).
  - apply StronglySorted_merge_sort; apply _.
  - apply StronglySorted_merge_sort; apply _.
  - by rewrite !merge_sort_Permutation.
Qed.

Lemma sorted_keys_strict {A} (l : list (string * A)) :
  StronglySorted key_le l -> NoDup l.*1 ->
  StronglySorted (fun k1 k2 : string => String.le k1 k2 /\ k1 <> k2) l.*1.
Proof.
  induction 1 as [|x l Hs IH Hx]; csimpl; intros Hnd; [constructor|].
  apply NoDup_cons in Hnd as [Hnx Hnd].
  constructor; [by apply IH|].
  apply Forall_fmap, Forall_forall. intros y Hy. simpl. split.
  - rewrite Forall_forall in Hx. by apply Hx.
  - intros Heq. apply Hnx. rewrite Heq. by apply list_elem_of_fmap_2.
Qed.

(** ** Well-formed values *)

Lemma forallb_Forall {A} (f : A -> bool) l :
  forallb f l = true <-> Forall (fun x => f x = true) l.
Proof.
  induction l as [|x l IH]; simpl.
  - split; [constructor|done].
  - rewrite andb_true_iff, IH, Forall_cons. done.
Qed.

Lemma wf_json_arr items :
  wf_json (JArr items) = true <-> Forall (fun v => wf_json v = true) items.
Proof. apply forallb_Forall. Qed.

Lemma wf_json_obj props :
  wf_json (JObj props) = true <->
  NoDup props.*1 /\ Forall (fun kv => wf_json kv.2 = true) props.
Proof.
  simpl. rewrite andb_true_iff, bool_decide_eq_true, forallb_Forall. done.
Qed.

Lemma Forall_obj_of_entries (P : string * json -> Prop) entries :
  Forall P entries -> Forall P (obj_of_entries entries).
Proof.
  rewrite !Forall_forall. intros H x Hx. by apply H, obj_of_entries_elem.
Qed.

Lemma wf_normalize v : wf_json (normalize v) = true.
Proof.
  induction v as [| | |m k| |items IH|props IH] using json_induction; try done.
  - apply wf_number.
  - apply wf_json_arr. by apply Forall_fmap.
  - apply wf_json_obj. split; [apply obj_of_entries_NoDup|].
    apply Forall_obj_of_entries, Forall_fmap. done.
Qed.

Lemma wf_sortKeysRecursive v : wf_json v = true -> wf_json (sortKeysRecursive v) = true.
Proof.
  induction v as [| | | | |items IH|props IH] using json_induction; try done.
  - cbn [sortKeysRecursive]. rewrite !wf_json_arr. intros Hwf. apply Forall_fmap.
    rewrite Forall_forall in *. intros x Hx. simpl. apply IH; auto.
  - cbn [sortKeysRecursive]. rewrite !wf_json_obj. intros [_ Hwf].
    split; [apply obj_of_entries_NoDup|].
    apply Forall_obj_of_entries.
    rewrite merge_sort_Permutation. apply Forall_fmap.
    rewrite Forall_forall in *. intros kv Hkv. simpl. apply IH; auto.
Qed.

Lemma wf_sort_keys v : wf_json v = true -> wf_json (sort_keys v) = true.
Proof.
  induction v as [| | | | |items IH|props IH] using json_induction; try done.
  - cbn [sort_keys]. rewrite !wf_json_arr. intros Hwf. apply Forall_fmap.
    rewrite Forall_forall in *. intros x Hx. simpl. apply IH; auto.
  - cbn [sort_keys]. rewrite !wf_json_obj. intros [Hnd Hwf]. split.
    + by rewrite merge_sort_Permutation, keys_map_values.
    + rewrite merge_sort_Permutation. apply Forall_fmap.
      rewrite Forall_forall in *. intros kv Hkv. simpl. apply IH; auto.
Qed.

Lemma keys_sorted_sort_keys v : wf_json v = true -> keys_sorted (sort_keys v) = true.
Proof.
  induction v as [| | | | |items IH|props IH] using json_induction; try done.
  - rewrite wf_json_arr. intros Hwf. simpl. apply forallb_Forall, Forall_fmap.
    rewrite Forall_forall in *. intros x Hx. simpl. apply IH; auto.
  - rewrite wf_json_obj. intros [Hnd Hwf]. cbn [sort_keys keys_sorted].
    apply andb_true_iff. split.
    + apply bool_decide_eq_true. apply sorted_keys_strict.
      * apply StronglySorted_merge_sort; apply _.
      * by rewrite merge_sort_Permutation, keys_map_values.
    + apply forallb_Forall. rewrite merge_sort_Permutation. apply Forall_fmap.
      rewrite Forall_forall in *. intros kv Hkv. simpl. apply IH; auto.
Qed.

(** ** The same record in another order *)

Lemma same_record_refl v : same_record v v.
Proof.
  induction v as [| | | | |items IH|props IH] using json_induction; try constructor.
  - by apply Forall_Forall2_diag.
  - apply (same_obj props props props); [|done].
    apply Forall_Forall2_diag. eapply Forall_impl; [exact IH|]. done.
Qed.

Lemma same_obj_map (f : json -> json) props l :
  Forall (fun kv => same_record kv.2 (f kv.2)) props ->
  map (fun kv => (kv.1, f kv.2)) props ≡ₚ l ->
  same_record (JObj props) (JObj l).
Proof.
  intros H Hp. eapply same_obj; [|exact Hp].
  apply Forall2_fmap_r, Forall_Forall2_diag.
  eapply Forall_impl; [exact H|]. done.
Qed.

Lemma same_arr_map (f : json -> json) items :
  Forall (fun v => same_record v (f v)) items ->
  same_record (JArr items) (JArr (map f items)).
Proof. intros H. constructor. by apply Forall2_fmap_r, Forall_Forall2_diag. Qed.

Lemma Forall_wf_IH (P : json -> Prop) (props : list (string * json)) :
  Forall (fun kv => wf_json kv.2 = true -> P kv.2) props ->
  Forall (fun kv => wf_json kv.2 = true) props ->
  Forall (fun kv => P kv.2) props.
Proof. rewrite !Forall_forall. auto. Qed.

Lemma same_normalize v : wf_json v = true -> same_record v (normalize v).
Proof.
  induction v as [| | |m k| |items IH|props IH] using json_induction; intros Hwf.
  1-3, 5: constructor.
  - cbn [normalize]. rewrite number_canonical by done. constructor.
  - apply wf_json_arr in Hwf. apply same_arr_map.
    rewrite Forall_forall in *. auto.
  - apply wf_json_obj in Hwf as [Hnd Hwf]. cbn [normalize].
    apply (same_obj_map normalize); [by apply (Forall_wf_IH (fun v => same_record v (normalize v)))|].
    symmetry. apply obj_of_entries_perm. by rewrite keys_map_values.
Qed.

Lemma same_sortKeysRecursive v : wf_json v = true -> same_record v (sortKeysRecursive v).
Proof.
  induction v as [| | | | |items IH|props IH] using json_induction; intros Hwf.
  1-5: constructor.
  - apply wf_json_arr in Hwf. apply same_arr_map.
    rewrite Forall_forall in *. auto.
  - apply wf_json_obj in Hwf as [Hnd Hwf]. cbn [sortKeysRecursive].
    apply (same_obj_map sortKeysRecursive);
      [by apply (Forall_wf_IH (fun v => same_record v (sortKeysRecursive v)))|].
    rewrite obj_of_entries_perm; [by rewrite merge_sort_Permutation|].
    by rewrite merge_sort_Permutation, keys_map_values.
Qed.

Lemma same_sort_keys v : wf_json v = true -> same_record v (sort_keys v).
Proof.
  induction v as [| | | | |items IH|props IH] using json_induction; intros Hwf.
  1-5: constructor.
  - apply wf_json_arr in Hwf. apply same_arr_map.
    rewrite Forall_forall in *. auto.
  - apply wf_json_obj in Hwf as [Hnd Hwf]. cbn [sort_keys].
    apply (same_obj_map sort_keys);
      [by apply (Forall_wf_IH (fun v => same_record v (sort_keys v)))|].
    by rewrite merge_sort_Permutation.
Qed.

(** What parsing the sorted text of a record yields. *)
Lemma same_parsed_back v : wf_json v = true -> same_record v (normalize (sort_keys v)).
Proof.
  induction v as [| | |m k| |items IH|props IH] using json_induction; intros Hwf.
  1-3, 5: constructor.
  - cbn [sort_keys normalize]. rewrite number_canonical by done. constructor.
  - apply wf_json_arr in Hwf. cbn [sort_keys normalize]. rewrite map_map.
    apply (same_arr_map (fun v => normalize (sort_keys v))).
    rewrite Forall_forall in *. auto.
  - apply wf_json_obj in Hwf as [Hnd Hwf]. cbn [sort_keys normalize].
    apply (same_obj_map (fun v => normalize (sort_keys v)));
      [by apply (Forall_wf_IH (fun v => same_record v (normalize (sort_keys v))))|].
    rewrite obj_of_entries_perm.
    + rewrite merge_sort_Permutation, map_map. done.
    + by rewrite keys_map_values, merge_sort_Permutation, keys_map_values.
Qed.

(** Sorting the keys forgets the order of the properties. *)
Lemma sort_keys_same v :
  forall v', wf_json v = true -> same_record v v' -> sort_keys v = sort_keys v'.
Proof.
  induction v as [| | | | |items IH|props IH] using json_induction;
    intros v' Hwf Hs; inversion Hs; subst; try done.
  - apply wf_json_arr in Hwf. cbn [sort_keys]. f_equal. clear Hs.
    match goal with H : Forall2 same_record _ _ |- _ => induction H as [|x y l k Hxy _ IHl] end;
      [done|].
    apply Forall_cons in IH as [IHx IH]. apply Forall_cons in Hwf as [Hx Hwf].
    csimpl. f_equal; [by apply IHx|by apply IHl].
  - apply wf_json_obj in Hwf as [Hnd Hwf]. cbn [sort_keys]. f_equal.
    match goal with H : Forall2 _ props ?m1 |- _ => rename H into HF; rename m1 into mid end.
    assert (Heq : map (fun kv => (kv.1, sort_keys kv.2)) props
                  = map (fun kv => (kv.1, sort_keys kv.2)) mid).
    { clear -HF IH Hwf. induction HF as [|[k x] [k' y] l l' [Hk Hxy] _ IHl]; [done|].
      apply Forall_cons in IH as [IHx IH]. apply Forall_cons in Hwf as [Hx Hwf].
      simpl in *. subst k'. f_equal; [|by apply IHl].
      f_equal. by apply IHx. }
    rewrite Heq. apply merge_sort_perm_eq.
    + rewrite <- Heq. by rewrite keys_map_values.
    + by apply fmap_Permutation.
Qed.

(** The encoder's two passes sort once. *)
Lemma encode_sort_keys r : wf_json r = true -> encode r = JSON_stringify (sort_keys r).
Proof.
  intros Hwf. unfold encode, stringify. f_equal.
  symmetry. apply sort_keys_same; [done|]. by apply same_sortKeysRecursive.
Qed.

(** ** What the parser returns *)

Lemma wf_decimal negative d f e : wf_json (decimal negative d f e) = true.
Proof. unfold decimal. case_match; [done|apply wf_number]. Qed.

Lemma wf_read_number s v r : read_number s = Some (v, r) -> wf_json v = true.
Proof.
  unfold read_number, read_unsigned. intros H.
  repeat case_match; simplify_eq; apply wf_decimal.
Qed.

Lemma wf_parse_fuel n :
  (forall s v r, parse_value n s = Some (v, r) -> wf_json v = true) /\
  (forall s l r, parse_elements n s = Some (l, r) -> Forall (fun v => wf_json v = true) l) /\
  (forall s l r, parse_members n s = Some (l, r) ->
     Forall (fun kv : string * json => wf_json kv.2 = true) l).
Proof.
  induction n as [|n (IHv & IHe & IHm)]; [by split_and!|].
  split_and!.
  - intros s v r H. cbn [parse_value] in H. unfold literal in H.
    repeat case_match; simplify_eq; try done; try (by eapply wf_read_number).
    + apply wf_json_arr. eauto.
    + apply wf_json_obj. split; [apply obj_of_entries_NoDup|].
      apply Forall_obj_of_entries. eauto.
  - intros s l r H. cbn [parse_elements] in H.
    repeat case_match; simplify_eq; repeat constructor; eauto.
  - intros s l r H. cbn [parse_members] in H.
    repeat case_match; simplify_eq; repeat constructor; simpl; eauto.
Qed.

(** Every parsed value is a well-formed JavaScript value. *)
Lemma wf_JSON_parse s v : JSON_parse s = Some v -> wf_json v = true.
Proof.
  unfold JSON_parse. intros H. repeat case_match; simplify_eq.
  by eapply wf_parse_fuel.
Qed.

Lemma JSON_parse_encode r :
  wf_json r = true -> JSON_parse (encode r) = Some (normalize (sort_keys r)).
Proof. intros Hwf. by rewrite encode_sort_keys, JSON_parse_stringify. Qed.

(** Scalars are stored and read back as they are. *)
Lemma normalize_sort_scalar v :
  is_scalar v = true -> wf_json v = true -> normalize (sort_keys v) = v.
Proof. destruct v; try done. intros _ Hwf. by apply number_canonical. Qed.

(** Reading a property of the record that the encoding of an object
    parses to. *)
Lemma JSON_parse_encode_obj props :
  wf_json (JObj props) = true ->
  exists props',
    JSON_parse (encode (JObj props)) = Some (JObj props') /\
    forall key, obj_get key props' =
                (fun x => normalize (sort_keys x)) <$> obj_get key props.
Proof.
  intros Hwf. rewrite JSON_parse_encode by done. cbn [sort_keys normalize].
  eexists. split; [reflexivity|]. intros key.
  apply wf_json_obj in Hwf as [Hnd _].
  set (sorted := merge_sort key_le (map (fun kv => (kv.1, sort_keys kv.2)) props)).
  assert (Hs : NoDup sorted.*1).
  { subst sorted. by rewrite merge_sort_Permutation, keys_map_values. }
  rewrite (obj_get_perm key (obj_of_entries (map (fun kv => (kv.1, normalize kv.2)) sorted))
             (map (fun kv => (kv.1, normalize kv.2)) sorted)).
  - rewrite obj_get_map.
    rewrite (obj_get_perm key sorted (map (fun kv => (kv.1, sort_keys kv.2)) props));
      [|done|apply merge_sort_Permutation].
    rewrite obj_get_map. by destruct (obj_get key props).
  - apply obj_of_entries_NoDup.
  - apply obj_of_entries_perm. by rewrite keys_map_values.
Qed.

(** [same_record] is an equivalence on well-formed values, and the
    canonical encoding tells records apart exactly up to it. *)

Lemma same_record_sym v : forall v', same_record v v' -> same_record v' v.
Proof.
  induction v as [| | | | |items IH|props IH] using json_induction;
    intros v' Hs; inversion Hs; subst; try constructor.
  - match goal with H : Forall2 same_record _ _ |- _ => rename H into HF end. clear Hs.
    induction HF as [|x y l k Hxy _ IHl]; [constructor|].
    apply Forall_cons in IH as [IHx IH]. constructor; [by apply IHx|by apply IHl].
  - match goal with H : Forall2 _ props ?m1 |- _ => rename H into HF; rename m1 into mid end.
    match goal with H : mid ≡ₚ _ |- _ => rename H into Hp end.
    assert (HF' : Forall2 (fun e' e => e'.1 = e.1 /\ same_record e'.2 e.2) mid props).
    { clear -HF IH. induction HF as [|x y l k [Hk Hxy] _ IHl]; [constructor|].
      apply Forall_cons in IH as [IHx IH]. constructor; [|by apply IHl].
      split; [done|]. by apply IHx. }
    destruct (Permutation_Forall2 Hp HF') as (back & Hback & HF'').
    by apply (same_obj _ back).
Qed.

Lemma same_record_trans v :
  forall v' v'', same_record v v' -> same_record v' v'' -> same_record v v''.
Proof.
  induction v as [| | | | |items IH|props IH] using json_induction;
    intros v' v'' H1 H2; inversion H1; subst; inversion H2; subst; try constructor.
  - match goal with
    | Ha : Forall2 same_record items ?l1, Hb : Forall2 same_record ?l1 ?l2 |- _ =>
        rename Ha into HFa; rename Hb into HFb; rename l2 into last
    end.
    clear H1 H2. revert last HFb.
    induction HFa as [|x y l k Hxy _ IHl]; intros last HFb.
    + inversion HFb. constructor.
    + inversion HFb; subst. apply Forall_cons in IH as [IHx IH].
      constructor; [by eapply IHx|by apply IHl].
  - match goal with
    | Ha : Forall2 _ props ?a1, Pa : ?a1 ≡ₚ ?a2, Hb : Forall2 _ ?a2 ?b1, Pb : ?b1 ≡ₚ ?b2 |- _ =>
        rename Ha into HFa; rename Hb into HFb; rename Pa into Hpa; rename Pb into Hpb
    end.
    symmetry in Hpa.
    destruct (Permutation_Forall2 Hpa HFb) as (mid & Hmid & HFmid).
    apply (same_obj _ mid); [|by rewrite <- Hmid].
    clear -HFa HFmid IH. revert mid HFmid.
    induction HFa as [|x y l k [Hk Hxy] _ IHl]; intros mid HFmid.
    + inversion HFmid. constructor.
    + inversion HFmid as [|? z ? k' [Hk' Hyz] Hrest]; subst.
      apply Forall_cons in IH as [IHx IH].
      constructor; [|by apply IHl]. split; [congruence|]. by eapply IHx.
Qed.

(** Records with the same canonical encoding are the same record. *)
Lemma encode_injective r1 r2 :
  wf_json r1 = true -> wf_json r2 = true ->
  encode r1 = encode r2 -> same_record r1 r2.
Proof.
  intros Hwf1 Hwf2 Heq.
  pose proof (JSON_parse_encode r1 Hwf1) as H1.
  pose proof (JSON_parse_encode r2 Hwf2) as H2.
  rewrite Heq, H2 in H1. injection H1 as Hn.
  apply (same_record_trans _ (normalize (sort_keys r1))); [by apply same_parsed_back|].
  rewrite <- Hn. by apply same_record_sym, same_parsed_back.
Qed.

(** ** No insignificant whitespace *)

Lemma no_whitespace_String c s :
  no_whitespace (String c s) <-> is_ws c = false /\ no_whitespace s.
Proof. unfold no_whitespace. simpl. by rewrite Forall_cons. Qed.

Lemma no_whitespace_write_char c k :
  Ascii.eqb " " c = false -> no_whitespace k -> no_whitespace (write_char c k).
Proof.
  intros Hc Hk.
  destruct c as [[|] [|] [|] [|] [|] [|] [|] [|]]; try discriminate Hc;
    cbv [write_char Ascii.eqb Bool.eqb DQUOTE BACKSLASH N_of_ascii N_of_digits
         N.ltb N.compare N.add N.mul N.div N.modulo hex_digit];
    repeat (apply no_whitespace_String; split; [reflexivity|]); exact Hk.
Qed.

Lemma no_whitespace_write_chars s k :
  spaceless s = true -> no_whitespace k -> no_whitespace (write_chars s k).
Proof.
  unfold spaceless. induction s as [|c s IH]; simpl; [done|].
  intros [Hc Hs]%negb_true_iff%orb_false_iff Hk.
  apply no_whitespace_write_char; [done|]. apply IH; [|done]. by rewrite Hs.
Qed.

Lemma no_whitespace_write_string s k :
  spaceless s = true -> no_whitespace k -> no_whitespace (write_string s k).
Proof.
  intros Hs Hk. unfold write_string.
  apply no_whitespace_String. split; [done|].
  apply no_whitespace_write_chars; [done|]. by apply no_whitespace_String.
Qed.

Lemma no_whitespace_write_uint d k : no_whitespace k -> no_whitespace (write_uint d k).
Proof.
  intros Hk. induction d; simpl; [done|..]; by apply no_whitespace_String.
Qed.

Lemma no_whitespace_write_numeral l k :
  no_whitespace k -> no_whitespace (write_numeral l k).
Proof.
  intros Hk. destruct l as [[i f] [[[|] x]|]]; unfold write_numeral;
    apply no_whitespace_write_uint; destruct f;
    repeat first [ assumption
                 | apply no_whitespace_write_uint
                 | apply no_whitespace_String; split; [done|] ].
Qed.

Lemma no_whitespace_write_number n k : no_whitespace k -> no_whitespace (write_number n k).
Proof.
  intros Hk.
  assert (Hp : forall p, no_whitespace (write_natural p k)).
  { intros p. unfold write_natural. destruct (Z.pos p <? 10 ^ 21).
    - by apply no_whitespace_write_uint.
    - destruct (strip_zeros _ _) as [n' z]. cbv zeta. by apply no_whitespace_write_numeral. }
  destruct n; simpl;
    repeat (apply no_whitespace_String; split; [done|]); auto.
Qed.

Lemma no_whitespace_write_decimal m d k :
  no_whitespace k -> no_whitespace (write_decimal m d k).
Proof.
  intros Hk. unfold write_decimal. destruct (reduce d m) as [m' [|d']].
  - by apply no_whitespace_write_number.
  - destruct m'; simpl;
      repeat (apply no_whitespace_String; split; [done|]);
      auto using no_whitespace_write_numeral.
Qed.

Lemma no_whitespace_write_value v :
  forall k, no_space v = true -> no_whitespace k -> no_whitespace (write_value v k).
Proof.
  induction v as [|b|z|z d|s|items IH|props IH] using json_induction; intros k Hv Hk.
  - cbv [write_value String.append]. by repeat (apply no_whitespace_String; split; [done|]).
  - destruct b; cbv [write_value String.append];
      by repeat (apply no_whitespace_String; split; [done|]).
  - by apply no_whitespace_write_number.
  - by apply no_whitespace_write_decimal.
  - by apply no_whitespace_write_string.
  - cbn [write_value no_space] in *. apply forallb_Forall in Hv.
    apply no_whitespace_String. split; [done|].
    assert (Hk' : no_whitespace (String "]" k)) by by apply no_whitespace_String.
    destruct IH as [|x items Hx IH]; [done|].
    apply Forall_cons in Hv as [Hvx Hv]. cbn [write_seq].
    apply Hx; [done|].
    induction IH as [|y items Hy _ IH']; [done|].
    apply Forall_cons in Hv as [Hvy Hv]. cbn [fold_right].
    apply no_whitespace_String. split; [done|]. apply Hy; auto.
  - cbn [write_value no_space] in *. apply forallb_Forall in Hv.
    apply no_whitespace_String. split; [done|].
    assert (Hk' : no_whitespace (String "}" k)) by by apply no_whitespace_String.
    destruct IH as [|[key x] props Hx IH]; [done|].
    apply Forall_cons in Hv as [[Hkey Hvx]%andb_true_iff Hv]. cbn [write_seq fst snd] in *.
    apply no_whitespace_write_string; [done|].
    apply no_whitespace_String. split; [done|].
    apply Hx; [done|].
    induction IH as [|[key' y] props Hy _ IH']; [done|].
    apply Forall_cons in Hv as [[Hkey' Hvy]%andb_true_iff Hv]. cbn [fold_right fst snd] in *.
    apply no_whitespace_String. split; [done|].
    apply no_whitespace_write_string; [done|].
    apply no_whitespace_String. split; [done|]. apply Hy; auto.
Qed.

Lemma no_space_sort_keys v : no_space v = true -> no_space (sort_keys v) = true.
Proof.
  induction v as [| | | | |items IH|props IH] using json_induction; try done.
  - cbn [sort_keys no_space]. rewrite !forallb_Forall. intros Hv.
    apply Forall_fmap. rewrite Forall_forall in *. intros x Hx. simpl. apply IH; auto.
  - cbn [sort_keys no_space]. rewrite !forallb_Forall. intros Hv.
    rewrite merge_sort_Permutation. apply Forall_fmap.
    rewrite Forall_forall in *. intros kv Hkv. simpl.
    specialize (Hv kv Hkv). apply andb_true_iff in Hv as [Hk Hv].
    apply andb_true_iff. split; [done|]. apply IH; auto.
Qed.

(** The canonical text of a record without spaces in its strings has no
    whitespace at all. *)
Lemma no_whitespace_encode r :
  wf_json r = true -> no_space r = true -> no_whitespace (encode r).
Proof.
  intros Hwf Hr. rewrite encode_sort_keys by done.
  apply no_whitespace_write_value; [by apply no_space_sort_keys|constructor].
Qed.

(** Tabs and line breaks never occur in the text, and its spaces are those
    of the strings of the value: the text without its spaces is the text of
    the value without the spaces of its strings. *)

Lemma no_line_whitespace_String c s :
  no_line_whitespace (String c s) <->
  (is_ws c = true -> c = " "%char) /\ no_line_whitespace s.
Proof. unfold no_line_whitespace. simpl. by rewrite Forall_cons. Qed.

Lemma no_line_whitespace_write_char c k :
  no_line_whitespace k -> no_line_whitespace (write_char c k).
Proof.
  intros Hk.
  destruct c as [[|] [|] [|] [|] [|] [|] [|] [|]];
    cbv [write_char Ascii.eqb Bool.eqb DQUOTE BACKSLASH N_of_ascii N_of_digits
         N.ltb N.compare N.add N.mul N.div N.modulo hex_digit];
    repeat (apply no_line_whitespace_String; split; [done|]); exact Hk.
Qed.

Lemma despace_write_char c k :
  despace (write_char c k) =
    if Ascii.eqb c " " then despace k else write_char c (despace k).
Proof. destruct c as [[|] [|] [|] [|] [|] [|] [|] [|]]; reflexivity. Qed.

Lemma despace_write_chars s k :
  despace (write_chars s k) = write_chars (despace s) (despace k).
Proof.
  induction s as [|c s IH]; simpl; [done|].
  rewrite despace_write_char, IH. by destruct (Ascii.eqb c " ").
Qed.

Lemma despace_write_string s k :
  despace (write_string s k) = write_string (despace s) (despace k).
Proof. unfold write_string. simpl. by rewrite despace_write_chars. Qed.

Lemma despace_write_uint d k : despace (write_uint d k) = write_uint d (despace k).
Proof. induction d; simpl; by rewrite ?IHd. Qed.

Lemma despace_write_numeral l k :
  despace (write_numeral l k) = write_numeral l (despace k).
Proof.
  destruct l as [[i f] [[[|] x]|]]; unfold write_numeral;
    rewrite despace_write_uint; f_equal; destruct f; simpl;
    by rewrite ?despace_write_uint; simpl; rewrite ?despace_write_uint.
Qed.

Lemma despace_write_number n k : despace (write_number n k) = write_number n (despace k).
Proof.
  assert (Hp : forall p, despace (write_natural p k) = write_natural p (despace k)).
  { intros p. unfold write_natural. destruct (Z.pos p <? 10 ^ 21).
    - apply despace_write_uint.
    - destruct (strip_zeros _ _) as [n' z]. cbv zeta. apply despace_write_numeral. }
  destruct n; simpl; by rewrite ?Hp.
Qed.

Lemma despace_write_decimal m d k :
  despace (write_decimal m d k) = write_decimal m d (despace k).
Proof.
  unfold write_decimal. destruct (reduce d m) as [m' [|d']].
  - apply despace_write_number.
  - destruct m'; simpl; by rewrite ?despace_write_numeral.
Qed.

Lemma despace_write_value v :
  forall k, despace (write_value v k) = write_value (despace_json v) (despace k).
Proof.
  induction v as [|b|z|z d|s|items IH|props IH] using json_induction; intros k.
  - reflexivity.
  - by destruct b.
  - apply despace_write_number.
  - apply despace_write_decimal.
  - apply despace_write_string.
  - cbn [write_value despace_json]. cbn [despace]. cbn [Ascii.eqb Bool.eqb]. f_equal.
    destruct IH as [|x items Hx IH]; [done|].
    cbn [write_seq map]. rewrite Hx. f_equal.
    induction IH as [|y items Hy _ IH']; [done|].
    cbn [fold_right map despace Ascii.eqb Bool.eqb]. by rewrite Hy, IH'.
  - cbn [write_value despace_json]. cbn [despace]. cbn [Ascii.eqb Bool.eqb]. f_equal.
    destruct IH as [|[key x] props Hx IH]; [done|].
    cbn [write_seq map fst snd] in *.
    rewrite despace_write_string. cbn [despace Ascii.eqb Bool.eqb]. rewrite Hx.
    do 3 f_equal.
    induction IH as [|[key' y] props Hy _ IH']; [done|].
    cbn [fold_right map fst snd despace Ascii.eqb Bool.eqb] in *.
    rewrite despace_write_string. cbn [despace Ascii.eqb Bool.eqb]. by rewrite Hy, IH'.
Qed.

Lemma no_line_whitespace_write_chars s k :
  no_line_whitespace k -> no_line_whitespace (write_chars s k).
Proof.
  intros Hk. induction s as [|c s IH]; simpl; [done|].
  by apply no_line_whitespace_write_char.
Qed.

Lemma no_line_whitespace_write_string s k :
  no_line_whitespace k -> no_line_whitespace (write_string s k).
Proof.
  intros Hk. unfold write_string. apply no_line_whitespace_String. split; [done|].
  apply no_line_whitespace_write_chars. by apply no_line_whitespace_String.
Qed.

Lemma no_line_whitespace_write_uint d k :
  no_line_whitespace k -> no_line_whitespace (write_uint d k).
Proof.
  intros Hk. induction d; simpl; [done|..]; by apply no_line_whitespace_String.
Qed.

Lemma no_line_whitespace_write_numeral l k :
  no_line_whitespace k -> no_line_whitespace (write_numeral l k).
Proof.
  intros Hk. destruct l as [[i f] [[[|] x]|]]; unfold write_numeral;
    apply no_line_whitespace_write_uint; destruct f;
    repeat first [ assumption
                 | apply no_line_whitespace_write_uint
                 | apply no_line_whitespace_String; split; [done|] ].
Qed.

Lemma no_line_whitespace_write_number n k :
  no_line_whitespace k -> no_line_whitespace (write_number n k).
Proof.
  intros Hk.
  assert (Hp : forall p, no_line_whitespace (write_natural p k)).
  { intros p. unfold write_natural. destruct (Z.pos p <? 10 ^ 21).
    - by apply no_line_whitespace_write_uint.
    - destruct (strip_zeros _ _) as [n' z]. cbv zeta.
      by apply no_line_whitespace_write_numeral. }
  destruct n; simpl;
    repeat (apply no_line_whitespace_String; split; [done|]); auto.
Qed.

Lemma no_line_whitespace_write_decimal m d k :
  no_line_whitespace k -> no_line_whitespace (write_decimal m d k).
Proof.
  intros Hk. unfold write_decimal. destruct (reduce d m) as [m' [|d']].
  - by apply no_line_whitespace_write_number.
  - destruct m'; simpl;
      repeat (apply no_line_whitespace_String; split; [done|]);
      auto using no_line_whitespace_write_numeral.
Qed.

Lemma no_line_whitespace_write_value v :
  forall k, no_line_whitespace k -> no_line_whitespace (write_value v k).
Proof.
  induction v as [|b|z|z d|s|items IH|props IH] using json_induction; intros k Hk.
  - cbv [write_value String.append].
    by repeat (apply no_line_whitespace_String; split; [done|]).
  - destruct b; cbv [write_value String.append];
      by repeat (apply no_line_whitespace_String; split; [done|]).
  - by apply no_line_whitespace_write_number.
  - by apply no_line_whitespace_write_decimal.
  - by apply no_line_whitespace_write_string.
  - cbn [write_value]. apply no_line_whitespace_String. split; [done|].
    assert (Hk' : no_line_whitespace (String "]" k)) by by apply no_line_whitespace_String.
    destruct IH as [|x items Hx IH]; [done|]. cbn [write_seq]. apply Hx.
    induction IH as [|y items Hy _ IH']; [done|]. cbn [fold_right].
    apply no_line_whitespace_String. split; [done|]. by apply Hy.
  - cbn [write_value]. apply no_line_whitespace_String. split; [done|].
    assert (Hk' : no_line_whitespace (String "}" k)) by by apply no_line_whitespace_String.
    destruct IH as [|[key x] props Hx IH]; [done|]. cbn [write_seq fst snd] in *.
    apply no_line_whitespace_write_string.
    apply no_line_whitespace_String. split; [done|]. apply Hx.
    induction IH as [|[key' y] props Hy _ IH']; [done|]. cbn [fold_right fst snd] in *.
    apply no_line_whitespace_String. split; [done|].
    apply no_line_whitespace_write_string.
    apply no_line_whitespace_String. split; [done|]. by apply Hy.
Qed.

(** The whitespace of a canonical encoding is significant: no tab or line
    break, and no space but those of the strings of the record. *)
Lemma encode_whitespace r :
  wf_json r = true ->
  no_line_whitespace (encode r) /\
  despace (encode r) = JSON_stringify (despace_json (sort_keys r)).
Proof.
  intros Hwf. rewrite encode_sort_keys by done. split.
  - apply no_line_whitespace_write_value. constructor.
  - apply despace_write_value.
Qed.

(** ** The handlers, step by step *)

Lemma present_dec st id :
  present st id <->
  match states st !! id with
  | Some buf => Nat.ltb 0 (String.length buf) = true
  | None => False
  end.
Proof.
  unfold present. destruct (states st !! id) as [buf|].
  - split.
    + intros (? & [= <-] & Hne). by destruct buf.
    + intros H. exists buf. split; [done|]. by destruct buf.
  - split; [by intros (? & ? & _)|done].
Qed.

Lemma AssetExists_run id st :
  AssetExists id st =
    (Ok (match states st !! id with
         | Some buf => boolean (Nat.ltb 0 (String.length buf))
         | None => undefined
         end), st).
Proof. reflexivity. Qed.

Lemma AssetExists_present id st :
  present st id -> AssetExists id st = (Ok (boolean true), st).
Proof.
  rewrite present_dec, AssetExists_run. destruct (states st !! id); [|done]. by intros ->.
Qed.

(** The answer is falsy when no non-empty value is stored: undefined when
    the key is missing, false when the value is empty. *)
Lemma AssetExists_absent id st :
  ~ present st id ->
  exists a, AssetExists id st = (Ok a, st) /\ ToBoolean a = false /\
    (a = undefined <-> states st !! id = None).
Proof.
  rewrite present_dec, AssetExists_run. destruct (states st !! id) as [buf|].
  - destruct (Nat.ltb 0 (String.length buf)); [done|]. intros _.
    exists (boolean false). by split_and!.
  - intros _. exists undefined. by split_and!.
Qed.

Lemma ReadAsset_present id st buf :
  states st !! id = Some buf -> buf <> EmptyString -> ReadAsset id st = (Ok buf, st).
Proof.
  intros Hg Hne. unfold ReadAsset, mbind, Tx_bind, getState. rewrite Hg.
  by destruct buf.
Qed.

Lemma ReadAsset_absent id st : ~ present st id -> ReadAsset id st = (Throw (NotFound id), st).
Proof.
  rewrite present_dec. unfold ReadAsset, mbind, Tx_bind, getState.
  destruct (states st !! id) as [[|c buf]|]; simpl; done.
Qed.

Lemma CreateAsset_present id g o t v st :
  present st id -> CreateAsset id g o t v st = (Throw (AlreadyExists id), st).
Proof.
  intros Hp. unfold CreateAsset, mbind, Tx_bind. by rewrite AssetExists_present.
Qed.

Lemma CreateAsset_absent id g o t v st :
  ~ present st id ->
  CreateAsset id g o t v st =
    let asset := JObj (asset_props (mkAsset id g o t v)) in
    match rejects st id (encode asset) with
    | Some name => (Throw (StoreError name), st)
    | None => (Ok (JSON_stringify asset), stored id (encode asset) st)
    end.
Proof.
  intros (a & Hrun & Ha & _)%AssetExists_absent.
  unfold CreateAsset, mbind, Tx_bind. rewrite Hrun, Ha.
  cbn zeta. unfold putState, encode, stored. by destruct (rejects st id _).
Qed.

Lemma UpdateAsset_absent id g o t v st :
  ~ present st id -> UpdateAsset id g o t v st = (Throw (NotFound id), st).
Proof.
  intros (a & Hrun & Ha & _)%AssetExists_absent.
  unfold UpdateAsset, mbind, Tx_bind. by rewrite Hrun, Ha.
Qed.

Lemma UpdateAsset_present id g o t v st :
  present st id ->
  UpdateAsset id g o t v st =
    let asset := JObj (asset_props (mkAsset id g o t v)) in
    match rejects st id (encode asset) with
    | Some name => (Throw (StoreError name), st)
    | None => (Ok tt, stored id (encode asset) st)
    end.
Proof.
  intros Hp. unfold UpdateAsset, mbind, Tx_bind. rewrite AssetExists_present by done.
  reflexivity.
Qed.

Lemma DeleteAsset_absent id st :
  ~ present st id -> DeleteAsset id st = (Throw (NotFound id), st).
Proof.
  intros (a & Hrun & Ha & _)%AssetExists_absent.
  unfold DeleteAsset, mbind, Tx_bind. by rewrite Hrun, Ha.
Qed.

Lemma DeleteAsset_present id st :
  present st id ->
  DeleteAsset id st = (Ok tt, mkStub (delete id (states st)) (rejects st)).
Proof.
  intros Hp. unfold DeleteAsset, mbind, Tx_bind. by rewrite AssetExists_present.
Qed.

Lemma TransferAsset_absent id o st :
  ~ present st id -> TransferAsset id o st = (Throw (NotFound id), st).
Proof.
  intros Hp. unfold TransferAsset, mbind, Tx_bind. by rewrite ReadAsset_absent.
Qed.

Lemma TransferAsset_present id o st buf :
  states st !! id = Some buf -> buf <> EmptyString ->
  TransferAsset id o st =
    match JSON_parse buf with
    | None => (Throw SyntaxError, st)
    | Some asset =>
        match get_property asset "owner_name", set_property asset "owner_name" (JStr o) with
        | Ok old, Ok asset' =>
            match rejects st id (encode asset') with
            | Some name => (Throw (StoreError name), st)
            | None =>
                (Ok (JSON_stringify
                       (JObj (match old with
                              | Some x => [("oldOwnerName", x)]
                              | None => []
                              end))),
                 stored id (encode asset') st)
            end
        | Throw e, _ => (Throw e, st)
        | Ok _, Throw e => (Throw e, st)
        end
    end.
Proof.
  intros Hg Hne. unfold TransferAsset, mbind, Tx_bind.
  rewrite (ReadAsset_present id st buf) by done.
  destruct (JSON_parse buf) as [asset|]; [|done].
  unfold lift, putState, encode, stored.
  destruct (get_property asset "owner_name") as [old|e]; [|done].
  destruct (set_property asset "owner_name" (JStr o)) as [asset'|e]; [|done].
  by destruct (rejects st id _).
Qed.

Lemma encode_nonempty r : encode r <> EmptyString.
Proof.
  unfold encode, stringify, JSON_stringify.
  destruct (write_value_head (sort_keys (sortKeysRecursive r)) EmptyString)
    as (c & s & -> & _). done.
Qed.

Lemma present_stored key value st : value <> EmptyString -> present (stored key value st) key.
Proof. intros Hne. exists value. split; [apply lookup_insert_eq|done]. Qed.

Lemma present_or_absent st id : present st id \/ ~ present st id.
Proof.
  rewrite present_dec. destruct (states st !! id) as [buf|]; [|tauto].
  destruct (Nat.ltb 0 (String.length buf)); [by left|right; discriminate].
Qed.

(** ** C9: the encoder can be inverted, and re-encoding is idempotent *)

(** C9.  For every record [r] (a JavaScript value: the keys of each of its
    objects are pairwise distinct), the canonical encoding of [r] parses, the
    parsed record [r'] has the same keys with the same values as [r] at every
    depth (possibly in another order in memory), and encoding [r'] gives the
    encoding of [r] again: encode (decode (encode r)) = encode r.  The
    encoding determines the record: a record with the same encoding has the
    same keys and values. *)
Theorem encode_invertible_idempotent (r : json) :
  wf_json r = true ->
  (exists r', JSON_parse (encode r) = Some r' /\ same_record r r' /\ encode r' = encode r) /\
  (forall r2, wf_json r2 = true -> encode r2 = encode r -> same_record r r2).
Proof.
  intros Hwf. split.
  - exists (normalize (sort_keys r)).
    split; [by apply JSON_parse_encode|].
    split; [by apply same_parsed_back|].
    rewrite !encode_sort_keys; [|done|apply wf_normalize].
    f_equal. symmetry. apply sort_keys_same; [done|]. by apply same_parsed_back.
  - intros r2 Hwf2 Heq. by apply encode_injective.
Qed.

Lemma encode_invertible_idempotent_witness :
  exists r', JSON_parse (encode nested_example) = Some r' /\
             same_record nested_example r' /\ encode r' = encode nested_example.
Proof. apply encode_invertible_idempotent. reflexivity. Defined.

(** ** C7: AssetExists *)

(** C7 (as amended).  When the store answers the read, AssetExists
    returns that answer's value of [assetJSON && assetJSON.length > 0], and
    leaves the world state as it is: the boolean true if and only if a
    non-empty value is stored under id, the boolean false if and only if
    the value stored is empty, and undefined (which is falsy, but is not the
    boolean false) if and only if the store has no buffer for the key.  It
    returns true right after a CreateAsset of that id that returned, and
    undefined right after a DeleteAsset of that id that returned. *)
Theorem AssetExists_iff_present (st : ChaincodeStub) (id : string) :
  (forall assetJSON, getState id st = (Ok assetJSON, st) ->
     exists a, AssetExists id st = (Ok a, st) /\
       (a = boolean true <-> present st id) /\
       (a = boolean false <-> assetJSON = Some EmptyString) /\
       (a = undefined <-> assetJSON = None)) /\
  (forall g o t v ret st',
     CreateAsset id g o t v st = (Ok ret, st') ->
     AssetExists id st' = (Ok (boolean true), st')) /\
  (forall st', DeleteAsset id st = (Ok tt, st') -> AssetExists id st' = (Ok undefined, st')).
Proof.
  split_and!.
  - intros assetJSON [= <-]. rewrite AssetExists_run.
    pose proof (present_dec st id) as Hp.
    destruct (states st !! id) as [[|c buf]|]; eexists; (split; [reflexivity|]); simpl in *;
      split_and!; split; try done; rewrite Hp; try done; by intros [= ?].
  - intros g o t v ret st' H. destruct (present_or_absent st id) as [Hp|Ha].
    + by rewrite CreateAsset_present in H.
    + rewrite CreateAsset_absent in H by done. cbn zeta in H.
      destruct (rejects st id _); [done|]. injection H as <- <-.
      apply AssetExists_present, present_stored, encode_nonempty.
  - intros st' H. destruct (present_or_absent st id) as [Hp|Ha].
    + rewrite DeleteAsset_present in H by done. injection H as <-.
      rewrite AssetExists_run. simpl. by rewrite lookup_delete_eq.
    + by rewrite DeleteAsset_absent in H.
Qed.

(** The scenario of the specification: true after CreateAsset, and after
    DeleteAsset the answer of the store for a missing key. *)
Lemma AssetExists_iff_present_witness :
  AssetExists "asset1"
    (CreateAsset "asset1" "Chess" "Robert" "player" 100 (empty_stub accepting)).2
  = (Ok (boolean true),
     (CreateAsset "asset1" "Chess" "Robert" "player" 100 (empty_stub accepting)).2) /\
  AssetExists "asset1"
    (DeleteAsset "asset1"
       (CreateAsset "asset1" "Chess" "Robert" "player" 100 (empty_stub accepting)).2).2
  = (Ok undefined,
     (DeleteAsset "asset1"
        (CreateAsset "asset1" "Chess" "Robert" "player" 100 (empty_stub accepting)).2).2).
Proof.
  split.
  - apply (proj1 (proj2 (AssetExists_iff_present (empty_stub accepting) "asset1"))
             "Chess" "Robert" "player" 100
             (JSON_stringify
                (JObj (asset_props (mkAsset "asset1" "Chess" "Robert" "player" 100))))).
    vm_compute. reflexivity.
  - apply (proj2 (proj2 (AssetExists_iff_present
             (CreateAsset "asset1" "Chess" "Robert" "player" 100 (empty_stub accepting)).2
             "asset1"))).
    vm_compute. reflexivity.
Defined.

(** On a key that the world state does not hold, AssetExists returns the
    answer of the store, undefined, and not the boolean false: on the
    empty world state, and again once the asset is deleted. *)
Lemma AssetExists_missing_counterexample :
  AssetExists "asset1" (empty_stub accepting) = (Ok undefined, empty_stub accepting) /\
  (AssetExists "asset1"
     (DeleteAsset "asset1"
        (CreateAsset "asset1" "Chess" "Robert" "player" 100 (empty_stub accepting)).2).2).1
  = Ok undefined /\
  undefined <> boolean false.
Proof. split_and!; [reflexivity|vm_compute; reflexivity|discriminate]. Qed.

(** ** C2 and C5: CreateAsset and UpdateAsset *)

Lemma asset_wf a : wf_json (JObj (asset_props a)) = true.
Proof. reflexivity. Qed.

Lemma asset_normalize a : normalize (JObj (asset_props a)) = JObj (asset_props a).
Proof. reflexivity. Qed.

(** The stored bytes of an asset literal decode to its five fields. *)
Lemma asset_stored_fields a :
  exists props',
    JSON_parse (encode (JObj (asset_props a))) = Some (JObj props') /\
    forall key, obj_get key props' = obj_get key (asset_props a).
Proof.
  destruct (JSON_parse_encode_obj (asset_props a) (asset_wf a)) as (props' & Hp & Hget).
  exists props'. split; [done|]. intros key. rewrite Hget.
  unfold asset_props. simpl. by repeat case_match.
Qed.

Lemma asset_return_not_canonical a :
  JSON_stringify (JObj (asset_props a)) <> encode (JObj (asset_props a)).
Proof.
  rewrite encode_sort_keys by apply asset_wf.
  intros H. apply (f_equal (String.get 2)) in H. lazy in H. discriminate H.
Qed.

(** C2 (as amended).  CreateAsset fails with AlreadyExists, changing nothing,
    when a non-empty value is stored under id.  Otherwise, when the store
    accepts the write, it builds the record with exactly the five fields id,
    game_name, owner_name, owner_type, game_value (no docType), stores its
    canonical encoding under id, and returns the JSON text of the record with
    the fields in the order of the literal.  The returned text decodes to the
    record, as the stored bytes do, but it is not the canonical encoding. *)
Theorem CreateAsset_spec (st : ChaincodeStub) (id g o t : string) (v : Z) :
  (present st id -> CreateAsset id g o t v st = (Throw (AlreadyExists id), st)) /\
  (~ present st id ->
   rejects st id (encode (JObj (asset_props (mkAsset id g o t v)))) = None ->
   CreateAsset id g o t v st =
     (Ok (JSON_stringify (JObj (asset_props (mkAsset id g o t v)))),
      stored id (encode (JObj (asset_props (mkAsset id g o t v)))) st)) /\
  (asset_props (mkAsset id g o t v)).*1
    = ["id"; "game_name"; "owner_name"; "owner_type"; "game_value"] /\
  obj_get "docType" (asset_props (mkAsset id g o t v)) = None /\
  JSON_parse (JSON_stringify (JObj (asset_props (mkAsset id g o t v))))
    = Some (JObj (asset_props (mkAsset id g o t v))) /\
  (exists props',
     JSON_parse (encode (JObj (asset_props (mkAsset id g o t v)))) = Some (JObj props') /\
     forall key, obj_get key props' = obj_get key (asset_props (mkAsset id g o t v))) /\
  JSON_stringify (JObj (asset_props (mkAsset id g o t v)))
    <> encode (JObj (asset_props (mkAsset id g o t v))).
Proof.
  split_and!.
  - apply CreateAsset_present.
  - intros Ha Hr. rewrite CreateAsset_absent by done. cbn zeta. by rewrite Hr.
  - reflexivity.
  - reflexivity.
  - by rewrite JSON_parse_stringify, asset_normalize.
  - apply asset_stored_fields.
  - apply asset_return_not_canonical.
Qed.

(** On the empty world state, CreateAsset returns a text that is not the
    canonical encoding it has just stored: its keys are not in ascending
    order. *)
Lemma CreateAsset_return_counterexample :
  exists ret st',
    CreateAsset "asset1" "Chess" "Robert" "player" 100 (empty_stub accepting) = (Ok ret, st') /\
    states st' !! "asset1"
      = Some (encode (JObj (asset_props (mkAsset "asset1" "Chess" "Robert" "player" 100)))) /\
    ret <> encode (JObj (asset_props (mkAsset "asset1" "Chess" "Robert" "player" 100))) /\
    exists record, JSON_parse ret = Some record /\ keys_sorted record = false.
Proof.
  exists (JSON_stringify (JObj (asset_props (mkAsset "asset1" "Chess" "Robert" "player" 100)))),
    (stored "asset1"
       (encode (JObj (asset_props (mkAsset "asset1" "Chess" "Robert" "player" 100))))
       (empty_stub accepting)).
  split_and!.
  - rewrite CreateAsset_absent; [reflexivity|]. intros (buf & Hg & _). discriminate Hg.
  - apply lookup_insert_eq.
  - apply asset_return_not_canonical.
  - eexists. split; [apply JSON_parse_stringify|reflexivity].
Qed.

Lemma CreateAsset_spec_witness :
  CreateAsset "asset1" "Chess" "Robert" "player" 100
    (stored "asset1" "x" (empty_stub accepting))
  = (Throw (AlreadyExists "asset1"), stored "asset1" "x" (empty_stub accepting)) /\
  CreateAsset "asset1" "Chess" "Robert" "player" 100 (empty_stub accepting)
  = (Ok (JSON_stringify (JObj (asset_props (mkAsset "asset1" "Chess" "Robert" "player" 100)))),
     stored "asset1" (encode (JObj (asset_props (mkAsset "asset1" "Chess" "Robert" "player" 100))))
       (empty_stub accepting)).
Proof.
  split.
  - apply (CreateAsset_spec (stored "asset1" "x" (empty_stub accepting))).
    exists "x". split; [reflexivity|discriminate].
  - apply (CreateAsset_spec (empty_stub accepting)); [|reflexivity].
    intros (buf & Hg & _). discriminate Hg.
Defined.

Lemma record_of_wf tag a : wf_json (record_of tag a) = true.
Proof. by destruct tag. Qed.

(** The canonical encoding of an asset record, spelled out. *)
Lemma encode_record_of tag a :
  encode (record_of tag a) = JSON_stringify (JObj (stored_props tag a)).
Proof. rewrite encode_sort_keys by apply record_of_wf. by destruct tag. Qed.

Lemma JSON_parse_record_of tag a :
  JSON_parse (encode (record_of tag a)) = Some (JObj (stored_props tag a)).
Proof. rewrite JSON_parse_encode by apply record_of_wf. by destruct tag. Qed.

(** C5.  When a non-empty value is stored under id and the store accepts the
    write, UpdateAsset replaces the stored value by the canonical encoding of
    the record built from its five parameters alone: the compact JSON text
    of the fields game_name, game_value, id, owner_name and owner_type, in
    this order, with the values given to UpdateAsset.  Whatever was stored
    before, the new value decodes to exactly these five fields, so a docType
    that the old record carried is gone. *)
Theorem UpdateAsset_replaces (st : ChaincodeStub) (id g o t : string) (v : Z) :
  present st id ->
  rejects st id
    (JSON_stringify
       (JObj [("game_name", JStr g); ("game_value", JNum v); ("id", JStr id);
              ("owner_name", JStr o); ("owner_type", JStr t)])) = None ->
  UpdateAsset id g o t v st
    = (Ok tt,
       stored id
         (JSON_stringify
            (JObj [("game_name", JStr g); ("game_value", JNum v); ("id", JStr id);
                   ("owner_name", JStr o); ("owner_type", JStr t)])) st) /\
  states (UpdateAsset id g o t v st).2 !! id
    = Some (JSON_stringify
              (JObj [("game_name", JStr g); ("game_value", JNum v); ("id", JStr id);
                     ("owner_name", JStr o); ("owner_type", JStr t)])) /\
  (forall buf, states (UpdateAsset id g o t v st).2 !! id = Some buf ->
     JSON_parse buf
     = Some (JObj [("game_name", JStr g); ("game_value", JNum v); ("id", JStr id);
                   ("owner_name", JStr o); ("owner_type", JStr t)])) /\
  obj_get "docType"
    [("game_name", JStr g); ("game_value", JNum v); ("id", JStr id);
     ("owner_name", JStr o); ("owner_type", JStr t)] = None.
Proof.
  intros Hp Hr.
  pose proof (encode_record_of false (mkAsset id g o t v)) as Henc.
  pose proof (JSON_parse_record_of false (mkAsset id g o t v)) as Hparse.
  cbn [record_of stored_props app asset_id game_name owner_name owner_type game_value]
    in Henc, Hparse.
  assert (Hrun : UpdateAsset id g o t v st
    = (Ok tt,
       stored id
         (JSON_stringify
            (JObj [("game_name", JStr g); ("game_value", JNum v); ("id", JStr id);
                   ("owner_name", JStr o); ("owner_type", JStr t)])) st)).
  { rewrite UpdateAsset_present by done. cbn zeta. by rewrite Henc, Hr. }
  rewrite Hrun. cbn [snd stored states]. rewrite lookup_insert_eq.
  split_and!; [done..| |done].
  intros buf [= <-]. by rewrite <- Henc.
Qed.

(** The record that InitLedger stores for asset1 carries docType; after
    UpdateAsset it does not. *)
Lemma UpdateAsset_replaces_witness :
  (exists buf props,
     states (InitLedger (empty_stub accepting)).2 !! "asset1" = Some buf /\
     JSON_parse buf = Some (JObj props) /\
     obj_get "docType" props = Some (JStr "asset")) /\
  states (UpdateAsset "asset1" "Chess" "Me" "player" 500
            (InitLedger (empty_stub accepting)).2).2 !! "asset1"
  = Some (JSON_stringify
            (JObj [("game_name", JStr "Chess"); ("game_value", JNum 500);
                   ("id", JStr "asset1"); ("owner_name", JStr "Me");
                   ("owner_type", JStr "player")])) /\
  JSON_parse
    (JSON_stringify
       (JObj [("game_name", JStr "Chess"); ("game_value", JNum 500);
              ("id", JStr "asset1"); ("owner_name", JStr "Me");
              ("owner_type", JStr "player")]))
  = Some (JObj [("game_name", JStr "Chess"); ("game_value", JNum 500);
                ("id", JStr "asset1"); ("owner_name", JStr "Me");
                ("owner_type", JStr "player")]).
Proof.
  split.
  - do 2 eexists. split; [vm_compute; reflexivity|]. split; vm_compute; reflexivity.
  - destruct (UpdateAsset_replaces (InitLedger (empty_stub accepting)).2
                "asset1" "Chess" "Me" "player" 500) as (_ & Hstored & Hparse & _).
    + eexists. split; [vm_compute; reflexivity|discriminate].
    + reflexivity.
    + split; [exact Hstored|]. by apply Hparse.
Defined.

(** ** C3: TransferAsset *)

Lemma wf_obj_get key props x :
  wf_json (JObj props) = true -> obj_get key props = Some x -> wf_json x = true.
Proof.
  intros [_ Hwf]%wf_json_obj Hg. apply obj_get_Some_elem in Hg.
  rewrite Forall_forall in Hwf. by apply (Hwf (key, x)).
Qed.

Lemma wf_obj_set key x props :
  wf_json x = true -> wf_json (JObj props) = true ->
  wf_json (JObj (obj_set key x props)) = true.
Proof.
  intros Hx [Hnd Hwf]%wf_json_obj. apply wf_json_obj. split; [by apply obj_set_NoDup|].
  rewrite Forall_forall in *. intros kv [-> | Hkv]%obj_set_elem; [done|auto].
Qed.

(** ** Values that JavaScript holds as they are *)

Lemma exact_arr items :
  exact (JArr items) = true <-> Forall (fun v => exact v = true) items.
Proof. apply forallb_Forall. Qed.

Lemma exact_obj props :
  exact (JObj props) = true <->
  Forall (fun kv => exact_text kv.1 = true /\ exact kv.2 = true) props.
Proof.
  cbn [exact]. rewrite forallb_Forall. apply Forall_iff. intros kv.
  by rewrite andb_true_iff.
Qed.

Lemma exact_obj_set key x props :
  exact_text key = true -> exact x = true -> exact (JObj props) = true ->
  exact (JObj (obj_set key x props)) = true.
Proof.
  rewrite !exact_obj, !Forall_forall. intros Hk Hx Hp kv [-> | Hkv]%obj_set_elem; auto.
Qed.

Lemma exact_sort_keys v : exact v = true -> exact (sort_keys v) = true.
Proof.
  induction v as [| | | | |items IH|props IH] using json_induction; try done.
  - cbn [sort_keys]. rewrite !exact_arr. intros He. apply Forall_fmap.
    rewrite Forall_forall in *. intros x Hx. simpl. auto.
  - cbn [sort_keys]. rewrite !exact_obj. intros He.
    rewrite merge_sort_Permutation. apply Forall_fmap.
    rewrite Forall_forall in *. intros kv Hkv. simpl.
    destruct (He kv Hkv). auto.
Qed.

Lemma exact_normalize v : wf_json v = true -> exact v = true -> exact (normalize v) = true.
Proof.
  induction v as [| | |m k| |items IH|props IH] using json_induction; try done.
  - intros Hwf He. cbn [normalize]. by rewrite number_canonical.
  - cbn [normalize]. rewrite wf_json_arr, !exact_arr. intros Hwf He. apply Forall_fmap.
    rewrite Forall_forall in *. intros x Hx. simpl. auto.
  - cbn [normalize]. rewrite wf_json_obj, !exact_obj. intros [_ Hwf] He.
    apply Forall_obj_of_entries, Forall_fmap.
    rewrite Forall_forall in *. intros kv Hkv. simpl.
    destruct (He kv Hkv). auto.
Qed.

(** What is read back from the canonical encoding of such a value is such
    a value. *)
Lemma exact_parsed_back r r' :
  wf_json r = true -> exact r = true -> JSON_parse (encode r) = Some r' -> exact r' = true.
Proof.
  intros Hwf He. rewrite JSON_parse_encode by done. intros [= <-].
  apply exact_normalize; [by apply wf_sort_keys|by apply exact_sort_keys].
Qed.

(** The record that TransferAsset stores, read back: the new owner, and
    every other property as it was. *)
Lemma transferred_fields props o :
  wf_json (JObj props) = true ->
  exists props',
    JSON_parse (encode (JObj (obj_set "owner_name" (JStr o) props))) = Some (JObj props') /\
    obj_get "owner_name" props' = Some (JStr o) /\
    (forall key, key <> "owner_name" ->
       obj_get key props' = (fun x => normalize (sort_keys x)) <$> obj_get key props).
Proof.
  intros Hwf.
  destruct (JSON_parse_encode_obj (obj_set "owner_name" (JStr o) props))
    as (props' & Hparse & Hget); [by apply wf_obj_set|].
  exists props'. split; [done|]. split.
  - rewrite Hget, obj_get_set. by rewrite decide_True.
  - intros key Hkey. rewrite Hget, obj_get_set. by rewrite decide_False.
Qed.

(** C3 (as amended).  When a non-empty value is stored under id that
    decodes to a record (an object) which JavaScript holds as it is, and the
    store accepts the write, TransferAsset stores the canonical encoding of
    that record with owner_name set to the new owner; a ReadAsset that follows
    returns these bytes, which decode to a record whose owner_name is the
    new owner and whose other fields are those of the old record (the same
    keys with the same values; equal when the value is a string, a number, a
    boolean or null).  It returns, instead of the record or of the bare
    name, the JSON text of an object with the single property oldOwnerName
    (not old_owner_name), which holds the captured prior owner_name, or of
    the empty object when the old record had no owner_name; when the prior
    owner is a string, the returned text decodes to that one property with
    that string.  When the name of the new owner has no U+FFFD either, the
    record written back is again one that JavaScript holds as it is. *)
Theorem TransferAsset_spec (st : ChaincodeStub) (id o buf : string)
    (props : list (string * json)) :
  states st !! id = Some buf -> buf <> EmptyString ->
  JSON_parse buf = Some (JObj props) ->
  exact (JObj props) = true ->
  rejects st id (encode (JObj (obj_set "owner_name" (JStr o) props))) = None ->
  exists props',
    TransferAsset id o st
      = (Ok (JSON_stringify
               (JObj (match obj_get "owner_name" props with
                      | Some old => [("oldOwnerName", old)]
                      | None => []
                      end))),
         stored id (encode (JObj (obj_set "owner_name" (JStr o) props))) st) /\
    ReadAsset id (TransferAsset id o st).2
      = (Ok (encode (JObj (obj_set "owner_name" (JStr o) props))), (TransferAsset id o st).2) /\
    JSON_parse (encode (JObj (obj_set "owner_name" (JStr o) props))) = Some (JObj props') /\
    obj_get "owner_name" props' = Some (JStr o) /\
    (forall key, key <> "owner_name" ->
       option_Forall2 same_record (obj_get key props) (obj_get key props')) /\
    (forall key x, key <> "owner_name" -> obj_get key props = Some x ->
       is_scalar x = true -> obj_get key props' = Some x) /\
    (forall old ret, obj_get "owner_name" props = Some (JStr old) ->
       (TransferAsset id o st).1 = Ok ret ->
       JSON_parse ret = Some (JObj [("oldOwnerName", JStr old)])) /\
    (exact_text o = true -> exact (JObj props') = true).
Proof.
  intros Hg Hne Hparse Hexact Hr.
  pose proof (wf_JSON_parse _ _ Hparse) as Hwf.
  destruct (transferred_fields props o Hwf) as (props' & Hparse' & Howner & Hother).
  exists props'.
  assert (Hrun : TransferAsset id o st
      = (Ok (JSON_stringify
               (JObj (match obj_get "owner_name" props with
                      | Some old => [("oldOwnerName", old)]
                      | None => []
                      end))),
         stored id (encode (JObj (obj_set "owner_name" (JStr o) props))) st)).
  { rewrite (TransferAsset_present id o st buf) by done. rewrite Hparse. simpl.
    by rewrite Hr. }
  split_and!; [done| |done|done| | | |].
  - rewrite Hrun. apply ReadAsset_present; [apply lookup_insert_eq|apply encode_nonempty].
  - intros key Hkey. rewrite (Hother key Hkey).
    destruct (obj_get key props) as [x|] eqn:Hx; constructor.
    apply same_parsed_back. by eapply wf_obj_get.
  - intros key x Hkey Hx Hs. rewrite (Hother key Hkey), Hx. simpl.
    rewrite normalize_sort_scalar; [done..|]. by eapply wf_obj_get.
  - intros old ret Hold. rewrite Hrun, Hold. intros [= <-].
    by rewrite JSON_parse_stringify.
  - intros Ho.
    apply (exact_parsed_back (JObj (obj_set "owner_name" (JStr o) props)));
      [by apply wf_obj_set|by apply exact_obj_set|done].
Qed.

(** An asset whose game value is 1.5 goes from Robert to Paul: the value
    is read, kept and written back as it is. *)
Lemma TransferAsset_spec_witness :
  exists props',
    TransferAsset "asset1" "Paul"
      (stored "asset1" (JSON_stringify decimal_example) (empty_stub accepting))
      = (Ok (JSON_stringify (JObj [("oldOwnerName", JStr "Robert")])),
         stored "asset1"
           (JSON_stringify
              (JObj [("game_name", JStr "Chess"); ("game_value", JDec 15 1);
                     ("id", JStr "asset1"); ("owner_name", JStr "Paul");
                     ("owner_type", JStr "player")]))
           (empty_stub accepting)) /\
    JSON_parse
      (JSON_stringify
         (JObj [("game_name", JStr "Chess"); ("game_value", JDec 15 1);
                ("id", JStr "asset1"); ("owner_name", JStr "Paul");
                ("owner_type", JStr "player")]))
      = Some (JObj props') /\
    obj_get "owner_name" props' = Some (JStr "Paul") /\
    obj_get "game_name" props' = Some (JStr "Chess") /\
    obj_get "game_value" props' = Some (JDec 15 1).
Proof.
  destruct (TransferAsset_spec
              (stored "asset1" (JSON_stringify decimal_example) (empty_stub accepting))
              "asset1" "Paul" (JSON_stringify decimal_example)
              [("game_name", JStr "Chess"); ("game_value", JDec 15 1); ("id", JStr "asset1");
               ("owner_name", JStr "Robert"); ("owner_type", JStr "player")])
    as (props' & Hrun & _ & Hparse & Howner & _ & Hsame & _).
  - reflexivity.
  - discriminate.
  - vm_compute. reflexivity.
  - vm_compute. reflexivity.
  - reflexivity.
  - exists props'. split_and!.
    + rewrite Hrun. vm_compute. reflexivity.
    + rewrite <- Hparse. vm_compute. reflexivity.
    + exact Howner.
    + by apply Hsame.
    + by apply Hsame.
Defined.

(** What TransferAsset returns for asset1 of Robert is the text of an
    object whose one property is named oldOwnerName: it has no property
    old_owner_name, and it is not the name itself. *)
Lemma TransferAsset_return_counterexample :
  (TransferAsset "asset1" "Paul"
     (CreateAsset "asset1" "Chess" "Robert" "player" 100 (empty_stub accepting)).2).1
  = Ok (JSON_stringify (JObj [("oldOwnerName", JStr "Robert")])) /\
  JSON_parse (JSON_stringify (JObj [("oldOwnerName", JStr "Robert")]))
  = Some (JObj [("oldOwnerName", JStr "Robert")]) /\
  obj_get "old_owner_name" [("oldOwnerName", JStr "Robert")] = None /\
  JSON_stringify (JObj [("oldOwnerName", JStr "Robert")]) <> "Robert".
Proof. split_and!; [vm_compute; reflexivity..|discriminate]. Qed.

Lemma same_record_wf v :
  forall v', wf_json v = true -> same_record v v' -> wf_json v' = true.
Proof.
  induction v as [| | | | |items IH|props IH] using json_induction;
    intros v' Hwf Hs; inversion Hs; subst; try done.
  - apply wf_json_arr in Hwf. apply wf_json_arr. clear Hs.
    match goal with H : Forall2 same_record _ _ |- _ => induction H as [|x y l k Hxy _ IHl] end;
      [done|].
    apply Forall_cons in IH as [IHx IH]. apply Forall_cons in Hwf as [Hx Hwf].
    constructor; [by apply IHx|by apply IHl].
  - apply wf_json_obj in Hwf as [Hnd Hwf]. apply wf_json_obj.
    match goal with H : Forall2 _ props ?m1 |- _ => rename H into HF; rename m1 into mid end.
    match goal with H : mid ≡ₚ _ |- _ => rewrite <- H end.
    assert (mid.*1 = props.*1 /\ Forall (fun kv => wf_json kv.2 = true) mid) as [Hk Hv].
    { clear -HF IH Hwf. induction HF as [|[k x] [k' y] l l' [Hk Hxy] _ IHl]; [done|].
      apply Forall_cons in IH as [IHx IH]. apply Forall_cons in Hwf as [Hx Hwf].
      destruct (IHl IH Hwf) as [Hkeys Hvals]. simpl in *. subst k'. split.
      - csimpl. by f_equal.
      - constructor; [by apply IHx|done]. }
    by rewrite Hk.
Qed.

(** ** Loops of writes *)

Lemma for_each_cons {A} (body : A -> Tx unit) x l st :
  for_each body (x :: l) st =
    match body x st with
    | (Ok _, st') => for_each body l st'
    | (Throw e, st') => (Throw e, st')
    end.
Proof. reflexivity. Qed.

Lemma putState_run key value st :
  putState key value st =
    match rejects st key value with
    | Some name => (Throw (StoreError name), st)
    | None => (Ok tt, stored key value st)
    end.
Proof. reflexivity. Qed.

(** Whatever a loop of writes leaves under a key was there before or is
    one of the values it writes. *)
Lemma for_each_put_lookup {A} (f g : A -> string) l st key value :
  states (for_each (fun a => putState (f a) (g a)) l st).2 !! key = Some value ->
  states st !! key = Some value \/ exists a, a ∈ l /\ key = f a /\ value = g a.
Proof.
  revert st. induction l as [|x l IH]; intros st; [by left|].
  rewrite for_each_cons, putState_run.
  destruct (rejects st (f x) (g x)) as [name|] eqn:Hr; [by left|].
  intros [H | (a & Ha & -> & ->)]%IH.
  - simpl in H. destruct (decide (f x = key)) as [<-|Hne].
    + rewrite lookup_insert_eq in H. injection H as <-. right. exists x. split; [left|done].
    + rewrite lookup_insert_ne in H by done. by left.
  - right. exists a. split; [by right|done].
Qed.

(** ** C1: every write is the canonical encoding of its record *)

Lemma tagged_wf a : wf_json (tagged a) = true.
Proof. reflexivity. Qed.

(** What an invocation leaves under a key was there before, or is the
    encoding of the record that the invocation writes under that key. *)
Lemma invoke_writes i st key value :
  states (invoke i st) !! key = Some value ->
  states st !! key = Some value \/
  exists record, writes i st key record /\ wf_json record = true /\ value = encode record.
Proof.
  destruct i as [|id g o t v|id g o t v|id o|id]; cbn [invoke writes].
  - unfold InitLedger. intros [H | (a & Ha & -> & ->)]%for_each_put_lookup; [by left|].
    right. exists (tagged a). split; [by exists a|]. split; [apply tagged_wf|done].
  - destruct (present_or_absent st id) as [Hp|Ha].
    + rewrite CreateAsset_present by done. by left.
    + rewrite CreateAsset_absent by done. cbn zeta.
      destruct (rejects st id _); [by left|]. simpl.
      destruct (decide (id = key)) as [<-|Hne].
      * rewrite lookup_insert_eq. intros [= <-]. right.
        eexists. split; [done|]. split; [apply asset_wf|done].
      * rewrite lookup_insert_ne by done. by left.
  - destruct (present_or_absent st id) as [Hp|Ha].
    + rewrite UpdateAsset_present by done. cbn zeta.
      destruct (rejects st id _); [by left|]. simpl.
      destruct (decide (id = key)) as [<-|Hne].
      * rewrite lookup_insert_eq. intros [= <-]. right.
        eexists. split; [done|]. split; [apply asset_wf|done].
      * rewrite lookup_insert_ne by done. by left.
    + rewrite UpdateAsset_absent by done. by left.
  - destruct (present_or_absent st id) as [(buf & Hg & Hne)|Ha].
    + rewrite (TransferAsset_present id o st buf) by done.
      destruct (JSON_parse buf) as [asset|] eqn:Hparse; [|by left].
      destruct (get_property asset "owner_name") as [old|e]; [|by left].
      destruct (set_property asset "owner_name" (JStr o)) as [asset'|e] eqn:Hset; [|by left].
      destruct (rejects st id _); [by left|]. simpl.
      destruct (decide (id = key)) as [<-|Hne'].
      * rewrite lookup_insert_eq. intros [= <-]. right.
        exists asset'. split; [split; [done|]; by exists buf, asset|]. split; [|done].
        pose proof (wf_JSON_parse _ _ Hparse) as Hwf.
        destruct asset; simplify_eq/=; [done|].
        by apply wf_obj_set.
      * rewrite lookup_insert_ne by done. by left.
    + rewrite TransferAsset_absent by done. by left.
  - destruct (present_or_absent st id) as [Hp|Ha].
    + rewrite DeleteAsset_present by done. simpl.
      destruct (decide (id = key)) as [<-|Hne].
      * by rewrite lookup_delete_eq.
      * rewrite lookup_delete_ne by done. by left.
    + rewrite DeleteAsset_absent by done. by left.
Qed.

(** C1.  Whatever InitLedger, CreateAsset, UpdateAsset or TransferAsset
    leaves under a key, unless it was there before, is the canonical encoding
    of the record that the operation writes under that key: the compact text
    of the record with the keys of every object, at every depth, in strictly
    ascending order.  This text has no tab or line break, and no space but
    those of the strings of the record (so none at all when no key or string
    of the record contains a space); and it is the same for every record with
    the same keys and values, in whatever order its fields were set. *)
Theorem writes_are_canonical (i : Invocation) (st : ChaincodeStub) (key value : string) :
  states (invoke i st) !! key = Some value ->
  states st !! key = Some value \/
  exists record,
    writes i st key record /\
    value = encode record /\
    encode record = JSON_stringify (sort_keys record) /\
    keys_sorted (sort_keys record) = true /\
    no_line_whitespace value /\
    despace value = JSON_stringify (despace_json (sort_keys record)) /\
    (no_space record = true -> no_whitespace value) /\
    (forall record', same_record record record' -> encode record' = value).
Proof.
  intros [H | (record & Hw & Hwf & ->)]%invoke_writes; [by left|].
  right. exists record. split_and!; [done..| | | | | |].
  - by apply encode_sort_keys.
  - by apply keys_sorted_sort_keys.
  - by apply encode_whitespace.
  - by apply encode_whitespace.
  - by apply no_whitespace_encode.
  - intros record' Hs.
    assert (sort_keys record = sort_keys record') as Hsort by by apply sort_keys_same.
    rewrite (encode_sort_keys record) by done.
    rewrite encode_sort_keys, Hsort; [done|]. by apply (same_record_wf record).
Qed.

Lemma writes_are_canonical_witness :
  exists record,
    writes (InvTransferAsset "asset2" "Me") (InitLedger (empty_stub accepting)).2
      "asset2" record /\
    encode record = JSON_stringify (sort_keys record) /\
    keys_sorted (sort_keys record) = true /\
    no_whitespace (encode record).
Proof.
  destruct (writes_are_canonical (InvTransferAsset "asset2" "Me")
              (InitLedger (empty_stub accepting)).2 "asset2"
              (encode (JObj (obj_set "owner_name" (JStr "Me")
                               (obj_set "docType" (JStr "asset")
                                  (asset_props (mkAsset "asset2" "game2" "Brad" "player" 400)))))))
    as [Hold | (record & Hw & Hv & Henc & Hsorted & _ & _ & Hws & _)].
  - vm_compute. reflexivity.
  - vm_compute in Hold. discriminate Hold.
  - exists record. split_and!; [done..|].
    rewrite <- Hv. apply Hws.
    destruct Hw as (_ & buf & asset & Hbuf & Hparse & Hset).
    vm_compute in Hbuf. injection Hbuf as <-.
    vm_compute in Hparse. injection Hparse as <-.
    vm_compute in Hset. injection Hset as <-. reflexivity.
Defined.

(** ** C8: InitLedger *)

Lemma seeded_rejects l st : rejects (seeded l st) = rejects st.
Proof. revert st. induction l as [|a l IH]; intros st; simpl; [done|]. by rewrite IH. Qed.

Lemma seeded_lookup_other l st key :
  key ∉ asset_id <$> l -> states (seeded l st) !! key = states st !! key.
Proof.
  revert st. induction l as [|a l IH]; intros st; csimpl; [done|].
  intros [Hne Hl]%not_elem_of_cons. rewrite IH by done. simpl.
  by rewrite lookup_insert_ne.
Qed.

Lemma seeded_lookup l st a :
  NoDup (asset_id <$> l) -> a ∈ l ->
  states (seeded l st) !! asset_id a = Some (encode (tagged a)).
Proof.
  revert st. induction l as [|b l IH]; intros st; csimpl; [by intros _ ?%elem_of_nil|].
  intros [Hb Hnd]%NoDup_cons [-> | Ha]%elem_of_cons.
  - rewrite seeded_lookup_other by done. apply lookup_insert_eq.
  - by apply IH.
Qed.

Lemma InitLedger_loop_ok l st :
  (forall a, a ∈ l -> rejects st (asset_id a) (encode (tagged a)) = None) ->
  for_each (fun asset =>
      putState (asset_id asset) (stringify (sortKeysRecursive (tagged asset)))) l st
  = (Ok tt, seeded l st).
Proof.
  revert st. induction l as [|a l IH]; intros st Hok; [done|].
  rewrite for_each_cons, putState_run.
  change (stringify (sortKeysRecursive (tagged a))) with (encode (tagged a)).
  rewrite Hok by left. simpl. apply IH.
  intros b Hb. apply Hok. by right.
Qed.

Lemma InitLedger_loop_fail pre a post st name :
  (forall b, b ∈ pre -> rejects st (asset_id b) (encode (tagged b)) = None) ->
  rejects st (asset_id a) (encode (tagged a)) = Some name ->
  for_each (fun asset =>
      putState (asset_id asset) (stringify (sortKeysRecursive (tagged asset))))
    (pre ++ a :: post)%list st
  = (Throw (StoreError name), seeded pre st).
Proof.
  revert st. induction pre as [|b pre IH]; intros st Hok Hfail.
  - cbn [app]. rewrite for_each_cons, putState_run.
    change (stringify (sortKeysRecursive (tagged a))) with (encode (tagged a)).
    by rewrite Hfail.
  - cbn [app]. rewrite for_each_cons, putState_run.
    change (stringify (sortKeysRecursive (tagged b))) with (encode (tagged b)).
    rewrite Hok by left. simpl. apply IH.
    + intros c Hc. apply Hok. by right.
    + done.
Qed.

(** The stored bytes of a seed record decode to its fields and the tag. *)
Lemma tagged_stored_fields a :
  exists props',
    JSON_parse (encode (tagged a)) = Some (JObj props') /\
    obj_get "docType" props' = Some (JStr "asset") /\
    forall key, key <> "docType" -> obj_get key props' = obj_get key (asset_props a).
Proof.
  destruct (JSON_parse_encode_obj (obj_set "docType" (JStr "asset") (asset_props a)))
    as (props' & Hparse & Hget); [apply tagged_wf|].
  exists props'. split; [done|]. split.
  - rewrite Hget, obj_get_set. by rewrite decide_True.
  - intros key Hkey. rewrite Hget, obj_get_set. rewrite decide_False by done.
    unfold asset_props. simpl. by repeat case_match.
Qed.

Lemma assets_NoDup : NoDup (asset_id <$> assets).
Proof. by apply (bool_decide_unpack _). Qed.

(** C8.  InitLedger writes the six seed records asset1 to asset6, in this
    order, each under its id and as the canonical encoding of the record with
    docType set to the string asset.  When the store accepts them all, all
    are stored.  When the store refuses the write of one of them, InitLedger
    fails with the error of the store, the records before it stay stored, and
    no other key has changed. *)
Theorem InitLedger_spec (st : ChaincodeStub) :
  asset_id <$> assets = ["asset1"; "asset2"; "asset3"; "asset4"; "asset5"; "asset6"] /\
  (forall a, exists props',
     JSON_parse (encode (tagged a)) = Some (JObj props') /\
     obj_get "docType" props' = Some (JStr "asset") /\
     forall key, key <> "docType" -> obj_get key props' = obj_get key (asset_props a)) /\
  ((forall a, a ∈ assets -> rejects st (asset_id a) (encode (tagged a)) = None) ->
   InitLedger st = (Ok tt, seeded assets st) /\
   forall a, a ∈ assets -> states (seeded assets st) !! asset_id a = Some (encode (tagged a))) /\
  (forall pre a post name,
     assets = (pre ++ a :: post)%list ->
     (forall b, b ∈ pre -> rejects st (asset_id b) (encode (tagged b)) = None) ->
     rejects st (asset_id a) (encode (tagged a)) = Some name ->
     InitLedger st = (Throw (StoreError name), seeded pre st) /\
     (forall b, b ∈ pre -> states (seeded pre st) !! asset_id b = Some (encode (tagged b))) /\
     (forall key, key ∉ asset_id <$> pre -> states (seeded pre st) !! key = states st !! key)).
Proof.
  split_and!.
  - reflexivity.
  - apply tagged_stored_fields.
  - intros Hok. split; [by apply InitLedger_loop_ok|].
    intros a Ha. apply seeded_lookup; [apply assets_NoDup|done].
  - intros pre a post name Heq Hok Hfail. split_and!.
    + unfold InitLedger. rewrite Heq. by apply InitLedger_loop_fail.
    + intros b Hb. apply seeded_lookup; [|done].
      pose proof assets_NoDup as Hnd. rewrite Heq, fmap_app in Hnd.
      by apply NoDup_app in Hnd as [? _].
    + intros key Hkey. by apply seeded_lookup_other.
Qed.

(** With a store that refuses asset4, InitLedger fails with the error of
    the store and asset1 to asset3 stay written. *)
Lemma InitLedger_spec_witness :
  InitLedger (empty_stub refuses_asset4)
    = (Throw (StoreError "failed inserting key"),
       seeded [mkAsset "asset1" "game1" "Tomoko" "player" 300;
               mkAsset "asset2" "game2" "Brad" "player" 400;
               mkAsset "asset3" "game3" "Jin Soo" "player" 500] (empty_stub refuses_asset4)) /\
  InitLedger (empty_stub accepting) = (Ok tt, seeded assets (empty_stub accepting)).
Proof.
  split.
  - apply (InitLedger_spec (empty_stub refuses_asset4)) with
      (a := mkAsset "asset4" "game4" "Max" "player" 600)
      (post := [mkAsset "asset5" "game5" "Adriana" "player" 700;
                mkAsset "asset6" "game6" "Michel" "player" 800]).
    + reflexivity.
    + intros b Hb. repeat (apply elem_of_cons in Hb as [-> | Hb]; [reflexivity|]).
      by apply elem_of_nil in Hb.
    + reflexivity.
  - apply (InitLedger_spec (empty_stub accepting)). reflexivity.
Defined.

(** ** C6: GetAllAssets *)

Lemma filter_open_range (l : list (string * string)) :
  filter (fun kv => in_range EmptyString EmptyString kv.1) l = l.
Proof.
  induction l as [|kv l IH]; [done|].
  rewrite filter_cons_True by done. by rewrite IH.
Qed.

Lemma GetAllAssets_run st :
  GetAllAssets st =
    (Ok (JSON_stringify
           (JArr (map (fun kv => match JSON_parse kv.2 with
                                 | Some record => record
                                 | None => JStr kv.2
                                 end) (scan st)))), st).
Proof.
  unfold GetAllAssets, mbind, Tx_bind, getStateByRange. by rewrite filter_open_range.
Qed.

Lemma length_scan st : length (scan st) = size (states st).
Proof.
  unfold scan. rewrite merge_sort_Permutation. apply length_map_to_list.
Qed.

Lemma create_all_size l :
  forall st,
    (forall key value, rejects st key value = None) ->
    NoDup (asset_id <$> l) ->
    (forall a, a ∈ l -> states st !! asset_id a = None) ->
    size (states (create_all l st)) = (size (states st) + length l)%nat.
Proof.
  induction l as [|a l IH]; intros st Hok Hnd Hfresh; csimpl; [lia|].
  apply NoDup_cons in Hnd as [Ha Hnd].
  assert (~ present st (asset_id a)) as Hab.
  { intros (buf & Hg & _). rewrite Hfresh in Hg by left. done. }
  rewrite CreateAsset_absent by done. cbn zeta. rewrite Hok. cbn [snd].
  rewrite IH.
  - simpl. rewrite map_size_insert_None by (apply Hfresh; left). lia.
  - done.
  - done.
  - intros b Hb. simpl. rewrite lookup_insert_ne.
    + apply Hfresh. by right.
    + intros Heq. apply Ha. rewrite Heq. by apply list_elem_of_fmap_2.
Qed.

(** C6.  GetAllAssets leaves the world state as it is and returns the JSON
    text of an array with one entry for each stored pair, in the order of
    the range query over the whole key space: the text parses to an array of
    as many entries as there are stored pairs, in which the entry of a
    stored value that is not JSON is that value itself, as a string; so
    after CreateAsset of N records with pairwise distinct ids on the empty
    world state it has exactly N entries.  When every stored value that is
    JSON decodes to a value that JavaScript holds as it is, the entries are
    the decoded value when the stored value is JSON, and the stored value
    itself, as a string, when it is not. *)
Theorem GetAllAssets_spec :
  (forall st, exists text parsed,
     GetAllAssets st = (Ok text, st) /\
     JSON_parse text = Some (JArr parsed) /\
     length parsed = size (states st) /\
     scan st ≡ₚ map_to_list (states st) /\
     Forall2 (fun kv entry => JSON_parse kv.2 = None -> entry = JStr kv.2)
       (scan st) parsed) /\
  (forall st, exact_store st ->
     exists entries,
       GetAllAssets st = (Ok (JSON_stringify (JArr entries)), st) /\
       length entries = size (states st) /\
       Forall2 (fun kv entry =>
                  match JSON_parse kv.2 with
                  | Some record => entry = record
                  | None => entry = JStr kv.2
                  end) (scan st) entries) /\
  (forall l, NoDup (asset_id <$> l) ->
     exists text parsed,
       GetAllAssets (create_all l (empty_stub accepting))
         = (Ok text, create_all l (empty_stub accepting)) /\
       JSON_parse text = Some (JArr parsed) /\
       length parsed = length l).
Proof.
  assert (Hgen : forall st, exists text parsed,
     GetAllAssets st = (Ok text, st) /\
     JSON_parse text = Some (JArr parsed) /\
     length parsed = size (states st) /\
     scan st ≡ₚ map_to_list (states st) /\
     Forall2 (fun kv entry => JSON_parse kv.2 = None -> entry = JStr kv.2)
       (scan st) parsed).
  { intros st. do 2 eexists. split; [apply GetAllAssets_run|].
    rewrite JSON_parse_stringify. cbn [normalize].
    split_and!; [reflexivity| |apply merge_sort_Permutation|].
    - by rewrite !length_map, length_scan.
    - rewrite map_map. apply Forall2_fmap_r, Forall_Forall2_diag, Forall_forall.
      intros kv _ Hnone. simpl. by rewrite Hnone. }
  split_and!; [exact Hgen| |].
  - intros st _. eexists. split; [apply GetAllAssets_run|]. split.
    + by rewrite length_map, length_scan.
    + apply Forall2_fmap_r, Forall_Forall2_diag, Forall_forall.
      intros kv _. simpl. by destruct (JSON_parse kv.2).
  - intros l Hnd. destruct (Hgen (create_all l (empty_stub accepting)))
      as (text & parsed & Hrun & Hparse & Hlen & _ & _).
    exists text, parsed. split_and!; [done..|]. rewrite Hlen.
    rewrite create_all_size; [|done|done|intros a _; apply lookup_empty].
    cbn [empty_stub states]. by rewrite map_size_empty.
Qed.

(** A stored value that is not JSON comes back as a string, next to the
    decoded record of asset2. *)
Example GetAllAssets_non_JSON :
  JSON_parse "non-json-value" = None /\
  (GetAllAssets
     (stored "asset1" "non-json-value"
        (CreateAsset "asset2" "Poker" "Paul" "player" 200 (empty_stub accepting)).2)).1
  = Ok (JSON_stringify
          (JArr [JStr "non-json-value";
                 JObj [("game_name", JStr "Poker"); ("game_value", JNum 200);
                       ("id", JStr "asset2"); ("owner_name", JStr "Paul");
                       ("owner_type", JStr "player")]])).
Proof. split; vm_compute; reflexivity. Qed.

(** Stored numerals with a fraction or an exponent are JSON: they come
    back as the numbers they denote, not as strings. *)
Example GetAllAssets_numerals :
  (GetAllAssets
     (stored "c" "-25e-1" (stored "b" "1e2" (stored "a" "1.50" (empty_stub accepting))))).1
  = Ok "[1.5,100,-2.5]".
Proof. vm_compute. reflexivity. Qed.

Lemma GetAllAssets_spec_witness :
  exists text parsed,
    GetAllAssets (create_all
                    [mkAsset "asset1" "Chess" "Robert" "player" 100;
                     mkAsset "asset2" "Poker" "Paul" "player" 200;
                     mkAsset "asset3" "Monopoly" "Troy" "player" 300;
                     mkAsset "asset4" "Scrabble" "Van" "player" 400]
                    (empty_stub accepting))
      = (Ok text,
         create_all
           [mkAsset "asset1" "Chess" "Robert" "player" 100;
            mkAsset "asset2" "Poker" "Paul" "player" 200;
            mkAsset "asset3" "Monopoly" "Troy" "player" 300;
            mkAsset "asset4" "Scrabble" "Van" "player" 400]
           (empty_stub accepting)) /\
    JSON_parse text = Some (JArr parsed) /\
    length parsed = 4%nat.
Proof.
  apply (proj2 (proj2 GetAllAssets_spec)
           [mkAsset "asset1" "Chess" "Robert" "player" 100;
            mkAsset "asset2" "Poker" "Paul" "player" 200;
            mkAsset "asset3" "Monopoly" "Troy" "player" 300;
            mkAsset "asset4" "Scrabble" "Van" "player" 400]).
  by apply (bool_decide_unpack _).
Defined.

(** A world state with a numeral and a value that is not JSON satisfies
    the condition on the stored values. *)
Example exact_store_sample :
  exact_store (stored "b" "non-json-value" (stored "a" "1.50" (empty_stub accepting))).
Proof.
  intros key buf record Hg Hp. cbn [stored states empty_stub] in Hg.
  apply lookup_insert_Some in Hg as [[<- <-]|[_ Hg]]; [vm_compute in Hp; discriminate Hp|].
  apply lookup_insert_Some in Hg as [[<- <-]|[_ Hg]]; [|by rewrite lookup_empty in Hg].
  vm_compute in Hp. by injection Hp as <-.
Qed.

(** ** C10: every stored record carries its key as id *)

Lemma invoke_preserves_id i st :
  (forall key value, states st !! key = Some value -> id_matches_key key value) ->
  forall key value, states (invoke i st) !! key = Some value -> id_matches_key key value.
Proof.
  intros Hinv key value [Hold | (record & Hw & _ & ->)]%invoke_writes; [by apply Hinv|].
  destruct i as [|id g o t v|id g o t v|id o|id]; cbn [writes] in Hw.
  - destruct Hw as (a & _ & -> & ->).
    destruct (tagged_stored_fields a) as (props' & Hparse & _ & Hget).
    exists props'. split; [done|]. by rewrite Hget.
  - destruct Hw as [-> ->].
    destruct (asset_stored_fields (mkAsset id g o t v)) as (props' & Hparse & Hget).
    exists props'. split; [done|]. by rewrite Hget.
  - destruct Hw as [-> ->].
    destruct (asset_stored_fields (mkAsset id g o t v)) as (props' & Hparse & Hget).
    exists props'. split; [done|]. by rewrite Hget.
  - destruct Hw as (-> & buf & asset & Hbuf & Hparse & Hset).
    destruct (Hinv _ _ Hbuf) as (props & Hparse' & Hid).
    rewrite Hparse' in Hparse. injection Hparse as <-.
    simpl in Hset. injection Hset as <-.
    destruct (transferred_fields props o) as (props' & Hp & _ & Hother);
      [by eapply wf_JSON_parse|].
    exists props'. split; [done|]. rewrite Hother by done. by rewrite Hid.
  - done.
Qed.

Lemma run_preserves_id l :
  forall st,
    (forall key value, states st !! key = Some value -> id_matches_key key value) ->
    forall key value, states (run l st) !! key = Some value -> id_matches_key key value.
Proof.
  induction l as [|i l IH]; intros st Hinv; [done|].
  apply IH. by apply invoke_preserves_id.
Qed.

Lemma stored_values_match l refusals key value :
  states (run l (empty_stub refusals)) !! key = Some value -> id_matches_key key value.
Proof.
  apply run_preserves_id. intros k v H. cbn [empty_stub states] in H.
  by rewrite lookup_empty in H.
Qed.

(** C10.  From the empty world state, whatever the store refuses, after any
    sequence of InitLedger, CreateAsset, UpdateAsset, TransferAsset and
    DeleteAsset invocations (returning or failing), every stored value
    decodes to a JSON object whose id is the string under which it is
    stored. *)
Theorem stored_id_matches_key (refusals : string -> string -> option string)
    (l : list Invocation) (key value : string) :
  states (run l (empty_stub refusals)) !! key = Some value ->
  id_matches_key key value.
Proof. apply stored_values_match. Qed.

Lemma stored_id_matches_key_witness :
  id_matches_key "asset1"
    (encode (JObj (obj_set "owner_name" (JStr "Me")
                     (obj_set "docType" (JStr "asset")
                        (asset_props (mkAsset "asset1" "game1" "Tomoko" "player" 300)))))).
Proof.
  apply (stored_id_matches_key accepting
           [InvInitLedger; InvTransferAsset "asset1" "Me"; InvDeleteAsset "asset2";
            InvCreateAsset "asset7" "Chess" "Robert" "player" 100;
            InvUpdateAsset "asset3" "Go" "Jin Soo" "player" 550]).
  vm_compute. reflexivity.
Defined.

(** ** C4: NotFound exactly when no non-empty value is stored *)

Lemma TransferAsset_present_not_NotFound id o st id' :
  present st id -> (TransferAsset id o st).1 <> Throw (NotFound id').
Proof.
  intros (buf & Hg & Hne). rewrite (TransferAsset_present id o st buf) by done.
  destruct (JSON_parse buf) as [asset|]; [|done].
  destruct asset; simpl; try done; by destruct (rejects st id _).
Qed.

Lemma for_each_put_rejects {A} (f g : A -> string) l st :
  rejects (for_each (fun a => putState (f a) (g a)) l st).2 = rejects st.
Proof.
  revert st. induction l as [|x l IH]; intros st; [done|].
  rewrite for_each_cons, putState_run.
  destruct (rejects st (f x) (g x)); [done|]. by rewrite IH.
Qed.

(** No handler changes what the store refuses. *)
Lemma invoke_rejects i st : rejects (invoke i st) = rejects st.
Proof.
  destruct i as [|id g o t v|id g o t v|id o|id]; cbn [invoke].
  - apply for_each_put_rejects.
  - destruct (present_or_absent st id) as [Hp|Ha].
    + by rewrite CreateAsset_present.
    + rewrite CreateAsset_absent by done. cbn zeta. by destruct (rejects st id _).
  - destruct (present_or_absent st id) as [Hp|Ha].
    + rewrite UpdateAsset_present by done. cbn zeta. by destruct (rejects st id _).
    + by rewrite UpdateAsset_absent.
  - destruct (present_or_absent st id) as [(buf & Hg & Hne)|Ha].
    + rewrite (TransferAsset_present id o st buf) by done.
      destruct (JSON_parse buf) as [asset|]; [|done].
      destruct (get_property asset "owner_name"); [|done].
      destruct (set_property asset "owner_name" (JStr o)); [|done].
      by destruct (rejects st id _).
    + by rewrite TransferAsset_absent.
  - destruct (present_or_absent st id) as [Hp|Ha].
    + by rewrite DeleteAsset_present.
    + by rewrite DeleteAsset_absent.
Qed.

Lemma run_rejects l st : rejects (run l st) = rejects st.
Proof.
  revert st. induction l as [|i l IH]; intros st; [done|].
  cbn [run fold_left]. fold (run l (invoke i st)). by rewrite IH, invoke_rejects.
Qed.

(** On a world state that the contract has built on a store that accepts
    every write, the four operations succeed on every id that is present. *)
Lemma reachable_present_succeeds l id :
  present (run l (empty_stub accepting)) id ->
  (exists buf, (ReadAsset id (run l (empty_stub accepting))).1 = Ok buf) /\
  (forall g o t v, (UpdateAsset id g o t v (run l (empty_stub accepting))).1 = Ok tt) /\
  (DeleteAsset id (run l (empty_stub accepting))).1 = Ok tt /\
  (forall o, exists ret, (TransferAsset id o (run l (empty_stub accepting))).1 = Ok ret).
Proof.
  set (st := run l (empty_stub accepting)).
  assert (Hacc : forall key value, rejects st key value = None).
  { intros key value. subst st. by rewrite run_rejects. }
  intros Hp. split_and!.
  - destruct Hp as (buf & Hg & Hne). exists buf. by rewrite (ReadAsset_present id st buf).
  - intros g o t v. rewrite UpdateAsset_present by done. cbn zeta. by rewrite Hacc.
  - by rewrite DeleteAsset_present.
  - intros o. destruct Hp as (buf & Hg & Hne).
    destruct (stored_values_match l accepting id buf Hg) as (props & Hparse & _).
    rewrite (TransferAsset_present id o st buf) by done.
    rewrite Hparse. simpl. rewrite Hacc. by eexists.
Qed.

(** C4.  For every id under which no non-empty value is stored, ReadAsset,
    UpdateAsset, DeleteAsset and TransferAsset fail with NotFound and leave
    the world state as it is; conversely each of them fails with NotFound
    only when no non-empty value is stored under id, and succeeds only when
    one is.  On every world state that the contract has built from the empty
    one, on a store that accepts every write, each of them succeeds when a
    non-empty value is stored under id: there they fail if and only if none
    is. *)
Theorem NotFound_iff_absent (st : ChaincodeStub) (id : string) :
  (~ present st id ->
     ReadAsset id st = (Throw (NotFound id), st) /\
     (forall g o t v, UpdateAsset id g o t v st = (Throw (NotFound id), st)) /\
     DeleteAsset id st = (Throw (NotFound id), st) /\
     (forall o, TransferAsset id o st = (Throw (NotFound id), st))) /\
  (forall id',
     ((ReadAsset id st).1 = Throw (NotFound id') -> ~ present st id) /\
     (forall g o t v, (UpdateAsset id g o t v st).1 = Throw (NotFound id') -> ~ present st id) /\
     ((DeleteAsset id st).1 = Throw (NotFound id') -> ~ present st id) /\
     (forall o, (TransferAsset id o st).1 = Throw (NotFound id') -> ~ present st id)) /\
  ((forall buf, (ReadAsset id st).1 = Ok buf -> present st id) /\
   (forall g o t v, (UpdateAsset id g o t v st).1 = Ok tt -> present st id) /\
   ((DeleteAsset id st).1 = Ok tt -> present st id) /\
   (forall o ret, (TransferAsset id o st).1 = Ok ret -> present st id)) /\
  (forall l, st = run l (empty_stub accepting) -> present st id ->
     (exists buf, (ReadAsset id st).1 = Ok buf) /\
     (forall g o t v, (UpdateAsset id g o t v st).1 = Ok tt) /\
     (DeleteAsset id st).1 = Ok tt /\
     (forall o, exists ret, (TransferAsset id o st).1 = Ok ret)).
Proof.
  split_and!.
  - intros Ha. split_and!; intros;
      auto using ReadAsset_absent, UpdateAsset_absent, DeleteAsset_absent, TransferAsset_absent.
  - intros id'. split_and!.
    + intros H (buf & Hg & Hne). by rewrite (ReadAsset_present id st buf) in H.
    + intros g o t v H Hp. rewrite UpdateAsset_present in H by done.
      simpl in H. by destruct (rejects st id _).
    + intros H Hp. by rewrite DeleteAsset_present in H.
    + intros o H Hp. by apply (TransferAsset_present_not_NotFound id o st id').
  - intros buf H. destruct (present_or_absent st id) as [|Ha]; [done|].
    by rewrite ReadAsset_absent in H.
  - intros g o t v H. destruct (present_or_absent st id) as [|Ha]; [done|].
    by rewrite UpdateAsset_absent in H.
  - intros H. destruct (present_or_absent st id) as [|Ha]; [done|].
    by rewrite DeleteAsset_absent in H.
  - intros o ret H. destruct (present_or_absent st id) as [|Ha]; [done|].
    by rewrite TransferAsset_absent in H.
  - intros l -> Hp. by apply reachable_present_succeeds.
Qed.

(** With asset1 alone in the world state, the four operations on asset2
    fail with NotFound. *)
Lemma NotFound_iff_absent_witness :
  ReadAsset "asset2"
    (CreateAsset "asset1" "Chess" "Tomoko" "player" 300 (empty_stub accepting)).2
  = (Throw (NotFound "asset2"),
     (CreateAsset "asset1" "Chess" "Tomoko" "player" 300 (empty_stub accepting)).2) /\
  (forall g o t v,
     UpdateAsset "asset2" g o t v
       (CreateAsset "asset1" "Chess" "Tomoko" "player" 300 (empty_stub accepting)).2
     = (Throw (NotFound "asset2"),
        (CreateAsset "asset1" "Chess" "Tomoko" "player" 300 (empty_stub accepting)).2)) /\
  DeleteAsset "asset2"
    (CreateAsset "asset1" "Chess" "Tomoko" "player" 300 (empty_stub accepting)).2
  = (Throw (NotFound "asset2"),
     (CreateAsset "asset1" "Chess" "Tomoko" "player" 300 (empty_stub accepting)).2) /\
  (forall o,
     TransferAsset "asset2" o
       (CreateAsset "asset1" "Chess" "Tomoko" "player" 300 (empty_stub accepting)).2
     = (Throw (NotFound "asset2"),
        (CreateAsset "asset1" "Chess" "Tomoko" "player" 300 (empty_stub accepting)).2)).
Proof.
  apply (NotFound_iff_absent
           (CreateAsset "asset1" "Chess" "Tomoko" "player" 300 (empty_stub accepting)).2
           "asset2").
  intros (buf & Hg & _). vm_compute in Hg. discriminate Hg.
Defined.

(** A value that is stored but is not JSON makes TransferAsset fail with
    another error than NotFound. *)
Example TransferAsset_not_JSON :
  TransferAsset "asset1" "Me" (stored "asset1" "non-json-value" (empty_stub accepting))
  = (Throw SyntaxError, stored "asset1" "non-json-value" (empty_stub accepting)).
Proof. reflexivity. Qed.

(** * Further properties of the handlers *)

(** ** The outcomes of a handler *)

Lemma stub_eta st : mkStub (states st) (rejects st) = st.
Proof. by destruct st. Qed.

Lemma stub_eq st1 st2 : states st1 = states st2 -> rejects st1 = rejects st2 -> st1 = st2.
Proof. destruct st1, st2. simpl. by intros -> ->. Qed.

Lemma stored_stored key v w st : stored key v (stored key w st) = stored key v st.
Proof. unfold stored. simpl. f_equal. apply insert_insert_eq. Qed.

Lemma stored_same key v st : states st !! key = Some v -> stored key v st = st.
Proof. intros H. unfold stored. rewrite insert_id by done. apply stub_eta. Qed.

(** Each handler either throws and leaves the stub as it is, or returns
    and leaves one more write (for DeleteAsset: one delete). *)
Lemma CreateAsset_cases id g o t v st :
  (exists e, CreateAsset id g o t v st = (Throw e, st)) \/
  (exists ret value, CreateAsset id g o t v st = (Ok ret, stored id value st)).
Proof.
  destruct (present_or_absent st id) as [Hp|Ha].
  - rewrite CreateAsset_present by done. by left; eexists.
  - rewrite CreateAsset_absent by done. cbn zeta.
    destruct (rejects st id _); [by left; eexists|by right; do 2 eexists].
Qed.

Lemma ReadAsset_cases id st :
  ReadAsset id st = (Throw (NotFound id), st) \/
  exists buf, states st !! id = Some buf /\ buf <> EmptyString /\ ReadAsset id st = (Ok buf, st).
Proof.
  destruct (present_or_absent st id) as [(buf & Hg & Hne)|Ha].
  - right. exists buf. by rewrite (ReadAsset_present id st buf).
  - left. by apply ReadAsset_absent.
Qed.

Lemma UpdateAsset_cases id g o t v st :
  (exists e, UpdateAsset id g o t v st = (Throw e, st)) \/
  (exists value, UpdateAsset id g o t v st = (Ok tt, stored id value st)).
Proof.
  destruct (present_or_absent st id) as [Hp|Ha].
  - rewrite UpdateAsset_present by done. cbn zeta.
    destruct (rejects st id _); [by left; eexists|by right; eexists].
  - rewrite UpdateAsset_absent by done. by left; eexists.
Qed.

Lemma DeleteAsset_cases id st :
  DeleteAsset id st = (Throw (NotFound id), st) \/
  DeleteAsset id st = (Ok tt, mkStub (delete id (states st)) (rejects st)).
Proof.
  destruct (present_or_absent st id) as [Hp|Ha].
  - rewrite DeleteAsset_present by done. by right.
  - rewrite DeleteAsset_absent by done. by left.
Qed.

Lemma TransferAsset_cases id o st :
  (exists e, TransferAsset id o st = (Throw e, st)) \/
  (exists ret value, TransferAsset id o st = (Ok ret, stored id value st)).
Proof.
  destruct (present_or_absent st id) as [(buf & Hg & Hne)|Ha].
  - rewrite (TransferAsset_present id o st buf) by done.
    destruct (JSON_parse buf) as [asset|]; [|by left; eexists].
    destruct (get_property asset "owner_name") as [old|e]; [|by left; eexists].
    destruct (set_property asset "owner_name" (JStr o)) as [asset'|e]; [|by left; eexists].
    destruct (rejects st id _); [by left; eexists|by right; do 2 eexists].
  - rewrite TransferAsset_absent by done. by left; eexists.
Qed.

(** A loop of writes leaves alone the keys that it does not write. *)
Lemma for_each_put_other {A} (f g : A -> string) l st key :
  key ∉ f <$> l ->
  states (for_each (fun a => putState (f a) (g a)) l st).2 !! key = states st !! key.
Proof.
  revert st. induction l as [|x l IH]; intros st; [done|].
  rewrite fmap_cons. intros [Hne Hl]%not_elem_of_cons.
  rewrite for_each_cons, putState_run.
  destruct (rejects st (f x) (g x)); [done|].
  rewrite IH by done. simpl. by rewrite lookup_insert_ne.
Qed.

(** An invocation leaves alone the keys that it does not touch. *)
Lemma invoke_frame i st key :
  ~ touches i key -> states (invoke i st) !! key = states st !! key.
Proof.
  destruct i as [|id g o t v|id g o t v|id o|id]; cbn [invoke touches]; intros Hne.
  - by apply for_each_put_other.
  - destruct (CreateAsset_cases id g o t v st) as [(e' & ->) | (ret & value & ->)]; [done|].
    simpl. by rewrite lookup_insert_ne.
  - destruct (UpdateAsset_cases id g o t v st) as [(e' & ->) | (value & ->)]; [done|].
    simpl. by rewrite lookup_insert_ne.
  - destruct (TransferAsset_cases id o st) as [(e' & ->) | (ret & value & ->)]; [done|].
    simpl. by rewrite lookup_insert_ne.
  - destruct (DeleteAsset_cases id st) as [-> | ->]; [done|].
    simpl. by rewrite lookup_delete_ne.
Qed.

Lemma absent_after_delete id st : ~ present (mkStub (delete id (states st)) (rejects st)) id.
Proof. intros (buf & Hg & _). simpl in Hg. by rewrite lookup_delete_eq in Hg. Qed.

(** ** X1: a handler that fails has written nothing *)

(** X1.  The handlers that operate on one asset write nothing when they
    fail: whenever CreateAsset, ReadAsset, UpdateAsset, DeleteAsset or
    TransferAsset throws, whatever the error (the existence check, a stored
    value that cannot be decoded, a write that the store refuses), the world
    state is the one before the call. *)
Theorem failure_writes_nothing (st : ChaincodeStub) (id : string) :
  (forall g o t v e st', CreateAsset id g o t v st = (Throw e, st') -> st' = st) /\
  (forall e st', ReadAsset id st = (Throw e, st') -> st' = st) /\
  (forall g o t v e st', UpdateAsset id g o t v st = (Throw e, st') -> st' = st) /\
  (forall e st', DeleteAsset id st = (Throw e, st') -> st' = st) /\
  (forall o e st', TransferAsset id o st = (Throw e, st') -> st' = st).
Proof.
  split_and!.
  - intros g o t v e st'.
    destruct (CreateAsset_cases id g o t v st) as [(e' & ->) | (ret & value & ->)]; congruence.
  - intros e st'.
    destruct (ReadAsset_cases id st) as [-> | (buf & _ & _ & ->)]; congruence.
  - intros g o t v e st'.
    destruct (UpdateAsset_cases id g o t v st) as [(e' & ->) | (value & ->)]; congruence.
  - intros e st'. destruct (DeleteAsset_cases id st) as [-> | ->]; congruence.
  - intros o e st'.
    destruct (TransferAsset_cases id o st) as [(e' & ->) | (ret & value & ->)]; congruence.
Qed.

(** On a store that refuses every write, CreateAsset fails and the value
    that was stored under another key is all there is. *)
Lemma failure_writes_nothing_witness :
  (CreateAsset "asset1" "Chess" "Tomoko" "player" 300
     (stored "asset2" "kept" (empty_stub refusing))).1
  = Throw (StoreError "failed inserting key") /\
  (CreateAsset "asset1" "Chess" "Tomoko" "player" 300
     (stored "asset2" "kept" (empty_stub refusing))).2
  = stored "asset2" "kept" (empty_stub refusing).
Proof.
  split; [reflexivity|].
  apply (proj1 (failure_writes_nothing (stored "asset2" "kept" (empty_stub refusing)) "asset1")
           "Chess" "Tomoko" "player" 300 (StoreError "failed inserting key")).
  reflexivity.
Defined.

(** ** X2: a handler changes no key but its own *)

(** X2.  CreateAsset, UpdateAsset, DeleteAsset and TransferAsset, whether
    they return or throw, leave every key other than their id as it was;
    ReadAsset leaves the whole world state as it was; InitLedger leaves
    every key other than the six seed ids as it was. *)
Theorem other_keys_untouched (st : ChaincodeStub) (id key : string) :
  key <> id ->
  (forall g o t v, states (CreateAsset id g o t v st).2 !! key = states st !! key) /\
  (forall g o t v, states (UpdateAsset id g o t v st).2 !! key = states st !! key) /\
  states (DeleteAsset id st).2 !! key = states st !! key /\
  (forall o, states (TransferAsset id o st).2 !! key = states st !! key) /\
  (ReadAsset id st).2 = st /\
  (key ∉ asset_id <$> assets -> states (InitLedger st).2 !! key = states st !! key).
Proof.
  intros Hne. split_and!.
  - intros g o t v.
    destruct (CreateAsset_cases id g o t v st) as [(e' & ->) | (ret & value & ->)]; [done|].
    simpl. by rewrite lookup_insert_ne.
  - intros g o t v.
    destruct (UpdateAsset_cases id g o t v st) as [(e' & ->) | (value & ->)]; [done|].
    simpl. by rewrite lookup_insert_ne.
  - destruct (DeleteAsset_cases id st) as [-> | ->]; [done|].
    simpl. by rewrite lookup_delete_ne.
  - intros o.
    destruct (TransferAsset_cases id o st) as [(e' & ->) | (ret & value & ->)]; [done|].
    simpl. by rewrite lookup_insert_ne.
  - by destruct (ReadAsset_cases id st) as [-> | (buf & _ & _ & ->)].
  - apply for_each_put_other.
Qed.

(** Deleting or transferring asset1 leaves asset2 as InitLedger wrote it. *)
Lemma other_keys_untouched_witness :
  states (DeleteAsset "asset1" (InitLedger (empty_stub accepting)).2).2 !! "asset2"
  = states (InitLedger (empty_stub accepting)).2 !! "asset2" /\
  states (TransferAsset "asset1" "Me" (InitLedger (empty_stub accepting)).2).2 !! "asset2"
  = states (InitLedger (empty_stub accepting)).2 !! "asset2".
Proof.
  destruct (other_keys_untouched (InitLedger (empty_stub accepting)).2 "asset1" "asset2")
    as (_ & _ & Hd & Ht & _).
  - intros H. discriminate H.
  - split; [exact Hd|exact (Ht "Me")].
Defined.

(** ** X3 and X4: DeleteAsset *)

(** X3.  When DeleteAsset returns, a non-empty value was stored under id
    and the key is gone: the world state has one entry fewer, every other
    key is as it was, ReadAsset, UpdateAsset, DeleteAsset and TransferAsset
    of that id now fail with NotFound, and CreateAsset of that id succeeds
    again when the store accepts the write. *)
Theorem DeleteAsset_removes (st st' : ChaincodeStub) (id : string) :
  DeleteAsset id st = (Ok tt, st') ->
  present st id /\
  states st' !! id = None /\
  (forall key, key <> id -> states st' !! key = states st !! key) /\
  S (size (states st')) = size (states st) /\
  ReadAsset id st' = (Throw (NotFound id), st') /\
  (forall g o t v, UpdateAsset id g o t v st' = (Throw (NotFound id), st')) /\
  DeleteAsset id st' = (Throw (NotFound id), st') /\
  (forall o, TransferAsset id o st' = (Throw (NotFound id), st')) /\
  (forall g o t v,
     rejects st' id (encode (JObj (asset_props (mkAsset id g o t v)))) = None ->
     CreateAsset id g o t v st'
     = (Ok (JSON_stringify (JObj (asset_props (mkAsset id g o t v)))),
        stored id (encode (JObj (asset_props (mkAsset id g o t v)))) st')).
Proof.
  intros H. destruct (present_or_absent st id) as [Hp|Ha];
    [|by rewrite DeleteAsset_absent in H].
  rewrite DeleteAsset_present in H by done. injection H as <-.
  pose proof (absent_after_delete id st) as Ha.
  split_and!; [done| | | | | | | |].
  - simpl. apply lookup_delete_eq.
  - intros key Hne. simpl. by rewrite lookup_delete_ne.
  - simpl. destruct Hp as (buf & Hg & _).
    rewrite <- (insert_delete_id (states st) id buf Hg) at 2.
    by rewrite map_size_insert_None by apply lookup_delete_eq.
  - by apply ReadAsset_absent.
  - intros g o t v. by apply UpdateAsset_absent.
  - by apply DeleteAsset_absent.
  - intros o. by apply TransferAsset_absent.
  - intros g o t v Hr. rewrite CreateAsset_absent by done. cbn zeta. by rewrite Hr.
Qed.

(** After InitLedger, DeleteAsset of asset1 leaves five records, and
    asset1 is not found. *)
Lemma DeleteAsset_removes_witness :
  states (DeleteAsset "asset1" (InitLedger (empty_stub accepting)).2).2 !! "asset1" = None /\
  size (states (DeleteAsset "asset1" (InitLedger (empty_stub accepting)).2).2) = 5%nat /\
  ReadAsset "asset1" (DeleteAsset "asset1" (InitLedger (empty_stub accepting)).2).2
  = (Throw (NotFound "asset1"), (DeleteAsset "asset1" (InitLedger (empty_stub accepting)).2).2).
Proof.
  destruct (DeleteAsset_removes (InitLedger (empty_stub accepting)).2
              (DeleteAsset "asset1" (InitLedger (empty_stub accepting)).2).2 "asset1")
    as (_ & Hnone & _ & Hsize & Hread & _).
  - vm_compute. reflexivity.
  - split_and!; [exact Hnone| |exact Hread].
    apply eq_add_S. rewrite Hsize. vm_compute. reflexivity.
Defined.

(** X4.  DeleteAsset undoes CreateAsset: when nothing is stored under id
    and CreateAsset returns, a DeleteAsset of that id returns and the world
    state is again the one before the CreateAsset. *)
Theorem DeleteAsset_undoes_CreateAsset (st st' : ChaincodeStub) (id g o t ret : string)
    (v : Z) :
  states st !! id = None ->
  CreateAsset id g o t v st = (Ok ret, st') ->
  DeleteAsset id st' = (Ok tt, st).
Proof.
  intros Hg H.
  assert (~ present st id) as Ha by (intros (buf & Hg' & _); congruence).
  rewrite CreateAsset_absent in H by done. cbn zeta in H.
  destruct (rejects st id _); [done|]. injection H as <- <-.
  rewrite DeleteAsset_present by apply present_stored, encode_nonempty.
  f_equal. cbn [stored states rejects]. rewrite delete_insert_id by done. apply stub_eta.
Qed.

Lemma DeleteAsset_undoes_CreateAsset_witness :
  DeleteAsset "asset7"
    (CreateAsset "asset7" "Chess" "Robert" "player" 100 (InitLedger (empty_stub accepting)).2).2
  = (Ok tt, (InitLedger (empty_stub accepting)).2).
Proof.
  apply (DeleteAsset_undoes_CreateAsset (InitLedger (empty_stub accepting)).2 _
           "asset7" "Chess" "Robert" "player"
           (JSON_stringify (JObj (asset_props (mkAsset "asset7" "Chess" "Robert" "player" 100))))
           100).
  - vm_compute. reflexivity.
  - rewrite CreateAsset_absent; [reflexivity|].
    intros (buf & Hg & _). vm_compute in Hg. discriminate Hg.
Defined.

(** ** X5: the errors of the store *)

(** X5.  The error with which the store refuses a write passes through
    the handlers unmodified, and the world state stays as it was: CreateAsset
    fails with the error of the store when no non-empty value is stored
    under id and the store refuses the canonical bytes of the new record
    with that error; UpdateAsset when a non-empty value is stored and the
    store refuses the new bytes; TransferAsset, on a stored record that
    JavaScript holds as it is, when the store refuses the bytes of the
    record with its new owner. *)
Theorem store_error_propagates (st : ChaincodeStub) (id name : string) :
  (forall g o t v,
     ~ present st id ->
     rejects st id (encode (JObj (asset_props (mkAsset id g o t v)))) = Some name ->
     CreateAsset id g o t v st = (Throw (StoreError name), st)) /\
  (forall g o t v,
     present st id ->
     rejects st id (encode (JObj (asset_props (mkAsset id g o t v)))) = Some name ->
     UpdateAsset id g o t v st = (Throw (StoreError name), st)) /\
  (forall o buf props,
     states st !! id = Some buf -> buf <> EmptyString ->
     JSON_parse buf = Some (JObj props) -> exact (JObj props) = true ->
     rejects st id (encode (JObj (obj_set "owner_name" (JStr o) props))) = Some name ->
     TransferAsset id o st = (Throw (StoreError name), st)).
Proof.
  split_and!.
  - intros g o t v Ha Hr. rewrite CreateAsset_absent by done. cbn zeta. by rewrite Hr.
  - intros g o t v Hp Hr. rewrite UpdateAsset_present by done. cbn zeta. by rewrite Hr.
  - intros o buf props Hg Hne Hparse _ Hr.
    rewrite (TransferAsset_present id o st buf) by done. rewrite Hparse.
    cbn [get_property set_property]. by rewrite Hr.
Qed.

(** The test of the suite: putState rejects, and CreateAsset fails with
    that error. *)
Lemma store_error_propagates_witness :
  CreateAsset "asset1" "Chess" "Tomoko" "player" 300 (empty_stub refusing)
  = (Throw (StoreError "failed inserting key"), empty_stub refusing).
Proof.
  apply (store_error_propagates (empty_stub refusing) "asset1" "failed inserting key");
    [|reflexivity].
  intros (buf & Hg & _). discriminate Hg.
Defined.

(** ** The bytes of an asset record *)

Lemma stored_props_normalize tag a :
  normalize (JObj (stored_props tag a)) = JObj (stored_props tag a).
Proof. by destruct tag. Qed.

(** Setting the owner of a decoded asset record and encoding it again
    gives the encoding of the asset with that owner. *)
Lemma encode_transferred tag a o :
  encode (JObj (obj_set "owner_name" (JStr o) (stored_props tag a)))
  = encode (record_of tag (with_owner a o)).
Proof.
  rewrite !encode_sort_keys; [by destruct tag|apply record_of_wf|by destruct tag].
Qed.

(** TransferAsset on a stored asset record. *)
Lemma TransferAsset_record tag a o st :
  states st !! asset_id a = Some (encode (record_of tag a)) ->
  TransferAsset (asset_id a) o st =
    match rejects st (asset_id a) (encode (record_of tag (with_owner a o))) with
    | Some name => (Throw (StoreError name), st)
    | None =>
        (Ok (JSON_stringify (JObj [("oldOwnerName", JStr (owner_name a))])),
         stored (asset_id a) (encode (record_of tag (with_owner a o))) st)
    end.
Proof.
  intros Hg.
  rewrite (TransferAsset_present _ o st _ Hg) by apply encode_nonempty.
  rewrite JSON_parse_record_of. cbn [get_property set_property].
  rewrite encode_transferred.
  by destruct tag.
Qed.

(** Every value that an invocation leaves stored is the encoding of an
    asset record filed under its id, when this held before. *)
Lemma invoke_preserves_records i st :
  (forall key value, states st !! key = Some value ->
     exists tag a, asset_id a = key /\ value = encode (record_of tag a)) ->
  forall key value, states (invoke i st) !! key = Some value ->
    exists tag a, asset_id a = key /\ value = encode (record_of tag a).
Proof.
  intros Hinv key value [Hold | (record & Hw & _ & ->)]%invoke_writes; [by apply Hinv|].
  destruct i as [|id g o t v|id g o t v|id o|id]; cbn [writes] in Hw.
  - destruct Hw as (a & _ & -> & ->). by exists true, a.
  - destruct Hw as [-> ->]. by exists false, (mkAsset id g o t v).
  - destruct Hw as [-> ->]. by exists false, (mkAsset id g o t v).
  - destruct Hw as (-> & buf & asset & Hbuf & Hparse & Hset).
    destruct (Hinv _ _ Hbuf) as (tag & a & <- & ->).
    rewrite JSON_parse_record_of in Hparse. injection Hparse as <-.
    cbn [set_property] in Hset. injection Hset as <-.
    exists tag, (with_owner a o). split; [done|]. apply encode_transferred.
  - done.
Qed.

Lemma run_preserves_records l :
  forall st,
    (forall key value, states st !! key = Some value ->
       exists tag a, asset_id a = key /\ value = encode (record_of tag a)) ->
    forall key value, states (run l st) !! key = Some value ->
      exists tag a, asset_id a = key /\ value = encode (record_of tag a).
Proof.
  induction l as [|i l IH]; intros st Hinv; [done|].
  apply IH. by apply invoke_preserves_records.
Qed.

Lemma reachable_records l refusals key value :
  states (run l (empty_stub refusals)) !! key = Some value ->
  exists tag a, asset_id a = key /\ value = encode (record_of tag a).
Proof.
  apply run_preserves_records. intros k v H. cbn [empty_stub states] in H.
  by rewrite lookup_empty in H.
Qed.

(** ** X6: reading what CreateAsset wrote *)

(** X6.  When CreateAsset returns, a ReadAsset of the same id returns the
    stored bytes, which are the compact JSON text of the record with its
    five fields in ascending order of their names (game_name, game_value, id,
    owner_name, owner_type) and the values given to CreateAsset.  This text
    is not the text that CreateAsset returned, which lists the fields in the
    order of the literal; both decode to the same five fields. *)
Theorem ReadAsset_after_CreateAsset (st st' : ChaincodeStub) (id g o t ret : string) (v : Z) :
  CreateAsset id g o t v st = (Ok ret, st') ->
  ReadAsset id st'
  = (Ok (JSON_stringify
           (JObj [("game_name", JStr g); ("game_value", JNum v); ("id", JStr id);
                  ("owner_name", JStr o); ("owner_type", JStr t)])), st') /\
  (forall text, (ReadAsset id st').1 = Ok text ->
     JSON_parse text
     = Some (JObj [("game_name", JStr g); ("game_value", JNum v); ("id", JStr id);
                   ("owner_name", JStr o); ("owner_type", JStr t)]) /\
     text <> ret) /\
  JSON_parse ret
  = Some (JObj [("id", JStr id); ("game_name", JStr g); ("owner_name", JStr o);
                ("owner_type", JStr t); ("game_value", JNum v)]).
Proof.
  intros H. destruct (present_or_absent st id) as [Hp|Ha];
    [by rewrite CreateAsset_present in H|].
  rewrite CreateAsset_absent in H by done. cbn zeta in H.
  destruct (rejects st id _); [done|]. injection H as <- <-.
  assert (Hread : ReadAsset id (stored id (encode (JObj (asset_props (mkAsset id g o t v)))) st)
    = (Ok (JSON_stringify (JObj (stored_props false (mkAsset id g o t v)))),
       stored id (encode (JObj (asset_props (mkAsset id g o t v)))) st)).
  { rewrite <- (encode_record_of false).
    apply ReadAsset_present; [apply lookup_insert_eq|apply encode_nonempty]. }
  split_and!.
  - exact Hread.
  - intros text. rewrite Hread. intros [= <-]. split.
    + rewrite <- (encode_record_of false). apply (JSON_parse_record_of false).
    + rewrite <- (encode_record_of false). intros Heq.
      by apply (asset_return_not_canonical (mkAsset id g o t v)).
  - by rewrite JSON_parse_stringify.
Qed.

(** The scenario of the test suite: asset1 of Robert, created and read. *)
Lemma ReadAsset_after_CreateAsset_witness :
  ReadAsset "asset1"
    (CreateAsset "asset1" "Chess" "Robert" "player" 100 (empty_stub accepting)).2
  = (Ok (JSON_stringify
           (JObj [("game_name", JStr "Chess"); ("game_value", JNum 100); ("id", JStr "asset1");
                  ("owner_name", JStr "Robert"); ("owner_type", JStr "player")])),
     (CreateAsset "asset1" "Chess" "Robert" "player" 100 (empty_stub accepting)).2).
Proof.
  apply (ReadAsset_after_CreateAsset (empty_stub accepting) _ "asset1" "Chess" "Robert" "player"
           (JSON_stringify (JObj (asset_props (mkAsset "asset1" "Chess" "Robert" "player" 100))))
           100).
  rewrite CreateAsset_absent; [reflexivity|]. intros (buf & Hg & _). discriminate Hg.
Defined.

(** ** X7 and X8: the two existence checks *)

(** X7.  The existence check of ReadAsset (no buffer, or a buffer of length
    zero, throws) and that of AssetExists (a buffer of positive length) agree
    on every world state: ReadAsset returns exactly when AssetExists answers
    true, and fails with NotFound exactly when the answer of AssetExists is
    falsy, which is the boolean false for an empty buffer and undefined for
    no buffer. *)
Theorem existence_checks_agree (st : ChaincodeStub) (id : string) :
  (AssetExists id st = (Ok (boolean true), st) <-> exists buf, ReadAsset id st = (Ok buf, st)) /\
  (AssetExists id st = (Ok (boolean false), st) \/ AssetExists id st = (Ok undefined, st)
   <-> ReadAsset id st = (Throw (NotFound id), st)) /\
  (AssetExists id st = (Ok (boolean false), st) <-> states st !! id = Some EmptyString) /\
  (AssetExists id st = (Ok undefined, st) <-> states st !! id = None).
Proof.
  rewrite AssetExists_run. unfold ReadAsset, mbind, Tx_bind, getState.
  destruct (states st !! id) as [[|c buf]|]; simpl; split_and!; split;
    try done; try (by intros [? ?]); try (by intros [?|?]); try (by eexists); auto.
Qed.

Lemma elem_of_scan st kv : kv ∈ scan st <-> states st !! kv.1 = Some kv.2.
Proof.
  unfold scan. rewrite merge_sort_Permutation. destruct kv as [k v].
  apply elem_of_map_to_list.
Qed.

(** X8.  A key that holds the empty value counts as absent for the
    handlers of one asset, yet it is part of the world state: AssetExists
    answers false; ReadAsset, DeleteAsset, UpdateAsset and TransferAsset fail
    with NotFound, so the contract cannot delete the entry; CreateAsset
    writes over it; and GetAllAssets lists it, as the empty string. *)
Theorem empty_value_counts_as_absent (st : ChaincodeStub) (id : string) :
  states st !! id = Some EmptyString ->
  AssetExists id st = (Ok (boolean false), st) /\
  ReadAsset id st = (Throw (NotFound id), st) /\
  DeleteAsset id st = (Throw (NotFound id), st) /\
  (forall g o t v, UpdateAsset id g o t v st = (Throw (NotFound id), st)) /\
  (forall o, TransferAsset id o st = (Throw (NotFound id), st)) /\
  (forall g o t v,
     rejects st id (encode (JObj (asset_props (mkAsset id g o t v)))) = None ->
     (CreateAsset id g o t v st).2
     = stored id (encode (JObj (asset_props (mkAsset id g o t v)))) st) /\
  (id, EmptyString) ∈ scan st /\
  exists entries,
    GetAllAssets st = (Ok (JSON_stringify (JArr entries)), st) /\
    JStr EmptyString ∈ entries /\
    length entries = size (states st).
Proof.
  intros Hg.
  assert (~ present st id) as Ha.
  { intros (buf & Hg' & Hne). rewrite Hg in Hg'. by injection Hg' as <-. }
  split_and!.
  - by rewrite AssetExists_run, Hg.
  - by apply ReadAsset_absent.
  - by apply DeleteAsset_absent.
  - intros g o t v. by apply UpdateAsset_absent.
  - intros o. by apply TransferAsset_absent.
  - intros g o t v Hr. rewrite CreateAsset_absent by done. cbn zeta. by rewrite Hr.
  - by apply elem_of_scan.
  - eexists. split; [apply GetAllAssets_run|]. split.
    + apply (list_elem_of_fmap_2' _ _ (id, EmptyString)); [by apply elem_of_scan|reflexivity].
    + by rewrite length_map, length_scan.
Qed.

Lemma empty_value_counts_as_absent_witness :
  AssetExists "asset1" (stored "asset1" EmptyString (empty_stub accepting))
  = (Ok (boolean false), stored "asset1" EmptyString (empty_stub accepting)) /\
  DeleteAsset "asset1" (stored "asset1" EmptyString (empty_stub accepting))
  = (Throw (NotFound "asset1"), stored "asset1" EmptyString (empty_stub accepting)) /\
  exists entries,
    GetAllAssets (stored "asset1" EmptyString (empty_stub accepting))
    = (Ok (JSON_stringify (JArr entries)),
       stored "asset1" EmptyString (empty_stub accepting)) /\
    JStr EmptyString ∈ entries /\
    length entries = 1%nat.
Proof.
  destruct (empty_value_counts_as_absent
              (stored "asset1" EmptyString (empty_stub accepting)) "asset1")
    as (He & _ & Hd & _ & _ & _ & _ & entries & Hall & Hin & Hlen).
  - reflexivity.
  - split_and!; [exact He|exact Hd|]. exists entries. split_and!; [exact Hall|exact Hin|].
    rewrite Hlen. vm_compute. reflexivity.
Defined.

(** ** X9: UpdateAsset overwrites *)

(** X9.  On a store that accepts every write, the world state after
    UpdateAsset depends on what was stored under id only through its being
    there: a second UpdateAsset gives the same result and world state as if
    the first had not happened, repeating an UpdateAsset changes nothing, and
    a CreateAsset followed by an UpdateAsset leaves the world state of a
    CreateAsset with the values of the update. *)
Theorem UpdateAsset_last_write_wins (st : ChaincodeStub) (id g o t g' o' t' : string)
    (v v' : Z) :
  (forall key value, rejects st key value = None) ->
  (present st id ->
     UpdateAsset id g' o' t' v' (UpdateAsset id g o t v st).2 = UpdateAsset id g' o' t' v' st /\
     UpdateAsset id g o t v (UpdateAsset id g o t v st).2 = UpdateAsset id g o t v st) /\
  (~ present st id ->
     (UpdateAsset id g' o' t' v' (CreateAsset id g o t v st).2).2
     = (CreateAsset id g' o' t' v' st).2 /\
     (UpdateAsset id g o t v (CreateAsset id g o t v st).2).2 = (CreateAsset id g o t v st).2).
Proof.
  intros Hacc.
  assert (Hup : forall st0 g0 o0 t0 v0,
    rejects st0 = rejects st -> present st0 id ->
    UpdateAsset id g0 o0 t0 v0 st0
    = (Ok tt, stored id (encode (JObj (asset_props (mkAsset id g0 o0 t0 v0)))) st0)).
  { intros st0 g0 o0 t0 v0 Hr Hp. rewrite UpdateAsset_present by done. cbn zeta.
    by rewrite Hr, Hacc. }
  assert (Hcr : forall g0 o0 t0 v0,
    ~ present st id ->
    CreateAsset id g0 o0 t0 v0 st
    = (Ok (JSON_stringify (JObj (asset_props (mkAsset id g0 o0 t0 v0)))),
       stored id (encode (JObj (asset_props (mkAsset id g0 o0 t0 v0)))) st)).
  { intros g0 o0 t0 v0 Ha. rewrite CreateAsset_absent by done. cbn zeta. by rewrite Hacc. }
  split.
  - intros Hp. rewrite !(Hup st) by done. cbn [snd].
    rewrite !Hup; [|done|apply present_stored, encode_nonempty
                   |done|apply present_stored, encode_nonempty].
    by rewrite !stored_stored.
  - intros Ha. rewrite !Hcr by done. cbn [snd].
    rewrite !Hup; [|done|apply present_stored, encode_nonempty
                   |done|apply present_stored, encode_nonempty].
    cbn [snd]. by rewrite !stored_stored.
Qed.

(** Two updates of asset1 after InitLedger leave what the second alone
    leaves. *)
Lemma UpdateAsset_last_write_wins_witness :
  UpdateAsset "asset1" "Go" "Me" "player" 500
    (UpdateAsset "asset1" "Chess" "Paul" "player" 100 (InitLedger (empty_stub accepting)).2).2
  = UpdateAsset "asset1" "Go" "Me" "player" 500 (InitLedger (empty_stub accepting)).2.
Proof.
  apply (UpdateAsset_last_write_wins (InitLedger (empty_stub accepting)).2
           "asset1" "Chess" "Paul" "player" "Go" "Me" "player" 100 500).
  - intros key value.
    change (InitLedger (empty_stub accepting)).2
      with (invoke InvInitLedger (empty_stub accepting)).
    by rewrite invoke_rejects.
  - eexists. split; [vm_compute; reflexivity|discriminate].
Defined.

(** ** X10: what the world state holds *)

(** X10.  From the empty world state, whatever the store refuses, after
    any sequence of InitLedger, CreateAsset, UpdateAsset, TransferAsset and
    DeleteAsset invocations, every stored value is, byte for byte, the
    compact JSON text of an object with exactly the fields game_name,
    game_value, id, owner_name and owner_type, in this order, preceded by
    docType (with the value asset) or not; the id is the key, the game value
    is a number and the other values are strings.  Decoding the value and
    encoding it again gives the same bytes. *)
Theorem stored_values_are_asset_records (refusals : string -> string -> option string)
    (l : list Invocation) (key value : string) :
  states (run l (empty_stub refusals)) !! key = Some value ->
  exists tag a,
    asset_id a = key /\
    value = JSON_stringify (JObj (stored_props tag a)) /\
    JSON_parse value = Some (JObj (stored_props tag a)) /\
    encode (JObj (stored_props tag a)) = value.
Proof.
  intros (tag & a & Hid & ->)%reachable_records.
  exists tag, a. split_and!; [done|apply encode_record_of|apply JSON_parse_record_of|].
  rewrite !encode_sort_keys; [by destruct tag|apply record_of_wf|by destruct tag].
Qed.

Lemma stored_values_are_asset_records_witness :
  exists tag a,
    asset_id a = "asset1" /\
    encode (JObj (obj_set "owner_name" (JStr "Me")
                    (obj_set "docType" (JStr "asset")
                       (asset_props (mkAsset "asset1" "game1" "Tomoko" "player" 300)))))
    = JSON_stringify (JObj (stored_props tag a)).
Proof.
  destruct (stored_values_are_asset_records accepting
              [InvInitLedger; InvTransferAsset "asset1" "Me"; InvDeleteAsset "asset2";
               InvCreateAsset "asset7" "Chess" "Robert" "player" 100]
              "asset1"
              (encode (JObj (obj_set "owner_name" (JStr "Me")
                               (obj_set "docType" (JStr "asset")
                                  (asset_props (mkAsset "asset1" "game1" "Tomoko" "player" 300)))))))
    as (tag & a & Hid & Hv & _).
  - vm_compute. reflexivity.
  - by exists tag, a.
Defined.

(** ** X11 and X12: TransferAsset *)

(** X11.  On a world state that the contract has built from the empty one
    on a store that accepts every write, TransferAsset of an id that is
    present returns the JSON text of an object whose oldOwnerName is the
    owner_name of the stored record, a string, and stores the same record
    with the new owner, its docType kept if it had one.  Transfers compose:
    a second transfer returns the owner that the first one set and leaves the
    world state of a single transfer to the last owner; a transfer back to
    the old owner restores the world state; and a transfer to the present
    owner changes nothing. *)
Theorem TransferAsset_chain (l : list Invocation) (id o1 o2 : string) :
  present (run l (empty_stub accepting)) id ->
  exists tag a st1 st2,
    asset_id a = id /\
    states (run l (empty_stub accepting)) !! id
      = Some (JSON_stringify (JObj (stored_props tag a))) /\
    TransferAsset id o1 (run l (empty_stub accepting))
      = (Ok (JSON_stringify (JObj [("oldOwnerName", JStr (owner_name a))])), st1) /\
    states st1 !! id = Some (JSON_stringify (JObj (stored_props tag (with_owner a o1)))) /\
    TransferAsset id o2 st1 = (Ok (JSON_stringify (JObj [("oldOwnerName", JStr o1)])), st2) /\
    st2 = (TransferAsset id o2 (run l (empty_stub accepting))).2 /\
    (TransferAsset id (owner_name a) st1).2 = run l (empty_stub accepting) /\
    (TransferAsset id o1 st1).2 = st1.
Proof.
  set (st := run l (empty_stub accepting)).
  assert (Hacc : forall key value, rejects st key value = None).
  { intros key value. subst st. by rewrite run_rejects. }
  intros (buf & Hg & _).
  destruct (reachable_records l accepting id buf Hg) as (tag & a & <- & ->).
  fold st in Hg.
  assert (Hstep : forall b o st0,
    asset_id b = asset_id a -> rejects st0 = rejects st ->
    states st0 !! asset_id a = Some (encode (record_of tag b)) ->
    TransferAsset (asset_id a) o st0
    = (Ok (JSON_stringify (JObj [("oldOwnerName", JStr (owner_name b))])),
       stored (asset_id a) (encode (record_of tag (with_owner b o))) st0)).
  { intros b o st0 Hid Hr Hb. rewrite <- Hid in *.
    rewrite (TransferAsset_record tag b o st0 Hb). by rewrite Hr, Hacc. }
  exists tag, a. do 2 eexists. split_and!.
  - done.
  - by rewrite Hg, encode_record_of.
  - by apply Hstep.
  - cbn [stored states]. by rewrite lookup_insert_eq, encode_record_of.
  - by apply (Hstep (with_owner a o1)); [..|apply lookup_insert_eq].
  - rewrite (Hstep a o2 st) by done. cbn [snd]. by rewrite stored_stored.
  - rewrite (Hstep (with_owner a o1)); [|done..|apply lookup_insert_eq].
    cbn [snd]. rewrite stored_stored.
    replace (with_owner (with_owner a o1) (owner_name a)) with a by by destruct a.
    by apply stored_same.
  - rewrite (Hstep (with_owner a o1)); [|done..|apply lookup_insert_eq].
    cbn [snd]. by rewrite stored_stored.
Qed.

(** After InitLedger, asset1 goes from Tomoko to Paul, then to Me; sent
    back to Tomoko instead, the world state is that of InitLedger again. *)
Lemma TransferAsset_chain_witness :
  exists st1 st2,
    TransferAsset "asset1" "Paul" (run [InvInitLedger] (empty_stub accepting))
      = (Ok (JSON_stringify (JObj [("oldOwnerName", JStr "Tomoko")])), st1) /\
    TransferAsset "asset1" "Me" st1
      = (Ok (JSON_stringify (JObj [("oldOwnerName", JStr "Paul")])), st2) /\
    (TransferAsset "asset1" "Tomoko" st1).2 = run [InvInitLedger] (empty_stub accepting).
Proof.
  destruct (TransferAsset_chain [InvInitLedger] "asset1" "Paul" "Me")
    as (tag & a & st1 & st2 & _ & _ & H1 & _ & H2 & _ & H3 & _).
  - eexists. split; [vm_compute; reflexivity|discriminate].
  - exists st1, st2.
    assert (owner_name a = "Tomoko") as Ho; [|by rewrite Ho in H1, H3].
    assert ((TransferAsset "asset1" "Paul" (run [InvInitLedger] (empty_stub accepting))).1
            = Ok (JSON_stringify (JObj [("oldOwnerName", JStr "Tomoko")]))) as H
      by (vm_compute; reflexivity).
    rewrite H1 in H. cbn [fst] in H.
    apply (f_equal (fun r => match r with Ok text => JSON_parse text | Throw _ => None end)) in H.
    cbv beta iota in H. rewrite !JSON_parse_stringify in H. by injection H.
Defined.

(** X12.  TransferAsset needs a stored record.  On a stored value that is
    not JSON it fails with the SyntaxError of JSON.parse; on one that decodes
    to null, a boolean, a number or a string it fails with the TypeError of
    the property access of strict mode; in both cases nothing is written.
    It returns only when the stored value decodes to an object or an
    array. *)
Theorem TransferAsset_needs_a_record (st : ChaincodeStub) (id o : string) :
  (forall buf, states st !! id = Some buf -> buf <> EmptyString -> JSON_parse buf = None ->
     TransferAsset id o st = (Throw SyntaxError, st)) /\
  (forall buf v, states st !! id = Some buf -> buf <> EmptyString ->
     JSON_parse buf = Some v -> is_scalar v = true ->
     TransferAsset id o st = (Throw TypeError, st)) /\
  (forall ret st', TransferAsset id o st = (Ok ret, st') ->
     exists buf v,
       states st !! id = Some buf /\ JSON_parse buf = Some v /\ is_scalar v = false).
Proof.
  split_and!.
  - intros buf Hg Hne Hparse.
    rewrite (TransferAsset_present id o st buf) by done. by rewrite Hparse.
  - intros buf v Hg Hne Hparse Hs.
    rewrite (TransferAsset_present id o st buf) by done. rewrite Hparse.
    by destruct v.
  - intros ret st' H.
    destruct (present_or_absent st id) as [(buf & Hg & Hne)|Ha];
      [|by rewrite TransferAsset_absent in H].
    rewrite (TransferAsset_present id o st buf) in H by done.
    destruct (JSON_parse buf) as [v|] eqn:Hparse; [|done].
    exists buf, v. split_and!; [done..|]. by destruct v.
Qed.

(** A stored number is no record: TransferAsset fails with a TypeError. *)
Lemma TransferAsset_needs_a_record_witness :
  TransferAsset "asset1" "Me" (stored "asset1" "300" (empty_stub accepting))
  = (Throw TypeError, stored "asset1" "300" (empty_stub accepting)).
Proof.
  apply (proj1 (proj2 (TransferAsset_needs_a_record
                         (stored "asset1" "300" (empty_stub accepting)) "asset1" "Me"))
           "300" (JNum 300)); [reflexivity|discriminate|reflexivity|reflexivity].
Defined.

(** A stored number with decimals is no record either, and a text that
    is no numeral is not JSON. *)
Example TransferAsset_on_numerals :
  TransferAsset "asset1" "Me" (stored "asset1" "1.5" (empty_stub accepting))
  = (Throw TypeError, stored "asset1" "1.5" (empty_stub accepting)) /\
  TransferAsset "asset1" "Me" (stored "asset1" "1.5.5" (empty_stub accepting))
  = (Throw SyntaxError, stored "asset1" "1.5.5" (empty_stub accepting)).
Proof. split; vm_compute; reflexivity. Qed.

(** ** X13 and X14: GetAllAssets *)

(** X13.  On a world state that the contract has built from the empty one,
    whatever the store refuses, GetAllAssets returns the JSON text of an
    array that holds, for each stored pair in the order of the range query,
    the decoded asset record whose id is the key of the pair: no entry is a
    raw string.  The returned text decodes to that very array. *)
Theorem GetAllAssets_lists_records (refusals : string -> string -> option string)
    (l : list Invocation) :
  exists entries,
    GetAllAssets (run l (empty_stub refusals))
      = (Ok (JSON_stringify (JArr entries)), run l (empty_stub refusals)) /\
    Forall2 (fun kv entry =>
               exists tag a,
                 asset_id a = kv.1 /\ entry = JObj (stored_props tag a) /\
                 JSON_parse kv.2 = Some entry)
      (scan (run l (empty_stub refusals))) entries /\
    JSON_parse (JSON_stringify (JArr entries)) = Some (JArr entries).
Proof.
  set (st := run l (empty_stub refusals)).
  eexists. split; [apply GetAllAssets_run|].
  assert (Hall : Forall (fun kv => exists tag a,
            asset_id a = kv.1 /\ kv.2 = encode (record_of tag a)) (scan st)).
  { apply Forall_forall. intros kv Hkv%elem_of_scan.
    by apply (reachable_records l refusals). }
  split.
  - apply Forall2_fmap_r, Forall_Forall2_diag.
    eapply Forall_impl; [exact Hall|]. intros kv (tag & a & Hid & Hv). simpl.
    exists tag, a. rewrite Hv, JSON_parse_record_of. done.
  - rewrite JSON_parse_stringify. cbn [normalize]. do 2 f_equal.
    induction Hall as [|kv rest (tag & a & Hid & Hv) _ IH]; [done|].
    cbn [map]. rewrite IH. f_equal.
    rewrite Hv, JSON_parse_record_of. apply stored_props_normalize.
Qed.

(** Sorting by key commutes with a change of the values. *)
Lemma merge_sort_fmap_keys {A B} (h : string * A -> string * B) (l : list (string * A)) :
  (forall kv, (h kv).1 = kv.1) -> NoDup l.*1 ->
  h <$> merge_sort key_le l = merge_sort key_le (h <$> l).
Proof.
  intros Hh Hnd.
  assert (Hkeys : forall l' : list (string * A), (h <$> l').*1 = l'.*1).
  { intros l'. rewrite <- list_fmap_compose. apply list_fmap_ext. intros _ kv _. apply Hh. }
  apply (StronglySorted_unique_strong key_le).
  - intros x1 x2 Hx1 Hx2 H12 H21.
    apply (NoDup_keys_elem_eq (h <$> merge_sort key_le l)); [|done|..].
    + by rewrite Hkeys, merge_sort_Permutation.
    + rewrite merge_sort_Permutation in Hx2. by rewrite merge_sort_Permutation.
    + unfold key_le in *. by apply (anti_symm String.le).
  - assert (Hs : StronglySorted key_le (merge_sort key_le l))
      by (apply StronglySorted_merge_sort; apply _).
    induction Hs as [|x l' Hs IH Hx]; csimpl; constructor; [done|].
    apply Forall_fmap. eapply Forall_impl; [exact Hx|].
    intros y Hy. unfold key_le in *. simpl. by rewrite !Hh.
  - apply StronglySorted_merge_sort; apply _.
  - by rewrite !merge_sort_Permutation.
Qed.

(** Two values with the same entry, stored under the same key, give the
    same entries. *)
Lemma entries_of_insert key v w (m : gmap string string) :
  entry_of (key, v) = entry_of (key, w) ->
  entry_of <$> merge_sort key_le (map_to_list (<[key := v]> m))
  = entry_of <$> merge_sort key_le (map_to_list (<[key := w]> m)).
Proof.
  intros Heq.
  set (h := fun kv : string * string => (kv.1, entry_of kv)).
  assert (Hsnd : forall l : list (string * string), entry_of <$> l = (h <$> l).*2).
  { intros l. by rewrite <- list_fmap_compose. }
  rewrite !Hsnd, !(merge_sort_fmap_keys h); try done; try apply NoDup_fst_map_to_list.
  f_equal. apply merge_sort_perm_eq.
  - rewrite <- list_fmap_compose. apply (NoDup_fst_map_to_list (<[key := v]> m)).
  - rewrite <- !(insert_delete_eq m).
    rewrite !map_to_list_insert by apply lookup_delete_eq.
    rewrite !fmap_cons. unfold h at 1 3. simpl. by rewrite Heq.
Qed.

(** X14.  GetAllAssets does not tell a stored value that is not JSON from
    the stored JSON string with the same text: with either of them under a
    key, and the rest of the world state the same, it returns the same
    text. *)
Theorem GetAllAssets_raw_or_string (st : ChaincodeStub) (key s : string) :
  JSON_parse s = None ->
  (GetAllAssets (stored key s st)).1
  = (GetAllAssets (stored key (JSON_stringify (JStr s)) st)).1.
Proof.
  intros Hs. rewrite !GetAllAssets_run. cbn [fst]. do 3 f_equal.
  apply (entries_of_insert key s (JSON_stringify (JStr s)) (states st)).
  unfold entry_of. simpl. by rewrite Hs, JSON_parse_stringify.
Qed.

Lemma GetAllAssets_raw_or_string_witness :
  (GetAllAssets (stored "asset1" "non-json-value" (empty_stub accepting))).1
  = (GetAllAssets (stored "asset1" (JSON_stringify (JStr "non-json-value"))
                     (empty_stub accepting))).1.
Proof. apply GetAllAssets_raw_or_string. reflexivity. Defined.

(** A numeral is JSON: GetAllAssets tells the stored number 1.5 from the
    stored string with that text. *)
Example GetAllAssets_numeral_or_string :
  (GetAllAssets (stored "asset1" "1.5" (empty_stub accepting))).1 = Ok "[1.5]" /\
  (GetAllAssets (stored "asset1" (JSON_stringify (JStr "1.5")) (empty_stub accepting))).1
  = Ok (JSON_stringify (JArr [JStr "1.5"])) /\
  JSON_stringify (JArr [JStr "1.5"]) <> "[1.5]".
Proof. split_and!; [vm_compute; reflexivity..|discriminate]. Qed.

(** ** X15: InitLedger writes over what is there *)

Lemma seeded_agree l st1 st2 :
  NoDup (asset_id <$> l) ->
  rejects st1 = rejects st2 ->
  (forall key, key ∉ asset_id <$> l -> states st1 !! key = states st2 !! key) ->
  seeded l st1 = seeded l st2.
Proof.
  intros Hnd Hr Hother. apply stub_eq; [|by rewrite !seeded_rejects].
  apply map_eq. intros key.
  destruct (decide (key ∈ asset_id <$> l)) as [Hin|Hout].
  - apply list_elem_of_fmap in Hin as (a & -> & Ha). by rewrite !seeded_lookup.
  - rewrite !seeded_lookup_other by done. by apply Hother.
Qed.

(** X15.  InitLedger makes no existence check: on a store that accepts
    every write, its result and the world state it leaves depend on the world
    state before only through the keys other than the six seed ids.  So it is
    idempotent, it restores the seed records after any invocation that
    touches seed ids only, and a CreateAsset of a seed id after it fails with
    AlreadyExists. *)
Theorem InitLedger_resets_seed_records (st1 st2 : ChaincodeStub) :
  (forall key value, rejects st1 key value = None) ->
  rejects st2 = rejects st1 ->
  (forall key, key ∉ asset_id <$> assets -> states st1 !! key = states st2 !! key) ->
  InitLedger st1 = InitLedger st2 /\
  InitLedger (InitLedger st1).2 = InitLedger st1 /\
  (forall i, (forall key, touches i key -> key ∈ asset_id <$> assets) ->
     InitLedger (invoke i (InitLedger st1).2) = InitLedger st1) /\
  (forall a g o t v, a ∈ assets ->
     CreateAsset (asset_id a) g o t v (InitLedger st1).2
     = (Throw (AlreadyExists (asset_id a)), (InitLedger st1).2)).
Proof.
  intros Hacc Hr Hother.
  assert (Hrun : forall st, rejects st = rejects st1 -> InitLedger st = (Ok tt, seeded assets st)).
  { intros st Hst. apply InitLedger_loop_ok. intros a _. by rewrite Hst. }
  assert (Hsame : forall st, rejects st = rejects st1 ->
            (forall key, key ∉ asset_id <$> assets -> states st !! key = states st1 !! key) ->
            InitLedger st = InitLedger st1).
  { intros st Hst Hkeys. rewrite (Hrun st), (Hrun st1) by done. f_equal.
    by apply seeded_agree; [apply assets_NoDup|..]. }
  assert (Hseed : forall key, key ∉ asset_id <$> assets ->
            states (InitLedger st1).2 !! key = states st1 !! key).
  { intros key Hkey. rewrite (Hrun st1) by done. by apply seeded_lookup_other. }
  assert (Hrej : rejects (InitLedger st1).2 = rejects st1).
  { rewrite (Hrun st1) by done. apply seeded_rejects. }
  split_and!.
  - symmetry. apply Hsame; [done|]. intros key Hkey. symmetry. by apply Hother.
  - by apply Hsame.
  - intros i Hi. apply Hsame.
    + by rewrite invoke_rejects.
    + intros key Hkey. rewrite invoke_frame; [by apply Hseed|]. intros Ht. by apply Hkey, Hi.
  - intros a g o t v Ha. apply CreateAsset_present.
    rewrite (Hrun st1) by done. eexists. split.
    + apply seeded_lookup; [apply assets_NoDup|done].
    + apply encode_nonempty.
Qed.

(** After a transfer, a delete and an update of seed records, InitLedger
    leaves what it leaves on the empty world state. *)
Lemma InitLedger_resets_seed_records_witness :
  InitLedger (empty_stub accepting)
  = InitLedger
      (run [InvTransferAsset "asset1" "Me"; InvDeleteAsset "asset2";
            InvUpdateAsset "asset3" "Go" "Jin Soo" "player" 550]
         (InitLedger (empty_stub accepting)).2).
Proof.
  refine (proj1 (InitLedger_resets_seed_records (empty_stub accepting)
                   (run [InvTransferAsset "asset1" "Me"; InvDeleteAsset "asset2";
                         InvUpdateAsset "asset3" "Go" "Jin Soo" "player" 550]
                      (InitLedger (empty_stub accepting)).2) _ _ _)).
  - done.
  - rewrite run_rejects. apply (invoke_rejects InvInitLedger).
  - intros key Hkey. symmetry.
    change (InitLedger (empty_stub accepting)).2
      with (invoke InvInitLedger (empty_stub accepting)).
    cbn [run fold_left].
    rewrite !invoke_frame; [done|..]; cbn [touches]; try done;
      intros ->; apply Hkey; by apply (bool_decide_unpack _).
Defined.

(** ** X16: the messages of the errors *)

Lemma length_app_string (s1 s2 : string) :
  String.length (s1 +:+ s2) = (String.length s1 + String.length s2)%nat.
Proof.
  induction s1 as [|c s1 IH]; [done|].
  change (String c s1 +:+ s2) with (String c (s1 +:+ s2)). simpl. by rewrite IH.
Qed.

(** Two texts that end in suffixes of the same length are equal only if
    the suffixes are equal, and the parts before them too. *)
Lemma app_string_inj (a b s t : string) :
  String.length s = String.length t -> a +:+ s = b +:+ t -> a = b /\ s = t.
Proof.
  revert b. induction a as [|c a IH]; intros [|d b] Hlen Heq.
  - done.
  - change (s = String d (b +:+ t)) in Heq. subst s.
    simpl in Hlen. rewrite length_app_string in Hlen. lia.
  - change (String c (a +:+ s) = t) in Heq. subst t.
    simpl in Hlen. rewrite length_app_string in Hlen. lia.
  - change (String c (a +:+ s) = String d (b +:+ t)) in Heq.
    injection Heq as -> Heq. destruct (IH b Hlen Heq) as [-> ->]. done.
Qed.

(** X16.  The message of the error of an existence check tells which
    check failed and for which id.  On an id under which no non-empty value is
    stored, ReadAsset, UpdateAsset, DeleteAsset and TransferAsset throw an
    error with the message: The asset, the id, does not exist; on an id under
    which one is stored, CreateAsset throws one with the message: The asset,
    the id, already exists.  No id makes the two messages equal, and two
    messages of the same kind are equal only for the same id. *)
Theorem message_tells_the_error (id id' : string) :
  (forall st, ~ present st id ->
     exists e,
       message e = "The asset " +:+ id +:+ " does not exist" /\
       (ReadAsset id st).1 = Throw e /\
       (forall g o t v, (UpdateAsset id g o t v st).1 = Throw e) /\
       (DeleteAsset id st).1 = Throw e /\
       (forall o, (TransferAsset id o st).1 = Throw e)) /\
  (forall st, present st id ->
     exists e,
       message e = "The asset " +:+ id +:+ " already exists" /\
       forall g o t v, (CreateAsset id g o t v st).1 = Throw e) /\
  message (AlreadyExists id) <> message (NotFound id') /\
  (message (AlreadyExists id) = message (AlreadyExists id') -> id = id') /\
  (message (NotFound id) = message (NotFound id') -> id = id').
Proof.
  split_and!.
  - intros st Ha. exists (NotFound id). split_and!; [done|..]; intros.
    + by rewrite ReadAsset_absent.
    + by rewrite UpdateAsset_absent.
    + by rewrite DeleteAsset_absent.
    + by rewrite TransferAsset_absent.
  - intros st Hp. exists (AlreadyExists id). split; [done|]. intros.
    by rewrite CreateAsset_present.
  - cbn [message]. intros H. apply String.app_inj in H.
    by destruct (app_string_inj id id' " already exists" " does not exist" eq_refl H).
  - cbn [message]. intros H. apply String.app_inj in H.
    by destruct (app_string_inj id id' " already exists" " already exists" eq_refl H).
  - cbn [message]. intros H. apply String.app_inj in H.
    by destruct (app_string_inj id id' " does not exist" " does not exist" eq_refl H).
Qed.

(** * The store of the test suite *)

(** ** The object of the fake store, as a finite map *)

Lemma own_get_lookup key props :
  own_get key props = (list_to_map props : gmap string string) !! key.
Proof.
  induction props as [|[k v] props IH]; simpl; [by rewrite lookup_empty|].
  destruct (String.eqb_spec key k) as [->|Hne].
  - by rewrite lookup_insert_eq.
  - by rewrite lookup_insert_ne.
Qed.

Lemma own_get_None key props : own_get key props = None <-> key ∉ props.*1.
Proof. rewrite own_get_lookup. by rewrite <- not_elem_of_list_to_map. Qed.

Lemma own_replace_keys key v props : (own_replace key v props).*1 = props.*1.
Proof.
  induction props as [|[k w] props IH]; simpl; [done|].
  destruct (String.eqb key k); csimpl; [done|by f_equal].
Qed.

Lemma own_replace_map key v props :
  is_Some (own_get key props) ->
  (list_to_map (own_replace key v props) : gmap string string) = <[key := v]> (list_to_map props).
Proof.
  induction props as [|[k w] props IH]; simpl; [by intros [? ?]|].
  destruct (String.eqb_spec key k) as [->|Hne]; simpl.
  - intros _. by rewrite insert_insert_eq.
  - intros H. rewrite IH by done. by apply insert_insert_ne.
Qed.

Lemma own_insert_index_perm n key v props :
  own_insert_index n key v props ≡ₚ (key, v) :: props.
Proof.
  induction props as [|[k w] props IH]; simpl; [done|].
  destruct (array_index k) as [m|]; [|done].
  destruct (m <? n)%N; [|done].
  rewrite IH. apply Permutation_swap.
Qed.

Lemma own_set_fresh_perm key v props :
  own_get key props = None -> own_set key v props ≡ₚ (key, v) :: props.
Proof.
  intros Hg. unfold own_set. rewrite Hg.
  destruct (array_index key) as [n|].
  - apply own_insert_index_perm.
  - symmetry. apply Permutation_cons_append.
Qed.

Lemma own_set_NoDup key v props : NoDup props.*1 -> NoDup (own_set key v props).*1.
Proof.
  intros Hnd. destruct (own_get key props) as [w|] eqn:Hg.
  - unfold own_set. rewrite Hg. by rewrite own_replace_keys.
  - rewrite (own_set_fresh_perm _ _ _ Hg). simpl.
    apply NoDup_cons. split; [|done]. by apply own_get_None.
Qed.

(** Assigning a property is an insertion into the map. *)
Lemma own_set_map key v props :
  NoDup props.*1 ->
  (list_to_map (own_set key v props) : gmap string string) = <[key := v]> (list_to_map props).
Proof.
  intros Hnd. destruct (own_get key props) as [w|] eqn:Hg.
  - unfold own_set. rewrite Hg. by apply own_replace_map.
  - rewrite (list_to_map_proper _ ((key, v) :: props)); [done| |by apply own_set_fresh_perm].
    by apply own_set_NoDup.
Qed.

Lemma own_delete_keys_sub key props k : k ∈ (own_delete key props).*1 -> k ∈ props.*1.
Proof.
  induction props as [|[k' w] props IH]; simpl; [done|].
  destruct (String.eqb key k'); csimpl; rewrite !elem_of_cons; naive_solver.
Qed.

Lemma own_delete_NoDup key props : NoDup props.*1 -> NoDup (own_delete key props).*1.
Proof.
  induction props as [|[k w] props IH]; simpl; [done|].
  csimpl. intros [Hk Hnd]%NoDup_cons.
  destruct (String.eqb key k); [done|]. csimpl. apply NoDup_cons. split; [|by apply IH].
  intros Hin. by apply Hk, (own_delete_keys_sub key).
Qed.

(** Deleting a property is a deletion from the map. *)
Lemma own_delete_map key props :
  NoDup props.*1 ->
  (list_to_map (own_delete key props) : gmap string string) = delete key (list_to_map props).
Proof.
  induction props as [|[k w] props IH]; simpl; [by rewrite delete_empty|].
  csimpl. intros [Hk Hnd]%NoDup_cons.
  destruct (String.eqb_spec key k) as [->|Hne]; simpl.
  - rewrite delete_insert_eq. symmetry. apply delete_id. by apply not_elem_of_list_to_map.
  - rewrite IH by done. by rewrite delete_insert_ne.
Qed.

(** ** The fake store and the world state, call by call *)

Lemma fake_call_sim c field st :
  covered c -> field_wf field -> world_of field = states st ->
  (forall key value, rejects st key value = None) ->
  exists field',
    fake_call c field = Some field' /\ field_wf field' /\
    stub_call c st = (Ok tt, (stub_call c st).2) /\
    rejects (stub_call c st).2 = rejects st /\
    world_of field' = states (stub_call c st).2.
Proof.
  intros Hc Hwf Hw Hacc. destruct c as [key value|key]; cbn [fake_call stub_call covered] in *.
  - unfold fake_putState. destruct (String.eqb_spec key "__proto__") as [->|_]; [done|].
    eexists. split; [done|]. rewrite putState_run, Hacc. cbn [snd stored states rejects].
    destruct field as [|props]; cbn [field_wf world_of] in *.
    + split_and!; [apply (own_set_NoDup _ _ []); constructor|done|done|].
      rewrite own_set_map by constructor. by rewrite <- Hw.
    + split_and!; [by apply own_set_NoDup|done|done|].
      rewrite own_set_map by done. by rewrite Hw.
  - eexists. split; [done|]. unfold deleteState. cbn [snd fake_deleteState states rejects].
    destruct field as [|props]; cbn [field_wf world_of] in *.
    + split_and!; [done..|]. by rewrite <- Hw, delete_empty.
    + split_and!; [by apply own_delete_NoDup|done|done|].
      rewrite own_delete_map by done. by rewrite Hw.
Qed.

Lemma fake_calls_sim l :
  forall field st,
    Forall covered l -> field_wf field -> world_of field = states st ->
    (forall key value, rejects st key value = None) ->
    exists field',
      fake_calls l field = Some field' /\ field_wf field' /\
      for_each stub_call l st = (Ok tt, (for_each stub_call l st).2) /\
      world_of field' = states (for_each stub_call l st).2.
Proof.
  induction l as [|c l IH]; intros field st Hl Hwf Hw Hacc.
  - exists field. by split_and!.
  - apply Forall_cons in Hl as [Hc Hl].
    destruct (fake_call_sim c field st Hc Hwf Hw Hacc) as (field1 & Hf & Hwf1 & Hs & Hr & Hw1).
    destruct (IH field1 (stub_call c st).2 Hl Hwf1 Hw1) as (field' & Hf' & Hwf' & Hs' & Hw').
    { intros key value. by rewrite Hr. }
    exists field'. cbn [fake_calls]. rewrite Hf. rewrite for_each_cons, Hs.
    by split_and!.
Qed.

Lemma fake_getState_world key field :
  fake_getState key field =
    match world_of field !! key with
    | Some value => Own value
    | None =>
        match field with
        | NoStates => Undefined
        | StatesObject _ =>
            if bool_decide (key ∈ Object_prototype_keys) then Inherited else Undefined
        end
    end.
Proof.
  destruct field as [|props]; cbn [fake_getState world_of].
  - by rewrite lookup_empty.
  - by rewrite own_get_lookup.
Qed.

Lemma fake_range_world field :
  field_wf field ->
  fake_getStateByRange EmptyString EmptyString field ≡ₚ (map_to_list (world_of field)).*2.
Proof.
  unfold fake_getStateByRange.
  destruct field as [|props]; cbn [internalGetStateByRange world_of field_wf].
  - by rewrite map_to_list_empty.
  - intros Hnd. by rewrite map_to_list_to_map.
Qed.

(** ** X17: the fake store is a store *)

(** X17.  After any sequence of writes and deletes (no write under the key
    __proto__), the fake store of the test suite holds what the world state
    holds after the same calls on a store that accepts every write: its
    getState answers with the value that is stored under a key exactly when
    the world state has that value there; for a key that names no property of
    Object.prototype it answers undefined exactly when the world state has
    nothing there; and its range query yields the stored values, each once,
    in some order.  For a key that names a property of Object.prototype and
    holds nothing, it answers with the inherited property instead of
    undefined, once the object exists. *)
Theorem test_store_refines_world_state (l : list StoreCall) :
  Forall covered l ->
  exists field,
    fake_calls l NoStates = Some field /\
    for_each stub_call l (empty_stub accepting)
      = (Ok tt, (for_each stub_call l (empty_stub accepting)).2) /\
    (forall key value,
       fake_getState key field = Own value <->
       states (for_each stub_call l (empty_stub accepting)).2 !! key = Some value) /\
    (forall key, key ∉ Object_prototype_keys ->
       fake_getState key field = Undefined <->
       states (for_each stub_call l (empty_stub accepting)).2 !! key = None) /\
    fake_getStateByRange EmptyString EmptyString field
      ≡ₚ (scan (for_each stub_call l (empty_stub accepting)).2).*2 /\
    (forall key, key ∈ Object_prototype_keys -> field <> NoStates ->
       states (for_each stub_call l (empty_stub accepting)).2 !! key = None ->
       fake_getState key field = Inherited).
Proof.
  intros Hl.
  destruct (fake_calls_sim l NoStates (empty_stub accepting) Hl I eq_refl)
    as (field & Hf & Hwf & Hs & Hw); [done|].
  exists field. split_and!; [done|done| | | |].
  - intros key value. rewrite fake_getState_world, Hw.
    destruct (_ !! key) as [v|]; [naive_solver|].
    destruct field; [done|]. by case_bool_decide.
  - intros key Hkey. rewrite fake_getState_world, Hw.
    destruct (_ !! key) as [v|]; [done|].
    destruct field; [done|]. by rewrite bool_decide_false.
  - rewrite fake_range_world by done. rewrite Hw. unfold scan.
    by rewrite merge_sort_Permutation.
  - intros key Hkey Hfield. rewrite fake_getState_world, Hw. intros ->.
    destruct field; [done|]. by rewrite bool_decide_true.
Qed.

(** Two writes and a delete: asset2 is there, asset1 is gone, and toString
    is answered from the prototype. *)
Lemma test_store_refines_world_state_witness :
  exists field,
    fake_calls [CallPut "asset1" "x"; CallPut "asset2" "y"; CallDelete "asset1"] NoStates
      = Some field /\
    fake_getState "asset2" field = Own "y" /\
    fake_getState "asset1" field = Undefined /\
    fake_getState "toString" field = Inherited.
Proof.
  destruct (test_store_refines_world_state
              [CallPut "asset1" "x"; CallPut "asset2" "y"; CallDelete "asset1"])
    as (field & Hf & _ & Hown & Hundef & _ & Hproto).
  - repeat constructor; discriminate.
  - exists field. split_and!; [done| | |].
    + apply Hown. vm_compute. reflexivity.
    + apply Hundef; [|vm_compute; reflexivity].
      by apply (bool_decide_unpack _).
    + apply Hproto; [by apply (bool_decide_unpack _)| |vm_compute; reflexivity].
      intros ->. vm_compute in Hf. discriminate Hf.
Defined.

(** ** X18: the order of the range query of the fake store *)

Lemma merge_sort_sorted {A} (l : list (string * A)) :
  NoDup l.*1 -> StronglySorted key_le l -> merge_sort key_le l = l.
Proof.
  intros Hnd Hs. apply (StronglySorted_unique_strong key_le).
  - intros x1 x2 Hx1 Hx2 H12 H21. rewrite merge_sort_Permutation in Hx1.
    apply (NoDup_keys_elem_eq l); [done..|].
    unfold key_le in *. by apply (anti_symm String.le).
  - apply StronglySorted_merge_sort; apply _.
  - done.
  - apply merge_sort_Permutation.
Qed.

(** A write under a new key that is no array index adds the property at
    the end of the object. *)
Lemma fake_puts_append (kvs acc : list (string * string)) :
  NoDup (acc ++ kvs)%list.*1 ->
  Forall (fun kv => array_index kv.1 = None /\ kv.1 <> "__proto__") kvs ->
  fake_calls ((fun kv => CallPut kv.1 kv.2) <$> kvs) (StatesObject acc)
  = Some (StatesObject (acc ++ kvs)%list).
Proof.
  revert acc. induction kvs as [|[k v] kvs IH]; intros acc Hnd Hk.
  - by rewrite app_nil_r.
  - apply Forall_cons in Hk as [[Hidx Hproto] Hk]. simpl in Hidx, Hproto.
    rewrite fmap_cons. cbn [fake_calls fake_call fst snd]. unfold fake_putState.
    destruct (String.eqb_spec k "__proto__") as [|_]; [done|].
    assert (own_get k acc = None) as Hg.
    { apply own_get_None. rewrite fmap_app in Hnd. simpl in Hnd.
      apply NoDup_app in Hnd as (_ & Hd & _). intros Hin. apply (Hd _ Hin). left. }
    unfold own_set. rewrite Hg, Hidx.
    rewrite IH; [by rewrite <- app_assoc| |done].
    by rewrite <- app_assoc.
Qed.

Lemma fake_puts_fresh (kvs : list (string * string)) :
  NoDup kvs.*1 ->
  Forall (fun kv => array_index kv.1 = None /\ kv.1 <> "__proto__") kvs ->
  exists field,
    fake_calls ((fun kv => CallPut kv.1 kv.2) <$> kvs) NoStates = Some field /\
    fake_getStateByRange EmptyString EmptyString field = kvs.*2 /\
    world_of field = list_to_map kvs.
Proof.
  intros Hnd Hk. destruct kvs as [|[k v] kvs]; [by exists NoStates|].
  exists (StatesObject ((k, v) :: kvs)). split; [|done].
  pose proof Hk as [[Hidx Hproto] _]%Forall_cons. simpl in Hidx, Hproto.
  rewrite fmap_cons. cbn [fake_calls fake_call fst snd]. unfold fake_putState.
  destruct (String.eqb_spec k "__proto__") as [|_]; [done|].
  unfold own_set. cbn [own_get]. rewrite Hidx. cbn [app].
  apply (fake_puts_append kvs [(k, v)]); [done|]. by apply Forall_cons in Hk as [_ ?].
Qed.

(** X18.  After writes under pairwise distinct keys, none an array index
    (nor __proto__), the range query of the fake store yields the values in
    the order of the writes, where the range query of the world state yields
    them in the order of their keys: the two agree when the keys were written
    in ascending order. *)
Theorem test_store_scans_in_creation_order (kvs : list (string * string)) :
  NoDup kvs.*1 ->
  Forall (fun kv => array_index kv.1 = None /\ kv.1 <> "__proto__") kvs ->
  exists field,
    fake_calls ((fun kv => CallPut kv.1 kv.2) <$> kvs) NoStates = Some field /\
    fake_getStateByRange EmptyString EmptyString field = kvs.*2 /\
    (scan (for_each stub_call ((fun kv => CallPut kv.1 kv.2) <$> kvs)
             (empty_stub accepting)).2).*2
    = (merge_sort key_le kvs).*2 /\
    (StronglySorted key_le kvs ->
       fake_getStateByRange EmptyString EmptyString field
       = (scan (for_each stub_call ((fun kv => CallPut kv.1 kv.2) <$> kvs)
                  (empty_stub accepting)).2).*2).
Proof.
  intros Hnd Hk.
  destruct (fake_puts_fresh kvs Hnd Hk) as (field & Hf & Hrange & Hworld).
  destruct (fake_calls_sim ((fun kv => CallPut kv.1 kv.2) <$> kvs) NoStates
              (empty_stub accepting)) as (field' & Hf' & _ & _ & Hw); [|done..|].
  { apply Forall_fmap. eapply Forall_impl; [exact Hk|]. by intros kv [_ ?]. }
  rewrite Hf in Hf'. injection Hf' as <-.
  assert (Hscan : scan (for_each stub_call ((fun kv => CallPut kv.1 kv.2) <$> kvs)
                          (empty_stub accepting)).2 = merge_sort key_le kvs).
  { unfold scan. rewrite <- Hw, Hworld. apply merge_sort_perm_eq.
    - apply NoDup_fst_map_to_list.
    - by apply map_to_list_to_map. }
  exists field. split_and!; [done|done|by rewrite Hscan|].
  intros Hs. by rewrite Hrange, Hscan, merge_sort_sorted.
Qed.

(** Written in the order asset2, asset1, the fake store yields the value
    of asset2 first and the world state that of asset1. *)
Lemma test_store_scans_in_creation_order_witness :
  exists field,
    fake_calls [CallPut "asset2" "second"; CallPut "asset1" "first"] NoStates = Some field /\
    fake_getStateByRange EmptyString EmptyString field = ["second"; "first"] /\
    (scan (for_each stub_call [CallPut "asset2" "second"; CallPut "asset1" "first"]
             (empty_stub accepting)).2).*2
    = ["first"; "second"].
Proof.
  destruct (test_store_scans_in_creation_order [("asset2", "second"); ("asset1", "first")])
    as (field & Hf & Hrange & Hscan & _).
  - by apply (bool_decide_unpack _).
  - repeat constructor; discriminate.
  - exists field. split_and!; [exact Hf|exact Hrange|].
    transitivity (merge_sort key_le [("asset2", "second"); ("asset1", "first")]).*2;
      [exact Hscan|vm_compute; reflexivity].
Defined.
